(** * Ossetian dictionary search: transliteration and query merging

    A shallow embedding of [transliteration.py] (the Latin/Cyrillic
    transliterator and the variant expander), of
    [app/api/search_client.py] (the query merger and the context shaping)
    and of the indexer ([app/indexer/html_processor.py]: text cleaning and
    entry extraction; [app/indexer/index_dictionaries.py]: batching), with
    the properties of the specification stated and proved over it.

    Python strings are sequences of Unicode code points, so a string is a
    list of code points here.  The Unicode database that [str.lower],
    [str.upper], [str.isupper] and [unicodedata.normalize] consult is not
    part of the program: it is a parameter of the development (class
    [UnicodeData]); a fragment of the real database is given as an instance
    for evaluating the program on concrete words. *)

From Stdlib Require Import String Ascii NArith ZArith QArith List Lia.
From stdpp Require Import gmap strings list sorting pretty.

Set Default Proof Using "Type".

(** ** Strings as sequences of code points *)

Abbreviation char := N.
Abbreviation str := (list N).

(** Decoder for the UTF-8 bytes of a literal of this file, so that the
    tables below can be written with the same glyphs as the Python source. *)
Fixpoint utf8_decode (bs : list N) : str :=
  match bs with
  | [] => []
  | b0 :: r1 =>
    if (b0 <? 128)%N then b0 :: utf8_decode r1
    else match r1 with
    | [] => []
    | b1 :: r2 =>
      if (b0 <? 224)%N
      then (N.land b0 31 * 64 + N.land b1 63)%N :: utf8_decode r2
      else match r2 with
      | [] => []
      | b2 :: r3 =>
        if (b0 <? 240)%N
        then (N.land b0 15 * 4096 + N.land b1 63 * 64 + N.land b2 63)%N
               :: utf8_decode r3
        else match r3 with
        | [] => []
        | b3 :: r4 =>
          (N.land b0 7 * 262144 + N.land b1 63 * 4096
             + N.land b2 63 * 64 + N.land b3 63)%N :: utf8_decode r4
        end
      end
    end
  end.

Definition U (s : string) : str :=
  utf8_decode (map N_of_ascii (list_ascii_of_string s)).

(** Python's [text[i:j]] for [0 <= i <= j]. *)
Definition slice (text : str) (i j : nat) : str := take (j - i) (drop i text).

(** ** The Unicode database *)

Class UnicodeData := {
  (** full lower-case mapping of one code point *)
  to_lower_full : char -> str;
  (** full upper-case mapping of one code point *)
  to_upper_full : char -> str;
  (** the Uppercase property, what [c.isupper()] tests on a one-character string *)
  is_uppercase : char -> bool;
  (** the Cased and Case_Ignorable properties, used by the final-sigma rule *)
  is_cased : char -> bool;
  is_case_ignorable : char -> bool;
  (** [unicodedata.normalize('NFKC', s)] *)
  normalize_nfkc : str -> str
}.

Definition CAPITAL_SIGMA : char := 931%N.   (* U+03A3 *)
Definition FINAL_SIGMA : char := 962%N.     (* U+03C2 *)
Definition SMALL_SIGMA : char := 963%N.     (* U+03C3 *)

Section PythonStrings.
Context `{UnicodeData}.

(** The first code point that is not case-ignorable, if any. *)
Fixpoint first_relevant (s : str) : option char :=
  match s with
  | [] => None
  | c :: rest => if is_case_ignorable c then first_relevant rest else Some c
  end.

(** A capital sigma is in final position when it is preceded by a cased
    letter and not followed by one, case-ignorable code points skipped.
    [before] is the text before the sigma, nearest code point first. *)
Definition final_sigma (before after : str) : bool :=
  match first_relevant before with
  | Some c =>
    is_cased c &&
    match first_relevant after with
    | Some d => negb (is_cased d)
    | None => true
    end
  | None => false
  end.

Fixpoint lower_from (before : str) (s : str) : str :=
  match s with
  | [] => []
  | c :: rest =>
    (if (c =? CAPITAL_SIGMA)%N
     then [if final_sigma before rest then FINAL_SIGMA else SMALL_SIGMA]
     else to_lower_full c) ++ lower_from (c :: before) rest
  end.

(** [s.lower()] *)
Definition str_lower (s : str) : str := lower_from [] s.

(** [s.upper()] *)
Definition str_upper (s : str) : str := flat_map to_upper_full s.

(** [c.lower()] for a one-character string. *)
Definition char_lower (c : char) : str := str_lower [c].

End PythonStrings.

(** ** A fragment of the Unicode database

    Exact on Basic Latin, Latin-1 Supplement, Latin Extended-A, Cyrillic
    (U+0400..U+04FF) and Latin Extended Additional (U+1E00..U+1EFF), the
    blocks the mapping tables of the program draw from; code points outside
    these blocks are treated as caseless.  It is only used to evaluate the
    program on concrete words of these blocks. *)
Module Fragment.
Local Open Scope N_scope.

Definition between (lo hi c : N) : bool := (lo <=? c) && (c <=? hi).
Definition paired_even (lo hi c : N) : bool := between lo hi c && N.even c.
Definition paired_odd (lo hi c : N) : bool := between lo hi c && N.odd c.

Definition lower_full (c : N) : str :=
  if between 65 90 c then [c + 32]
  else if between 192 222 c && negb (c =? 215) then [c + 32]
  else if c =? 304 then [105; 775]
  else if paired_even 256 311 c then [c + 1]
  else if paired_odd 313 328 c then [c + 1]
  else if paired_even 330 375 c then [c + 1]
  else if c =? 376 then [255]
  else if paired_odd 377 382 c then [c + 1]
  else if between 1024 1039 c then [c + 80]
  else if between 1040 1071 c then [c + 32]
  else if paired_even 1120 1153 c then [c + 1]
  else if paired_even 1162 1215 c then [c + 1]
  else if c =? 1216 then [1231]
  else if paired_odd 1217 1230 c then [c + 1]
  else if paired_even 1232 1279 c then [c + 1]
  else if paired_even 7680 7829 c then [c + 1]
  else if c =? 7838 then [223]
  else if paired_even 7840 7935 c then [c + 1]
  else [c].

Definition upper_full (c : N) : str :=
  if between 97 122 c then [c - 32]
  else if c =? 181 then [924]
  else if c =? 223 then [83; 83]
  else if between 224 254 c && negb (c =? 247) then [c - 32]
  else if c =? 255 then [376]
  else if c =? 305 then [73]
  else if paired_odd 257 311 c then [c - 1]
  else if paired_even 314 328 c then [c - 1]
  else if c =? 329 then [700; 78]
  else if paired_odd 331 375 c then [c - 1]
  else if paired_even 378 382 c then [c - 1]
  else if c =? 383 then [83]
  else if between 1072 1103 c then [c - 32]
  else if between 1104 1119 c then [c - 80]
  else if paired_odd 1121 1153 c then [c - 1]
  else if paired_odd 1163 1215 c then [c - 1]
  else if paired_even 1218 1230 c then [c - 1]
  else if c =? 1231 then [1216]
  else if paired_odd 1233 1279 c then [c - 1]
  else if paired_odd 7681 7829 c then [c - 1]
  else if c =? 7830 then [72; 817]
  else if c =? 7831 then [84; 776]
  else if c =? 7832 then [87; 778]
  else if c =? 7833 then [89; 778]
  else if c =? 7834 then [65; 702]
  else if c =? 7835 then [7776]
  else if paired_odd 7841 7935 c then [c - 1]
  else [c].

(** In these blocks the upper-case letters are the code points that have
    a lower-case mapping. *)
Definition uppercase (c : N) : bool :=
  negb (bool_decide (lower_full c = [c])).

Definition lowercase (c : N) : bool :=
  negb (bool_decide (upper_full c = [c]))
  || bool_decide (c ∈ [170; 186; 312; 7836; 7837; 7839]).

Definition cased (c : N) : bool := uppercase c || lowercase c.

Definition case_ignorable (c : N) : bool :=
  bool_decide (c ∈ [39; 46; 58; 94; 96; 168; 173; 175; 180; 183; 184])
  || between 768 879 c || between 1155 1161 c.

(** NFKC leaves ASCII text unchanged; the fragment's normaliser is exact
    on ASCII only. *)
Definition nfkc (s : str) : str := s.

#[export] Instance unicode : UnicodeData := {|
  to_lower_full := lower_full;
  to_upper_full := upper_full;
  is_uppercase := uppercase;
  is_cased := cased;
  is_case_ignorable := case_ignorable;
  normalize_nfkc := nfkc
|}.
End Fragment.

(** ** transliteration.py: the tables *)

Inductive pyobj :=
  | PStr (s : str)
  | PList (l : list str).

(** A Python dict literal with string keys, in source order. *)
Definition dict (V : Type) := list (str * V).

Fixpoint dict_lookup {V} (k : str) (d : dict V) : option V :=
  match d with
  | [] => None
  | (k', v) :: d' => if bool_decide (k = k') then Some v else dict_lookup k d'
  end.

(** [k in d] *)
Definition dict_in {V} (k : str) (d : dict V) : bool :=
  match dict_lookup k d with Some _ => true | None => false end.

(** [d[k]] for a dict of strings; every use below is guarded by [k in d],
    so the [KeyError] of a missing key cannot arise. *)
Definition dict_get (d : dict str) (k : str) : str :=
  match dict_lookup k d with Some v => v | None => [] end.

Definition LATIN_TO_CYRILLIC : dict str := Eval vm_compute in
  [ (U "a", U "а"); (U "æ", U "æ"); (U "ä", U "æ"); (U "b", U "б");
    (U "c", U "ц"); (U "č", U "ч"); (U "d", U "д");
    (U "e", U "е"); (U "f", U "ф"); (U "g", U "г"); (U "ğ", U "гъ");
    (U "h", U "х"); (U "i", U "и");
    (U "j", U "й"); (U "k", U "к"); (U "ḱ", U "къ"); (U "l", U "л");
    (U "m", U "м"); (U "n", U "н");
    (U "o", U "о"); (U "p", U "п"); (U "ṕ", U "пъ"); (U "q", U "хъ");
    (U "r", U "р"); (U "s", U "с");
    (U "š", U "ш"); (U "t", U "т"); (U "ṭ", U "тъ"); (U "u", U "у");
    (U "ū", U "у"); (U "v", U "в");
    (U "w", U "у"); (U "x", U "х"); (U "y", U "ы"); (U "z", U "з");
    (U "ž", U "ж"); (U "ә", U "у");
    (U "k'", U "къ"); (U "p'", U "пъ"); (U "t'", U "тъ"); (U "c'", U "цъ");
    (U "kẜ", U "хъу"); (U "gẜ", U "гъу"); (U "k'ẜ", U "къу");
    (U "dz", U "дз"); (U "dzh", U "дж") ].

Definition CYRILLIC_TO_LATIN : dict str := Eval vm_compute in
  [ (U "а", U "a"); (U "æ", U "æ"); (U "б", U "b"); (U "в", U "v");
    (U "г", U "g"); (U "гъ", U "ğ");
    (U "д", U "d"); (U "дж", U "dzh"); (U "дз", U "dz"); (U "е", U "e");
    (U "ё", U "jo"); (U "ж", U "ž");
    (U "з", U "z"); (U "и", U "i"); (U "й", U "j"); (U "к", U "k");
    (U "къ", U "k'"); (U "л", U "l");
    (U "м", U "m"); (U "н", U "n"); (U "о", U "o"); (U "п", U "p");
    (U "пъ", U "p'"); (U "р", U "r");
    (U "с", U "s"); (U "т", U "t"); (U "тъ", U "t'"); (U "у", U "u");
    (U "ф", U "f"); (U "х", U "h");
    (U "хъ", U "q"); (U "ц", U "c"); (U "цъ", U "c'"); (U "ч", U "č");
    (U "ш", U "š"); (U "щ", U "šč"); (U "ъ", U "");
    (U "ы", U "y"); (U "ь", U ""); (U "э", U "e"); (U "ю", U "ju");
    (U "я", U "ja");
    (U "хъу", U "kẜ"); (U "гъу", U "gẜ"); (U "къу", U "k'ẜ") ].

Definition SPECIAL_CASE_MAPPING : dict pyobj := Eval vm_compute in
  [ (U "tærqūs", PStr (U "тæрхъус"));
    (U "tærqos", PStr (U "тæрхъус"));
    (U "tärqūs", PStr (U "тæрхъус"));
    (U "tärqos", PStr (U "тæрхъус"));
    (U "тæрхъус", PList [U "tærqūs"; U "tærqos"; U "tärqūs"; U "tärqos"]) ].

Definition COMMON_VARIANTS : dict (list str) := Eval vm_compute in
  [ (U "æ", [U "ä"; U "a"; U "e"]);
    (U "ä", [U "æ"; U "a"; U "e"]);
    (U "ū", [U "u"]);
    (U "ә", [U "u"; U "y"]);
    (U "ẜ", [U "w"]);
    (U "ğ", [U "gh"]);
    (U "š", [U "sh"]);
    (U "ž", [U "zh"]);
    (U "č", [U "ch"]) ].

(** ** transliteration.py: the transliterator *)

Section Transliteration.
Context `{UnicodeData}.

(** One iteration of the [while i < len(text)] loop of
    [latin_to_cyrillic] and [cyrillic_to_latin], which differ only in the
    table [D]; [ti] is [text[i]].  The state is the pair of [i] and
    [result].  On [nat], [i <? length text - 2] agrees with Python's
    comparison on integers, because [i] is never negative. *)
Definition scan_body (D : dict str) (text : str) (ti : char)
    (i : nat) (result : str) : nat * str :=
  if (i <? length text - 2)
     && dict_in (str_lower (slice text i (i + 3))) D then
    let char := str_lower (slice text i (i + 3)) in
    (i + 3, result ++ dict_get D char)
  else if (i <? length text - 1)
          && dict_in (str_lower (slice text i (i + 2))) D then
    let char := str_lower (slice text i (i + 2)) in
    (i + 2, result ++ dict_get D char)
  else if dict_in (str_lower [ti]) D then
    if is_uppercase ti
    then (i + 1, result ++ str_upper (dict_get D (str_lower [ti])))
    else (i + 1, result ++ dict_get D (str_lower [ti]))
  else
    (i + 1, result ++ [ti]).

(** The loop, run for at most [fuel] iterations. *)
Fixpoint scan_loop (D : dict str) (text : str) (fuel : nat)
    (i : nat) (result : str) : str :=
  match fuel with
  | 0 => result
  | S fuel' =>
    match text !! i with
    | Some ti =>                          (* i < len(text) *)
      let '(i', result') := scan_body D text ti i result in
      scan_loop D text fuel' i' result'
    | None => result
    end
  end.

(** The general case of both functions: [result = ''], [i = 0], the loop,
    [return result].  Every iteration advances [i], so [length text]
    iterations are enough ([scan_terminates] below). *)
Definition scan (D : dict str) (text : str) : str :=
  scan_loop D text (length text) 0 [].

Definition latin_to_cyrillic (text : str) : pyobj :=
  if dict_in (str_lower text) SPECIAL_CASE_MAPPING then
    match dict_lookup (str_lower text) SPECIAL_CASE_MAPPING with
    | Some v => v
    | None => PStr []
    end
  else PStr (scan LATIN_TO_CYRILLIC text).

(** [result[0]] of the special-case branch: the lexicon's only list value
    is not empty, so the [IndexError] of an empty list cannot arise. *)
Definition cyrillic_to_latin (text : str) : str :=
  if dict_in (str_lower text) SPECIAL_CASE_MAPPING then
    match dict_lookup (str_lower text) SPECIAL_CASE_MAPPING with
    | Some (PList l) => match l with v :: _ => v | [] => [] end
    | Some (PStr s) => s
    | None => []
    end
  else scan CYRILLIC_TO_LATIN text.

(** Big-step semantics of the [while] loop, to state that it terminates. *)
Inductive while_run (D : dict str) (text : str) : nat -> str -> str -> Prop :=
  | while_exit i result :
      text !! i = None ->
      while_run D text i result result
  | while_iter i ti result i' result' final :
      text !! i = Some ti ->
      scan_body D text ti i result = (i', result') ->
      while_run D text i' result' final ->
      while_run D text i result final.

(** The trace of the loop: for each iteration, the slice of [text] it
    consumed and the string it appended to [result]. *)
Fixpoint tokens_loop (D : dict str) (text : str) (fuel : nat) (i : nat)
    : list (str * str) :=
  match fuel with
  | 0 => []
  | S fuel' =>
    match text !! i with
    | Some ti =>
      let '(i', out) := scan_body D text ti i [] in
      (slice text i i', out) :: tokens_loop D text fuel' i'
    | None => []
    end
  end.

Definition tokens (D : dict str) (text : str) : list (str * str) :=
  tokens_loop D text (length text) 0.

End Transliteration.

(** ** transliteration.py: the variant expander *)

Inductive exn :=
  | TypeError
  | AttributeError
  | BackendError
  | RuntimeError (cause : exn).

Inductive result (A : Type) :=
  | Ok (a : A)
  | Raise (e : exn).
Arguments Ok {A} a.
Arguments Raise {A} e.

#[export] Instance result_bind : MBind result := fun A B k r =>
  match r with
  | Ok a => k a
  | Raise e => Raise e
  end.

Section VariantExpander.
Context `{UnicodeData}.

(** The variants contributed by position [i] of [text], whose character
    is [char]: the inner [for variant_char in ...] loop. *)
Definition variants_at (text : str) (i : nat) (char : char) : list str :=
  if dict_in (str_lower [char]) COMMON_VARIANTS then
    match dict_lookup (str_lower [char]) COMMON_VARIANTS with
    | Some subs =>
      map (fun variant_char => take i text ++ variant_char ++ drop (i + 1) text)
          subs
    | None => []
    end
  else [].

(** The list [variants] before it is turned into a set. *)
Definition variants_list (text : str) : list str :=
  text :: concat (imap (variants_at text) text).

(** [generate_variants]; [list(set(variants))] is a list without
    duplicates in an order Python leaves unspecified: a finite set. *)
Definition generate_variants (text : str) : gset str :=
  list_to_set (variants_list text).

(** [any(char in CYRILLIC_TO_LATIN for char in text.lower())] *)
Definition has_cyrillic (text : str) : bool :=
  existsb (fun char => dict_in [char] CYRILLIC_TO_LATIN) (str_lower text).

(** [set.add] needs a hashable element: adding a list raises. *)
Definition set_add (v : pyobj) (variants : gset str) : result (gset str) :=
  match v with
  | PStr s => Ok ({[ s ]} ∪ variants)
  | PList _ => Raise TypeError
  end.

Definition get_all_script_variants (text : str) : result (gset str) :=
  let variants : gset str := {[ text ]} in
  variants ←
    (if dict_in (str_lower text) SPECIAL_CASE_MAPPING then
       match dict_lookup (str_lower text) SPECIAL_CASE_MAPPING with
       | Some (PList special_variants) =>
         Ok (variants ∪ list_to_set special_variants)
       | Some (PStr special_variants) =>
         Ok (variants ∪ {[ special_variants ]})
       | None => Ok variants
       end
     else Ok variants);
  if has_cyrillic text then
    let latin_variant := cyrillic_to_latin text in
    let variants := variants ∪ {[ latin_variant ]} in
    Ok (variants ∪ generate_variants latin_variant)
  else
    let cyrillic_variant := latin_to_cyrillic text in
    variants ← set_add cyrillic_variant variants;
    Ok (variants ∪ generate_variants text).

End VariantExpander.

(** ** app/api/search_client.py: data *)

(** The values a hit carries: strings, JSON null, and the ranking score, a
    float, kept as the rational number it denotes (scores are only
    compared, never computed with). *)
Inductive pyval :=
  | VNone
  | VStr (s : str)
  | VNum (q : Q).

#[export] Instance Q_eq_dec : EqDecision Q.
Proof. solve_decision. Defined.

#[export] Instance pyval_eq_dec : EqDecision pyval.
Proof. solve_decision. Defined.

#[export] Instance pyval_countable : Countable pyval.
Proof.
  refine (inj_countable'
    (fun v => match v with
              | VNone => inl ()
              | VStr s => inr (inl s)
              | VNum q => inr (inr (Qnum q, Qden q))
              end)
    (fun e => match e with
              | inl _ => VNone
              | inr (inl s) => VStr s
              | inr (inr (n, d)) => VNum (Qmake n d)
              end) _).
  intros [| s | [n d]]; reflexivity.
Defined.

(** A hit is a Python dict with the keys [term], [definition], [source],
    [id], [_rankingScore], [expanded_context], [full_context]. *)
Abbreviation Hit := (gmap string pyval).

(** [hit.get(key, default)]; [hit.get(key)] is [hit_get key VNone]. *)
Definition hit_get (key : string) (default : pyval) (h : Hit) : pyval :=
  match h !! key with
  | Some v => v
  | None => default
  end.

(** The sort key [lambda x: x.get("_rankingScore", 0.0)].  The backend
    gives a float under this key when it gives the key at all. *)
Definition ranking_score (x : Hit) : Q :=
  match hit_get "_rankingScore" (VNum 0) x with
  | VNum q => q
  | _ => 0
  end.

Record search_params := {
  showRankingScore : bool;
  attributesToRetrieve : list string;
  sp_limit : Z
}.

(** The response dict of the backend and the merged result: both have
    the keys [hits], [query], [processingTimeMs], [estimatedTotalHits]. *)
Record response := {
  hits : list Hit;
  query : str;
  processingTimeMs : Z;
  estimatedTotalHits : Z
}.

Definition set_hits (r : response) (hs : list Hit) : response :=
  {| hits := hs; query := query r;
     processingTimeMs := processingTimeMs r;
     estimatedTotalHits := estimatedTotalHits r |}.

(** [index.search(query, search_params)]: the external search backend.  It
    answers with a response or raises. *)
Definition backend := str -> search_params -> result response.

(** ** app/api/search_client.py: context shaping *)

Definition EXPANDED_NOTE : str := Eval vm_compute in
  [10%N; 10%N] ++
  U "[Note: This is an expanded context view. " ++
  U "In a complete implementation, this would show surrounding entries and more " ++
  U "of the dictionary context. The current entry definition is shown above.]".

Definition FULL_NOTE : str := Eval vm_compute in
  [10%N; 10%N] ++
  U "[Note: This is a full context view. " ++
  U "In a complete implementation, this would show a large section of the dictionary " ++
  U "surrounding this entry, potentially including multiple pages of content. " ++
  U "The current entry definition is shown above.]".

(** Python truthiness of a value: [not v] is [negb (truthy v)]. *)
Definition truthy (v : pyval) : bool :=
  match v with
  | VNone => false
  | VStr s => negb (bool_decide (s = []))
  | VNum q => negb (Qeq_bool q 0)
  end.

(** [definition + additional_context], which raises unless [definition]
    is a string. *)
Definition str_concat (definition : pyval) (additional_context : str)
    : result pyval :=
  match definition with
  | VStr s => Ok (VStr (s ++ additional_context))
  | _ => Raise TypeError
  end.

Definition generate_expanded_context (definition : pyval)
    (context_size : string) : result pyval :=
  if negb (truthy definition) || bool_decide (context_size = "default"%string)
  then Ok VNone
  else if bool_decide (context_size = "expanded"%string) then
    str_concat definition EXPANDED_NOTE
  else if bool_decide (context_size = "full"%string) then
    str_concat definition FULL_NOTE
  else Ok VNone.

(** The body of each of the three [for hit in ...] loops of
    [process_search_results]; the hit is updated in place. *)
Definition process_hit (context_size : string) (hit : Hit) : result Hit :=
  if bool_decide (context_size = "default"%string) then
    let hit := if bool_decide (is_Some (hit !! "expanded_context"))
               then delete "expanded_context" hit else hit in
    let hit := if bool_decide (is_Some (hit !! "full_context"))
               then delete "full_context" hit else hit in
    Ok hit
  else if bool_decide (context_size = "expanded"%string) then
    if negb (bool_decide (is_Some (hit !! "expanded_context"))) then
      ctx ← generate_expanded_context
               (hit_get "definition" (VStr []) hit) context_size;
      Ok (<["expanded_context" := ctx]> hit)
    else Ok hit
  else if bool_decide (context_size = "full"%string) then
    match hit !! "full_context" with
    | Some full_context =>
      let hit := <["expanded_context" := full_context]> hit in
      Ok (delete "full_context" hit)
    | None =>
      ctx ← generate_expanded_context
               (hit_get "definition" (VStr []) hit) context_size;
      Ok (<["expanded_context" := ctx]> hit)
    end
  else Ok hit.

(** [process_search_results]: the loop over [results["hits"]]; an
    exception in one hit ends the loop. *)
Fixpoint process_hits (context_size : string) (hs : list Hit)
    : result (list Hit) :=
  match hs with
  | [] => Ok []
  | hit :: rest =>
    hit' ← process_hit context_size hit;
    rest' ← process_hits context_size rest;
    Ok (hit' :: rest')
  end.

Definition process_search_results (results : response)
    (context_size : string) : result response :=
  hs ← process_hits context_size (hits results);
  Ok (set_hits results hs).

(** ** app/api/search_client.py: the query merger *)

(** [sorted(hits, key=ranking_score, reverse=True)]: Python's sort is
    stable, also with [reverse=True].  Modelled as an insertion sort that
    puts a hit before the first hit whose score is not larger. *)
Fixpoint insert_by_score (x : Hit) (l : list Hit) : list Hit :=
  match l with
  | [] => [x]
  | y :: l' =>
    if Qle_bool (ranking_score y) (ranking_score x)
    then x :: y :: l'
    else y :: insert_by_score x l'
  end.

Definition sorted_by_score (l : list Hit) : list Hit :=
  foldr insert_by_score [] l.

(** [if source:] is false for [None] and for the empty string. *)
Definition source_given (source : option str) : bool :=
  match source with
  | Some (_ :: _) => true
  | _ => false
  end.

(** [l[:limit]] *)
Definition py_prefix {A} (l : list A) (limit : Z) : list A :=
  if (0 <=? limit)%Z then take (Z.to_nat limit) l
  else take (length l - Z.to_nat (- limit)) l.

(** [a in b] on strings *)
Fixpoint is_substring (a b : str) : bool :=
  bool_decide (a `prefix_of` b) ||
  match b with
  | [] => false
  | _ :: b' => is_substring a b'
  end.

(** The per-source cap: the [for hit in ...] loop with its [break]. *)
Fixpoint cap_loop (limit limit_per_source : Z) (hs : list Hit)
    (source_counts : gmap pyval Z) (filtered_hits : list Hit) : list Hit :=
  match hs with
  | [] => filtered_hits
  | hit :: rest =>
    let hit_source := hit_get "source" (VStr []) hit in
    let source_counts :=
      if bool_decide (source_counts !! hit_source = None)
      then <[hit_source := 0%Z]> source_counts else source_counts in
    let count := default 0%Z (source_counts !! hit_source) in
    if (count <? limit_per_source)%Z then
      let filtered_hits := filtered_hits ++ [hit] in
      let source_counts := <[hit_source := (count + 1)%Z]> source_counts in
      if (limit <=? Z.of_nat (length filtered_hits))%Z
      then filtered_hits                                   (* break *)
      else cap_loop limit limit_per_source rest source_counts filtered_hits
    else cap_loop limit limit_per_source rest source_counts filtered_hits
  end.

Definition per_source_cap (limit limit_per_source : Z) (hs : list Hit)
    : list Hit :=
  cap_loop limit limit_per_source hs ∅ [].

(** Adding the hits of one variant that were not seen yet. *)
Fixpoint add_unseen (variant_hits : list Hit) (seen_ids : gset pyval)
    (merged_hits : list Hit) : gset pyval * list Hit :=
  match variant_hits with
  | [] => (seen_ids, merged_hits)
  | hit :: rest =>
    let hit_id := hit_get "id" VNone hit in
    if bool_decide (hit_id ∉ seen_ids)
    then add_unseen rest ({[ hit_id ]} ∪ seen_ids) (merged_hits ++ [hit])
    else add_unseen rest seen_ids merged_hits
  end.

(** The calls made to the backend, in order. *)
Definition call_log := list (str * search_params).

(** The [for variant in query_variants] loop.  A backend call that raises
    ends the loop: the exception leaves the function body. *)
Fixpoint variants_loop (index_search : backend) (params : search_params)
    (query_variants : list str) (merged_results : response)
    (seen_ids : gset pyval) (log : call_log) : call_log * result response :=
  match query_variants with
  | [] => (log, Ok merged_results)
  | variant :: rest =>
    let log := log ++ [(variant, params)] in
    match index_search variant params with
    | Raise e => (log, Raise e)
    | Ok variant_result =>
      let '(seen_ids, merged_hits) :=
        add_unseen (hits variant_result) seen_ids (hits merged_results) in
      variants_loop index_search params rest
        {| hits := merged_hits;
           query := query merged_results;
           processingTimeMs :=
             (processingTimeMs merged_results
              + processingTimeMs variant_result)%Z;
           estimatedTotalHits :=
             Z.max (estimatedTotalHits merged_results)
                   (estimatedTotalHits variant_result) |}
        seen_ids log
    end
  end.

Section SearchDictionary.
Context `{UnicodeData}.

(** [list(variants)]: the elements of the set, once each, in an order
    that Python leaves unspecified. *)
Variable py_list : gset str -> list str.

(** [unicodedata.normalize('NFKC', v.lower())], which raises when [v] is
    not a string. *)
Definition normalized (v : pyval) : result str :=
  match v with
  | VStr s => Ok (normalize_nfkc (str_lower s))
  | _ => Raise AttributeError
  end.

Fixpoint source_filter_loop (source_normalized : str) (hs : list Hit)
    (filtered_hits : list Hit) : result (list Hit) :=
  match hs with
  | [] => Ok filtered_hits
  | hit :: rest =>
    hit_source ← normalized (hit_get "source" (VStr []) hit);
    if is_substring source_normalized hit_source
    then source_filter_loop source_normalized rest (filtered_hits ++ [hit])
    else source_filter_loop source_normalized rest filtered_hits
  end.

(** The two mutually exclusive filters applied to a hit list. *)
Definition apply_filters (source : option str)
    (limit limit_per_source : Z) (hs : list Hit) : result (list Hit) :=
  if source_given source then
    let source_normalized :=
      normalize_nfkc (str_lower (default [] source)) in
    filtered_hits ← source_filter_loop source_normalized hs [];
    Ok (py_prefix filtered_hits limit)
  else Ok (per_source_cap limit limit_per_source hs).

Definition make_search_params (limit : Z) (context_size : string)
    (source : option str) : search_params :=
  {| showRankingScore := true;
     attributesToRetrieve :=
       ["term"; "definition"; "source"; "id"]%string ++
       (if bool_decide (context_size = "expanded"%string)
        then ["expanded_context"%string]
        else if bool_decide (context_size = "full"%string)
        then ["full_context"%string] else []);
     sp_limit := if source_given source then 100%Z
                 else Z.min 100 (limit * 2) |}.

(** The body of the [try] block. *)
Definition search_body (index_search : backend) (query : str)
    (limit limit_per_source : Z) (use_transliteration : bool)
    (context_size : string) (source : option str)
    : call_log * result response :=
  let params := make_search_params limit context_size source in
  if negb use_transliteration then
    let log := [(query, params)] in
    (log,
     result ← index_search query params;
     result ← process_search_results result context_size;
     filtered_hits ←
       apply_filters source limit limit_per_source (hits result);
     Ok (set_hits result filtered_hits))
  else
    match get_all_script_variants query with
    | Raise e => ([], Raise e)
    | Ok variants =>
      let query_variants := py_list variants in
      let merged_results :=
        {| hits := []; query := query;
           processingTimeMs := 0; estimatedTotalHits := 0 |} in
      let '(log, looped) :=
        variants_loop index_search params query_variants
          merged_results ∅ [] in
      (log,
       merged_results ← looped;
       let merged_results :=
         set_hits merged_results
           (sorted_by_score (hits merged_results)) in
       filtered_hits ←
         apply_filters source limit limit_per_source
           (hits merged_results);
       process_search_results
         (set_hits merged_results filtered_hits) context_size)
    end.

(** [search_dictionary]: the body, with every exception re-raised as a
    [RuntimeError]. *)
Definition search_dictionary (index_search : backend) (query : str)
    (limit limit_per_source : Z) (use_transliteration : bool)
    (context_size : string) (source : option str)
    : call_log * result response :=
  let '(log, outcome) :=
    search_body index_search query limit limit_per_source
      use_transliteration context_size source in
  (log,
   match outcome with
   | Ok merged => Ok merged
   | Raise e => Raise (RuntimeError e)
   end).

End SearchDictionary.

(** ** Notions used to state the properties *)

(** The code points that occur in a key or in a value of one of the two
    mapping tables. *)
Definition table_chars : list char := Eval vm_compute in
  remove_dups
    (concat (map fst LATIN_TO_CYRILLIC ++ map snd LATIN_TO_CYRILLIC
             ++ map fst CYRILLIC_TO_LATIN ++ map snd CYRILLIC_TO_LATIN)).

(** A string that can be a key: not empty, written with characters of the
    mapping tables. *)
Definition table_key (k : str) : Prop :=
  k <> [] /\ Forall (fun c => c ∈ table_chars) k.

Section Tokenisation.
Context `{UnicodeData}.

(** No character of [w], lower-cased, occurs in the mapping tables. *)
Definition unmapped (w : str) : Prop :=
  forall c c', c ∈ w -> c' ∈ char_lower c -> c' ∉ table_chars.

(** One step of the tokenisation as the specification words it, on the
    text [rest] that is still to be read: the 3-character slice is looked
    up first, then the 2-character slice, then the single character; a
    character without a mapping is copied.  The step relates [rest] to the
    slice consumed and the string produced. *)
Inductive token_step (D : dict str) (rest : str) : str -> str -> Prop :=
  | step_three v :
      3 <= length rest ->
      dict_lookup (str_lower (take 3 rest)) D = Some v ->
      token_step D rest (take 3 rest) v
  | step_two v :
      (3 <= length rest -> dict_lookup (str_lower (take 3 rest)) D = None) ->
      2 <= length rest ->
      dict_lookup (str_lower (take 2 rest)) D = Some v ->
      token_step D rest (take 2 rest) v
  | step_one c v :
      (3 <= length rest -> dict_lookup (str_lower (take 3 rest)) D = None) ->
      (2 <= length rest -> dict_lookup (str_lower (take 2 rest)) D = None) ->
      head rest = Some c ->
      dict_lookup (str_lower [c]) D = Some v ->
      token_step D rest [c] (if is_uppercase c then str_upper v else v)
  | step_copy c :
      (3 <= length rest -> dict_lookup (str_lower (take 3 rest)) D = None) ->
      (2 <= length rest -> dict_lookup (str_lower (take 2 rest)) D = None) ->
      head rest = Some c ->
      dict_lookup (str_lower [c]) D = None ->
      token_step D rest [c] [c].

(** A left-to-right tokenisation of [rest] without backtracking: every
    token is the step taken on what the tokens before it left. *)
Inductive greedy (D : dict str) : str -> list (str * str) -> Prop :=
  | greedy_done : greedy D [] []
  | greedy_token rest slice out toks :
      token_step D rest slice out ->
      greedy D (drop (length slice) rest) toks ->
      greedy D rest ((slice, out) :: toks).

(** Case preservation as the specification words it, for one token: when
    the first character of the consumed slice is upper case, the first
    character of the output is upper case and the characters after it are
    those of the table value; otherwise the output is the table value. *)
Definition first_char_case_preserved (slice value out : str) : Prop :=
  match slice with
  | c :: _ =>
    if is_uppercase c then
      match value with
      | [] => out = []
      | _ :: value_rest =>
        exists u, out = u :: value_rest /\ is_uppercase u = true
      end
    else out = value
  | [] => True
  end.

(** Case preservation for every token of the scan of [text] that was
    mapped through the table. *)
Definition preserves_first_char_case (D : dict str) (text : str) : Prop :=
  forall slice out v,
    (slice, out) ∈ tokens D text ->
    dict_lookup (str_lower slice) D = Some v ->
    first_char_case_preserved slice v out.

End Tokenisation.

(** The letter ae, U+00E6, a key of both mapping tables. *)
Definition AE : char := 230%N.

(** The key of the special-case lexicon whose value is a list, and that
    list. *)
Definition LIST_KEY : str := Eval vm_compute in U "тæрхъус".
Definition LIST_VALUE : list str := Eval vm_compute in
  [U "tærqūs"; U "tærqos"; U "tärqūs"; U "tärqos"].

(** The identity and the source label of a hit, as the loops read them. *)
Definition hit_id (h : Hit) : pyval := hit_get "id" VNone h.
Definition hit_source (h : Hit) : pyval := hit_get "source" (VStr []) h.

(** The hits of [l] whose identity is neither in [seen] nor carried by an
    earlier hit of [l]. *)
Fixpoint keep_first (seen : gset pyval) (l : list Hit) : list Hit :=
  match l with
  | [] => []
  | h :: l' =>
    if bool_decide (hit_id h ∈ seen) then keep_first seen l'
    else h :: keep_first ({[ hit_id h ]} ∪ seen) l'
  end.

(** The hits with a given identity, and with a given source. *)
Definition with_id (v : pyval) (l : list Hit) : list Hit :=
  filter (fun h => hit_id h = v) l.
Definition with_source (v : pyval) (l : list Hit) : list Hit :=
  filter (fun h => hit_source h = v) l.

(** Hits in descending order of ranking score. *)
Definition score_ge (a b : Hit) : Prop :=
  (ranking_score b <= ranking_score a)%Q.
Definition descending (l : list Hit) : Prop := StronglySorted score_ge l.


(** What context shaping for the size [full] makes of a hit [h]: the
    result [h'] has no [full_context]; its [expanded_context] is the former
    [full_context] when there was one, otherwise the definition followed by
    [FULL_NOTE] when the definition is a non-empty string and [None] when
    it is the empty string, [None] or missing; every other key is as in
    [h]. *)
Definition full_shaped (h h' : Hit) : Prop :=
  h' !! "full_context"%string = None /\
  (forall k : string,
     k <> "expanded_context"%string -> k <> "full_context"%string ->
     h' !! k = h !! k) /\
  match h !! "full_context"%string with
  | Some v => h' !! "expanded_context"%string = Some v
  | None =>
    match hit_get "definition" (VStr []) h with
    | VStr (c :: d) =>
      h' !! "expanded_context"%string = Some (VStr (c :: d ++ FULL_NOTE))
    | _ => h' !! "expanded_context"%string = Some VNone
    end
  end.

(** The definition of a hit is text: a string, [None], or missing. *)
Definition definition_is_text (h : Hit) : Prop :=
  match hit_get "definition" (VStr []) h with
  | VNum _ => False
  | _ => True
  end.

(** Two hits that agree on source and ranking score. *)
Definition same_source_score (h h' : Hit) : Prop :=
  hit_source h' = hit_source h /\ ranking_score h' = ranking_score h.

(** The loop invariant of the per-source cap: the global limit is not
    reached yet, and [source_counts] holds, for every source, the number
    of hits of that source included so far (a missing key counts as 0). *)
Definition cap_inv (limit : Z) (source_counts : gmap pyval Z)
    (filtered_hits : list Hit) : Prop :=
  (Z.of_nat (length filtered_hits) < limit)%Z /\
  forall s, default 0%Z (source_counts !! s)
            = Z.of_nat (length (with_source s filtered_hits)).

(** The two updates of [source_counts] in one iteration of the cap loop:
    the counter of the source of [x] is created at 0 when missing, and it is
    incremented when [x] is included. *)
Definition seen_source (source_counts : gmap pyval Z) (x : Hit)
    : gmap pyval Z :=
  if bool_decide (source_counts !! hit_source x = None)
  then <[hit_source x := 0%Z]> source_counts else source_counts.

Definition counted_source (source_counts : gmap pyval Z) (x : Hit)
    : gmap pyval Z :=
  <[hit_source x :=
      (default 0%Z (seen_source source_counts x !! hit_source x) + 1)%Z]>
    (seen_source source_counts x).

(** ** Sample data, for evaluating the query merger *)

Definition sample_hit (id source : str) (score : Q) (definition : str) : Hit :=
  <["id"%string := VStr id]>
    (<["source"%string := VStr source]>
       (<["_rankingScore"%string := VNum score]>
          (<["definition"%string := VStr definition]> ∅))).

Definition sample_response (q : str) (hs : list Hit) : response :=
  {| hits := hs; query := q;
     processingTimeMs := 1; estimatedTotalHits := Z.of_nat (length hs) |}.

Definition doc_1_latin : Hit :=
  sample_hit (U "doc_1") (U "A.html") (1 # 2) (U "hare").
Definition doc_1_cyrillic : Hit :=
  sample_hit (U "doc_1") (U "B.html") (9 # 10) (U "hare").
Definition doc_2 : Hit :=
  sample_hit (U "doc_2") (U "A.html") (1 # 10) (U "rabbit").
Definition doc_3 : Hit :=
  sample_hit (U "doc_3") (U "B.html") (9 # 10) (U "").

Definition doc_4 : Hit :=
  <["full_context"%string := VStr (U "page 12")]> doc_2.

(** A backend that finds [doc_1] under the Latin spelling with one score
    and under the Cyrillic spelling with a higher one. *)
Definition two_script_backend : backend := fun q _ =>
  if bool_decide (q = U "tærqūs") then
    Ok (sample_response q [doc_1_latin; doc_2])
  else if bool_decide (q = U "тæрхъус") then
    Ok (sample_response q [doc_1_cyrillic])
  else Ok (sample_response q []).

(** A backend that answers the query "a" and fails on every other one. *)
Definition failing_backend : backend := fun q _ =>
  if bool_decide (q = U "a") then Ok (sample_response q [doc_2])
  else Raise BackendError.

(** A backend whose answer is not in descending order of score. *)
Definition unsorted_backend : backend := fun q _ =>
  Ok (sample_response q [doc_2; doc_3]).

Definition sample_params : search_params :=
  make_search_params 50 "default" None.

Definition two_script_variants : list str := Eval vm_compute in
  [U "tærqūs"; U "тæрхъус"].

Definition two_script_responses : list response :=
  [sample_response (U "tærqūs") [doc_1_latin; doc_2];
   sample_response (U "тæрхъус") [doc_1_cyrillic]].

Definition shaping_sample : response :=
  sample_response (U "hare") [doc_4; doc_2; doc_3].

(** ** Further notions *)

Section FurtherNotions.
Context `{UnicodeData}.

(** A character that separates: its lower-casing is not empty and has no
    character of the mapping tables (a space, a digit, a hyphen). *)
Definition separator (c : char) : Prop :=
  char_lower c <> [] /\ forall c', c' ∈ char_lower c -> c' ∉ table_chars.

(** The test of the source filter on one hit whose source is a string:
    the normalised filter occurs in the normalised source. *)
Definition source_matches (wanted : str) (h : Hit) : bool :=
  match hit_source h with
  | VStr s =>
    is_substring (normalize_nfkc (str_lower wanted))
                 (normalize_nfkc (str_lower s))
  | _ => false
  end.

End FurtherNotions.

(** The source of a hit is a string (it may be missing: the default is the
    empty string). *)
Definition source_is_text (h : Hit) : Prop :=
  match hit_source h with
  | VStr _ => True
  | _ => False
  end.

(** Two hits that agree on every key but the two context keys. *)
Definition same_but_context (h h' : Hit) : Prop :=
  forall k : string,
    k <> "expanded_context"%string -> k <> "full_context"%string ->
    h' !! k = h !! k.

(** What context shaping for the size [expanded] makes of a hit [h]: an
    [expanded_context] that is present is kept, whatever its value;
    otherwise it becomes the definition followed by [EXPANDED_NOTE] when
    the definition is a non-empty string and [None] when it is the empty
    string, [None] or missing; every other key, [full_context] included,
    is as in [h]. *)
Definition expanded_shaped (h h' : Hit) : Prop :=
  (forall k : string, k <> "expanded_context"%string -> h' !! k = h !! k) /\
  match h !! "expanded_context"%string with
  | Some v => h' !! "expanded_context"%string = Some v
  | None =>
    match hit_get "definition" (VStr []) h with
    | VStr (c :: d) =>
      h' !! "expanded_context"%string
        = Some (VStr (c :: d ++ EXPANDED_NOTE))
    | _ => h' !! "expanded_context"%string = Some VNone
    end
  end.

(** The context keys a hit may carry after shaping for [context_size]. *)
Definition context_keys_shaped (context_size : string) (h : Hit) : Prop :=
  (context_size = "default"%string ->
   h !! "expanded_context"%string = None /\
   h !! "full_context"%string = None) /\
  (context_size = "expanded"%string ->
   is_Some (h !! "expanded_context"%string)) /\
  (context_size = "full"%string ->
   is_Some (h !! "expanded_context"%string) /\
   h !! "full_context"%string = None).

(** ** app/indexer/html_processor.py

    [BeautifulSoup] is a library: the parsed document is taken as it is
    observed by the program, a list of the [p] and [div] elements in
    document order, each with its text ([p.text]) and the text of its first
    [b] or [strong] element when it has one ([p.find(['b', 'strong'])],
    which is [None] otherwise; an element that was found is true).

    [str.strip], [str.split] and the pattern [\s] of [re] make the same
    test on a character, [str.isspace]; it is part of the Unicode database
    and a parameter here. *)

Class Whitespace := { is_space : char -> bool }.

(** The characters for which [str.isspace] holds. *)
Module PySpace.
Definition isspace (c : char) : bool :=
  ((9 <=? c) && (c <=? 13) || (28 <=? c) && (c <=? 32)
   || (c =? 133) || (c =? 160) || (c =? 5760)
   || (8192 <=? c) && (c <=? 8202)
   || (c =? 8232) || (c =? 8233) || (c =? 8239) || (c =? 8287)
   || (c =? 12288))%N.

#[export] Instance whitespace : Whitespace := {| is_space := isspace |}.
End PySpace.

Definition SPACE : char := 32%N.
Definition FULL_STOP : char := 46%N.

(** [sep.join(l)] *)
Fixpoint str_join (sep : str) (l : list str) : str :=
  match l with
  | [] => []
  | x :: l' =>
    match l' with
    | [] => x
    | _ => x ++ sep ++ str_join sep l'
    end
  end.

(** [s.split(c)[0]]: the part of [s] before the first [c]. *)
Fixpoint before_first (c : char) (s : str) : str :=
  match s with
  | [] => []
  | d :: s' => if (d =? c)%N then [] else d :: before_first c s'
  end.

(** [l.index(x)], which raises [ValueError] when [x] is not in [l]. *)
Fixpoint list_index (x : str) (l : list str) : option nat :=
  match l with
  | [] => None
  | y :: l' => if decide (y = x) then Some 0 else S <$> list_index x l'
  end.

(** [l[a:b]] for indices that are not negative. *)
Definition py_slice {A} (a b : nat) (l : list A) : list A :=
  take (b - a) (drop a l).

Section TextCleaning.
Context `{Whitespace}.

(** [s.lstrip()], [s.rstrip()] and [s.strip()] *)
Fixpoint lstrip (s : str) : str :=
  match s with
  | [] => []
  | c :: s' => if is_space c then lstrip s' else s
  end.

Fixpoint rstrip (s : str) : str :=
  match s with
  | [] => []
  | c :: s' =>
    match rstrip s' with
    | [] => if is_space c then [] else [c]
    | r => c :: r
    end
  end.

Definition strip (s : str) : str := rstrip (lstrip s).

(** [re.sub(r'\s+', ' ', s)]: every maximal run of whitespace is replaced
    by one space.  [in_run] tells that the character before was
    whitespace, so that the run was replaced already. *)
Fixpoint sub_spaces (in_run : bool) (s : str) : str :=
  match s with
  | [] => []
  | c :: s' =>
    if is_space c then
      if in_run then sub_spaces true s' else SPACE :: sub_spaces true s'
    else c :: sub_spaces false s'
  end.

Definition clean_text (text : str) : str := sub_spaces false (strip text).

(** [s.split()]: the maximal runs of characters that are not whitespace.
    [word] is the run being read. *)
Fixpoint split_from (word : str) (s : str) : list str :=
  match s with
  | [] => match word with [] => [] | _ => [word] end
  | c :: s' =>
    if is_space c then
      match word with
      | [] => split_from [] s'
      | _ => word :: split_from [] s'
      end
    else split_from (word ++ [c]) s'
  end.

Definition str_split (s : str) : list str := split_from [] s.

End TextCleaning.

Record paragraph := {
  p_text : str;
  p_bold : option str
}.

(** An entry document: the dict with the keys [id], [term], [definition],
    [expanded_context], [full_context], [source]. *)
Record entry := {
  e_id : str;
  e_term : str;
  e_definition : str;
  e_expanded_context : str;
  e_full_context : str;
  e_source : str
}.

Definition PARAGRAPH_BREAK : str := [10%N; 10%N].
Definition UNKNOWN_TERM : str := Eval vm_compute in U "Unknown Term".

(** [str(n)] for a natural number: its decimal digits. *)
Definition decimal (n : nat) : str :=
  map N_of_ascii (list_ascii_of_string (pretty n)).

(** [f"{source_hash}_{entry_id}"] *)
Definition document_id (source_hash : str) (entry_id : nat) : str :=
  source_hash ++ [95%N] ++ decimal entry_id.

Section HtmlProcessor.
Context `{Whitespace}.

(** [hashlib.md5(s.encode('utf-8')).hexdigest()] *)
Variable md5_hexdigest : str -> str.

(** The headword of a paragraph whose cleaned text is [text]: the text of
    the bold element, or else the first words of [text], cut at the first
    full stop.  [None] is Python's [None]. *)
Definition find_term (p : paragraph) (text : str) : option str :=
  let term :=
    match p_bold p with
    | Some bold_text => Some (clean_text bold_text)
    | None => None
    end in
  if match term with
     | None => true
     | Some t => bool_decide (t = []) || (length t <? 1)
     end
  then
    let words := str_split text in
    match words with
    | [] => term
    | _ =>
      let term_end := min 3 (length words) in
      let term := str_join [SPACE] (take term_end words) in
      if is_substring [FULL_STOP] term
      then Some (strip (before_first FULL_STOP term))
      else Some term
    end
  else term.

(** The two context windows of the paragraph [text]: the paragraphs
    around its first occurrence in [all_paragraph_texts], or [text] itself
    when [index] raises [ValueError]. *)
Definition find_contexts (all_paragraph_texts : list str) (text : str)
    : str * str :=
  match list_index text all_paragraph_texts with
  | Some current_idx =>
    let context_start := Z.to_nat (Z.max 0 (Z.of_nat current_idx - 2)) in
    let context_end := min (length all_paragraph_texts) (current_idx + 3) in
    let expanded_context :=
      str_join PARAGRAPH_BREAK
        (py_slice context_start context_end all_paragraph_texts) in
    let full_context_start :=
      Z.to_nat (Z.max 0 (Z.of_nat current_idx - 5)) in
    let full_context_end :=
      min (length all_paragraph_texts) (current_idx + 6) in
    let full_context :=
      str_join PARAGRAPH_BREAK
        (py_slice full_context_start full_context_end all_paragraph_texts) in
    (expanded_context, full_context)
  | None => (text, text)
  end.

(** [term or "Unknown Term"] *)
Definition term_or_unknown (term : option str) : str :=
  match term with
  | Some (c :: t) => c :: t
  | _ => UNKNOWN_TERM
  end.

(** The [for idx, p in enumerate(paragraphs)] loop. *)
Fixpoint entries_loop (source_file source_hash : str)
    (all_paragraph_texts : list str) (paragraphs : list paragraph)
    (entry_id : nat) (entries : list entry) : list entry :=
  match paragraphs with
  | [] => entries
  | p :: rest =>
    if bool_decide (strip (p_text p) = []) then
      entries_loop source_file source_hash all_paragraph_texts rest
        entry_id entries                                    (* continue *)
    else
      let text := clean_text (p_text p) in
      if length text <? 10 then
        entries_loop source_file source_hash all_paragraph_texts rest
          entry_id entries                                  (* continue *)
      else
        let term := find_term p text in
        let '(expanded_context, full_context) :=
          find_contexts all_paragraph_texts text in
        let entry :=
          {| e_id := document_id source_hash entry_id;
             e_term := term_or_unknown term;
             e_definition := text;
             e_expanded_context := expanded_context;
             e_full_context := full_context;
             e_source := source_file |} in
        entries_loop source_file source_hash all_paragraph_texts rest
          (entry_id + 1) (entries ++ [entry])
  end.

(** [[clean_text(p.text) for p in paragraphs
      if p.text.strip() and len(p.text.strip()) >= 10]] *)
Definition all_paragraph_texts (paragraphs : list paragraph) : list str :=
  map (fun p => clean_text (p_text p))
    (filter (fun p => strip (p_text p) <> []
                      /\ 10 <= length (strip (p_text p))) paragraphs).

(** [extract_entries_from_html], on the parsed document. *)
Definition extract_entries_from_html (paragraphs : list paragraph)
    (source_file : str) : list entry :=
  let source_hash := take 8 (md5_hexdigest source_file) in
  entries_loop source_file source_hash (all_paragraph_texts paragraphs)
    paragraphs 1 [].

End HtmlProcessor.

(** ** app/indexer/index_dictionaries.py: the batches of one file *)

Definition BATCH_SIZE : nat := 1000.

(** [range(0, n, step)] for a positive [step] *)
Definition py_range_step (n step : nat) : list nat :=
  map (fun k => k * step) (seq 0 ((n + step - 1) / step)).

(** The arguments of the calls [index.add_documents(batch)] made for the
    entries of one file, in order; none when there is no entry. *)
Definition index_batches {A} (entries : list A) : list (list A) :=
  match entries with
  | [] => []                                                (* continue *)
  | _ =>
    map (fun i => py_slice i (i + BATCH_SIZE) entries)
      (py_range_step (length entries) BATCH_SIZE)
  end.

Section TextNotions.
Context `{Whitespace}.

(** A word: not empty, without whitespace. *)
Definition word (w : str) : Prop :=
  w <> [] /\ Forall (fun c => is_space c = false) w.

(** The paragraphs that become entries. *)
Definition entry_paragraphs (paragraphs : list paragraph) : list paragraph :=
  filter (fun p => 10 <= length (clean_text (p_text p))) paragraphs.

(** The entry that one iteration of the loop appends. *)
Definition entry_of (source_file source_hash : str)
    (all_paragraph_texts : list str) (entry_id : nat) (p : paragraph)
    : entry :=
  let text := clean_text (p_text p) in
  {| e_id := document_id source_hash entry_id;
     e_term := term_or_unknown (find_term p text);
     e_definition := text;
     e_expanded_context := fst (find_contexts all_paragraph_texts text);
     e_full_context := snd (find_contexts all_paragraph_texts text);
     e_source := source_file |}.

(** A headword that was not taken from a bold element: the placeholder,
    or the beginning of the definition, without a full stop. *)
Definition fallback_term (e : entry) : Prop :=
  e_term e = UNKNOWN_TERM \/
  (e_term e `prefix_of` e_definition e /\ FULL_STOP ∉ e_term e).

(** The headword of the entry [e] made from the paragraph [p]: never
    empty; the cleaned text of the bold element when that is not empty. *)
Definition term_found (p : paragraph) (e : entry) : Prop :=
  e_term e <> [] /\
  match p_bold p with
  | Some bold_text =>
    if decide (clean_text bold_text = []) then fallback_term e
    else e_term e = clean_text bold_text
  | None => fallback_term e
  end.

End TextNotions.

(** The contexts of an entry were cut around the first occurrence, at
    index [i], of its definition in [all_paragraph_texts]: the two
    paragraphs before and after it for the expanded context, the five
    before and after it for the full context, as far as they exist. *)
Definition context_found (all_paragraph_texts : list str) (e : entry)
    : Prop :=
  exists i,
    all_paragraph_texts !! i = Some (e_definition e) /\
    (forall j, j < i -> all_paragraph_texts !! j <> Some (e_definition e)) /\
    e_expanded_context e
      = str_join PARAGRAPH_BREAK
          (py_slice (i - 2) (min (length all_paragraph_texts) (i + 3))
             all_paragraph_texts) /\
    e_full_context e
      = str_join PARAGRAPH_BREAK
          (py_slice (i - 5) (min (length all_paragraph_texts) (i + 6))
             all_paragraph_texts) /\
    (exists pre post,
       e_expanded_context e = pre ++ e_definition e ++ post) /\
    (exists pre post,
       e_full_context e = pre ++ e_expanded_context e ++ post).

(** ** Sample documents, for evaluating the indexer *)

Definition sample_paragraphs : list paragraph :=
  [ {| p_text := U "  tærqūs   n.  hare  (animal) ";
       p_bold := Some (U " tærqūs ") |};
    {| p_text := U "short"; p_bold := None |};
    {| p_text := U "see also. the entry bæx"; p_bold := None |} ].

(** A stand-in for the digest, which no property depends on. *)
Definition sample_digest : str -> str :=
  fun _ => U "d41d8cd98f00b204e9800998ecf8427e".

(** ** Properties of the string operations *)

Section StringFacts.
Context `{UnicodeData}.

Lemma char_lower_unfold c :
  char_lower c =
  if (c =? CAPITAL_SIGMA)%N then [SMALL_SIGMA] else to_lower_full c.
Proof.
  unfold char_lower, str_lower. simpl.
  destruct (c =? CAPITAL_SIGMA)%N; [reflexivity | apply app_nil_r].
Qed.

Lemma lower_from_elem before s c' :
  c' ∈ lower_from before s ->
  exists c, c ∈ s /\ (c' ∈ char_lower c \/ c' = FINAL_SIGMA).
Proof.
  revert before. induction s as [| c s IH]; intros before Hin; simpl in Hin.
  - by apply elem_of_nil in Hin.
  - apply elem_of_app in Hin as [Hin | Hin].
    + exists c. split; [left |].
      rewrite char_lower_unfold.
      destruct (c =? CAPITAL_SIGMA)%N; [| by left].
      apply list_elem_of_singleton in Hin.
      destruct (final_sigma before s); subst; [by right | left; by left].
    + destruct (IH _ Hin) as (d & Hd & Hc). exists d. split; [by right | done].
Qed.

Lemma str_lower_elem s c' :
  c' ∈ str_lower s ->
  exists c, c ∈ s /\ (c' ∈ char_lower c \/ c' = FINAL_SIGMA).
Proof. apply lower_from_elem. Qed.

Lemma lower_from_keeps before s c :
  c ∈ s -> to_lower_full c = [c] -> c <> CAPITAL_SIGMA ->
  c ∈ lower_from before s.
Proof.
  intros Hin Hlow Hne. revert before.
  induction s as [| d s IH]; intros before; [by apply elem_of_nil in Hin |].
  simpl. apply elem_of_app.
  apply elem_of_cons in Hin as [-> | Hin].
  - left. apply N.eqb_neq in Hne. rewrite Hne, Hlow. by left.
  - right. by apply IH.
Qed.

Lemma slice_length text i j :
  j <= length text -> i <= j -> length (slice text i j) = j - i.
Proof.
  intros. unfold slice. rewrite length_take, length_drop. lia.
Qed.

Lemma slice_take_drop text i k : slice text i (i + k) = take k (drop i text).
Proof. unfold slice. f_equal. lia. Qed.

End StringFacts.

(** ** Properties of the transliterator *)

Section ScanFacts.
Context `{UnicodeData}.
Implicit Types (D : dict str) (text rest result : str).

Lemma dict_in_true {V} (k : str) (d : dict V) :
  dict_in k d = true <-> exists v, dict_lookup k d = Some v.
Proof.
  unfold dict_in. destruct (dict_lookup k d) as [v |]; split.
  - intros _. by exists v.
  - done.
  - discriminate.
  - intros [v Hv]. discriminate.
Qed.

Lemma dict_in_false {V} (k : str) (d : dict V) :
  dict_in k d = false <-> dict_lookup k d = None.
Proof. unfold dict_in. destruct (dict_lookup k d); split; congruence. Qed.

Lemma dict_get_lookup D k v : dict_lookup k D = Some v -> dict_get D k = v.
Proof. unfold dict_get. by intros ->. Qed.

Lemma dict_lookup_key {V} (k : str) (d : dict V) v :
  dict_lookup k d = Some v -> k ∈ map fst d.
Proof.
  induction d as [| [k' v'] d IH]; simpl; [discriminate |].
  case_bool_decide; intros Hl.
  - subst. by left.
  - right. by apply IH.
Qed.

(** The accumulator [result] is only ever extended. *)
Lemma scan_body_acc D text ti i result :
  scan_body D text ti i result =
  (fst (scan_body D text ti i []), result ++ snd (scan_body D text ti i [])).
Proof.
  unfold scan_body.
  repeat match goal with
         | |- context [if ?b then _ else _] => destruct b
         end; simpl; reflexivity.
Qed.

(** Every iteration moves forward, by at most three characters, and stays
    within the text. *)
Lemma scan_body_advance D text ti i result :
  text !! i = Some ti ->
  i < fst (scan_body D text ti i result) <= length text.
Proof.
  intros Hi. apply lookup_lt_Some in Hi. unfold scan_body.
  destruct (i <? length text - 2) eqn:E3;
    [apply Nat.ltb_lt in E3 | apply Nat.ltb_ge in E3];
    (destruct (i <? length text - 1) eqn:E2;
       [apply Nat.ltb_lt in E2 | apply Nat.ltb_ge in E2]);
    simpl;
    repeat match goal with
           | |- context [if ?b then _ else _] => destruct b
           end; simpl; lia.
Qed.

(** One iteration of the loop is one step of the tokenisation on the text
    from [i] on. *)
Lemma scan_body_step D text ti i :
  text !! i = Some ti ->
  token_step D (drop i text)
    (slice text i (fst (scan_body D text ti i [])))
    (snd (scan_body D text ti i [])).
Proof.
  intros Hi. pose proof (lookup_lt_Some _ _ _ Hi) as Hlt.
  assert (Hlen : length (drop i text) = length text - i)
    by apply length_drop.
  assert (Hhead : head (drop i text) = Some ti).
  { rewrite head_lookup, lookup_drop, Nat.add_0_r. exact Hi. }
  assert (Hone : take 1 (drop i text) = [ti]).
  { destruct (drop i text) as [| c r]; simplify_eq/=. reflexivity. }
  unfold scan_body. rewrite !slice_take_drop.
  destruct ((i <? length text - 2)
            && dict_in (str_lower (take 3 (drop i text))) D) eqn:E3.
  { apply andb_true_iff in E3 as [E3 Hin]. apply Nat.ltb_lt in E3.
    apply dict_in_true in Hin as [v Hv]. simpl.
    rewrite slice_take_drop, (dict_get_lookup _ _ _ Hv).
    apply step_three; [lia | exact Hv]. }
  assert (N3 : 3 <= length (drop i text) ->
               dict_lookup (str_lower (take 3 (drop i text))) D = None).
  { intros Hge. apply dict_in_false.
    apply andb_false_iff in E3 as [E3 | E3]; [| exact E3].
    apply Nat.ltb_ge in E3. lia. }
  destruct ((i <? length text - 1)
            && dict_in (str_lower (take 2 (drop i text))) D) eqn:E2.
  { apply andb_true_iff in E2 as [E2 Hin]. apply Nat.ltb_lt in E2.
    apply dict_in_true in Hin as [v Hv]. simpl.
    rewrite slice_take_drop, (dict_get_lookup _ _ _ Hv).
    apply step_two; [exact N3 | lia | exact Hv]. }
  assert (N2 : 2 <= length (drop i text) ->
               dict_lookup (str_lower (take 2 (drop i text))) D = None).
  { intros Hge. apply dict_in_false.
    apply andb_false_iff in E2 as [E2 | E2]; [| exact E2].
    apply Nat.ltb_ge in E2. lia. }
  destruct (dict_in (str_lower [ti]) D) eqn:E1.
  - apply dict_in_true in E1 as [v Hv].
    rewrite (dict_get_lookup _ _ _ Hv).
    destruct (is_uppercase ti) eqn:Eu; simpl;
      rewrite slice_take_drop, Hone;
      pose proof (step_one D (drop i text) ti v N3 N2 Hhead Hv) as Hs;
      rewrite Eu in Hs; exact Hs.
  - apply dict_in_false in E1. simpl. rewrite slice_take_drop, Hone.
    by apply step_copy.
Qed.

(** The loop in terms of its trace. *)
Lemma scan_loop_tokens D text fuel i result :
  scan_loop D text fuel i result =
  result ++ concat (map snd (tokens_loop D text fuel i)).
Proof.
  revert i result. induction fuel as [| fuel IH]; intros i result; simpl.
  - by rewrite app_nil_r.
  - destruct (text !! i) as [ti |]; simpl; [| by rewrite app_nil_r].
    rewrite (scan_body_acc D text ti i result).
    destruct (scan_body D text ti i []) as [i' out]. simpl.
    rewrite IH. by rewrite app_assoc.
Qed.

Lemma tokens_loop_greedy D text fuel i :
  length text - i <= fuel ->
  greedy D (drop i text) (tokens_loop D text fuel i).
Proof.
  revert i. induction fuel as [| fuel IH]; intros i Hfuel; simpl.
  - rewrite drop_ge by lia. constructor.
  - destruct (text !! i) as [ti |] eqn:Hi.
    + pose proof (scan_body_advance D text ti i [] Hi) as Hadv.
      pose proof (scan_body_step D text ti i Hi) as Hstep.
      destruct (scan_body D text ti i []) as [i' out]. simpl in *.
      constructor; [exact Hstep |].
      rewrite slice_length by lia. rewrite drop_drop.
      replace (i + (i' - i)) with i' by lia.
      apply IH. lia.
    + apply lookup_ge_None in Hi. rewrite drop_ge by lia. constructor.
Qed.

Lemma tokens_greedy D text : greedy D text (tokens D text).
Proof.
  unfold tokens. rewrite <- (drop_0 text) at 1.
  apply tokens_loop_greedy. lia.
Qed.

Lemma scan_tokens D text : scan D text = concat (map snd (tokens D text)).
Proof. unfold scan, tokens. by rewrite scan_loop_tokens. Qed.

(** The slices of a tokenisation are the text, cut into pieces. *)
Lemma greedy_slices D rest toks :
  greedy D rest toks -> concat (map fst toks) = rest.
Proof.
  induction 1 as [| rest slice out toks Hstep _ IH]; [reflexivity |].
  simpl. rewrite IH.
  assert (Hs : exists k, slice = take k rest /\ k <= length rest).
  { inversion Hstep; subst.
    - exists 3. split; [done | lia].
    - exists 2. split; [done | lia].
    - exists 1. destruct rest; simplify_eq/=. split; [done | lia].
    - exists 1. destruct rest; simplify_eq/=. split; [done | lia]. }
  destruct Hs as (k & -> & Hk).
  rewrite length_take, Nat.min_l by lia. apply take_drop.
Qed.

(** The step is a function of the text left to read. *)
Lemma token_step_functional D rest s1 o1 s2 o2 :
  token_step D rest s1 o1 -> token_step D rest s2 o2 -> s1 = s2 /\ o1 = o2.
Proof.
  intros H1 H2.
  inversion H1; subst; inversion H2; subst;
    repeat match goal with
           | Hn : ?n <= length rest -> _ = None, Hl : ?n <= length rest |- _ =>
             specialize (Hn Hl)
           end;
    try congruence; simplify_eq; try done.
Qed.

Lemma greedy_functional D rest toks1 toks2 :
  greedy D rest toks1 -> greedy D rest toks2 -> toks1 = toks2.
Proof.
  intros H1. revert toks2.
  induction H1 as [| rest slice out toks Hstep _ IH]; intros toks2 H2.
  - inversion H2 as [| ? ? ? ? Hs]; [done |]. subst.
    inversion Hs; subst; simpl in *; try lia; discriminate.
  - inversion H2 as [| ? s2 o2 t2 Hs2 Hg2]; subst.
    + inversion Hstep; subst; simpl in *; try lia; discriminate.
    + destruct (token_step_functional _ _ _ _ _ _ Hstep Hs2) as [-> ->].
      f_equal. by apply IH.
Qed.

(** The loop terminates: run from any state, it exits with the value the
    fuelled loop computes, provided the fuel covers the text left. *)
Lemma scan_loop_run D text fuel i result :
  length text - i <= fuel ->
  while_run D text i result (scan_loop D text fuel i result).
Proof.
  revert i result. induction fuel as [| fuel IH]; intros i result Hfuel.
  - simpl. apply while_exit. apply lookup_ge_None. lia.
  - simpl. destruct (text !! i) as [ti |] eqn:Hi.
    + pose proof (scan_body_advance D text ti i result Hi) as Hadv.
      destruct (scan_body D text ti i result) as [i' result'] eqn:Hb.
      simpl in Hadv.
      eapply while_iter; [exact Hi | exact Hb |]. apply IH. lia.
    + by apply while_exit.
Qed.

Lemma scan_terminates D text : while_run D text 0 [] (scan D text).
Proof. apply scan_loop_run. lia. Qed.

Lemma while_run_functional D text i result final1 final2 :
  while_run D text i result final1 ->
  while_run D text i result final2 -> final1 = final2.
Proof.
  intros H1. revert final2.
  induction H1 as [i result Hi | i ti result i' result' final Hi Hb _ IH];
    intros final2 H2; inversion H2; subst; try congruence.
  apply IH. congruence.
Qed.

End ScanFacts.

Section TokenFacts.
Context `{UnicodeData}.
Implicit Types (D : dict str) (text rest : str).

(** Every token of a tokenisation is a step taken on some suffix. *)
Lemma greedy_split D rest before tok after :
  greedy D rest (before ++ tok :: after) ->
  token_step D (drop (length (concat (map fst before))) rest)
    (fst tok) (snd tok).
Proof.
  revert rest. induction before as [| [s o] before IH]; intros rest Hg.
  - simpl in *. inversion Hg; subst. by rewrite drop_0.
  - simpl in Hg. inversion Hg as [| ? ? ? ? Hstep Hrest]; subst.
    apply IH in Hrest. simpl. rewrite length_app, <- drop_drop. exact Hrest.
Qed.

Lemma greedy_elem D rest tok toks :
  greedy D rest toks -> tok ∈ toks ->
  exists rest', token_step D rest' (fst tok) (snd tok).
Proof.
  intros Hg Hin. apply list_elem_of_split in Hin as (before & after & ->).
  eexists. eapply greedy_split. exact Hg.
Qed.

Lemma token_step_single D rest c out v :
  token_step D rest [c] out ->
  dict_lookup (str_lower [c]) D = Some v ->
  out = if is_uppercase c then str_upper v else v.
Proof.
  intros Hstep Hv.
  assert (Hlen : forall k, k <= length rest -> length (take k rest) = k).
  { intros k Hk. rewrite length_take. lia. }
  remember [c] as s eqn:Es.
  destruct Hstep as [v' H3 _ | v' _ H2 _ | c' v' _ _ _ Hl | c' _ _ _ Hl].
  - apply Hlen in H3. rewrite Es in H3. discriminate.
  - apply Hlen in H2. rewrite Es in H2. discriminate.
  - injection Es as ->. rewrite Hv in Hl. by injection Hl as ->.
  - injection Es as ->. rewrite Hv in Hl. discriminate.
Qed.

End TokenFacts.

(** ** The transliterator: the properties *)

(** C3.  For a word outside the special-case lexicon both functions run the
    same scan over their table: the loop terminates, its trace is a
    left-to-right tokenisation of the word without backtracking (at each
    position the 3-character lower-cased slice is looked up first, then the
    2-character one, then the single character, and a character without a
    mapping is copied), and the value returned is the concatenation of the
    outputs in order.  In particular, wherever the scan stands at three
    characters whose lower-casing is a key of the table, these three are
    consumed as one token and the table value is emitted for them. *)
Theorem longest_match_first `{UnicodeData} (text : str) :
  dict_in (str_lower text) SPECIAL_CASE_MAPPING = false ->
  latin_to_cyrillic text
    = PStr (concat (map snd (tokens LATIN_TO_CYRILLIC text))) /\
  cyrillic_to_latin text
    = concat (map snd (tokens CYRILLIC_TO_LATIN text)) /\
  forall D, D = LATIN_TO_CYRILLIC \/ D = CYRILLIC_TO_LATIN ->
    while_run D text 0 [] (concat (map snd (tokens D text))) /\
    greedy D text (tokens D text) /\
    concat (map fst (tokens D text)) = text /\
    forall before slice out after v,
      tokens D text = before ++ (slice, out) :: after ->
      let rest := drop (length (concat (map fst before))) text in
      3 <= length rest ->
      dict_lookup (str_lower (take 3 rest)) D = Some v ->
      slice = take 3 rest /\ out = v.
Proof.
  intros Hspecial. split; [| split].
  - unfold latin_to_cyrillic. by rewrite Hspecial, scan_tokens.
  - unfold cyrillic_to_latin. by rewrite Hspecial, scan_tokens.
  - intros D _. split; [| split; [| split]].
    + rewrite <- scan_tokens. apply scan_terminates.
    + apply tokens_greedy.
    + eapply greedy_slices, tokens_greedy.
    + intros before slice out after v Htoks rest Hlen Hv.
      pose proof (tokens_greedy D text) as Hg. rewrite Htoks in Hg.
      apply greedy_split in Hg. simpl in Hg. fold rest in Hg.
      pose proof (step_three D rest v Hlen Hv) as Hthree.
      exact (token_step_functional _ _ _ _ _ _ Hg Hthree).
Qed.

Lemma longest_match_first_witness :
  @dict_in pyobj (@str_lower Fragment.unicode (U "хъуыд"))
     SPECIAL_CASE_MAPPING = false /\
  @cyrillic_to_latin Fragment.unicode (U "хъуыд")
    = concat (map snd (@tokens Fragment.unicode CYRILLIC_TO_LATIN (U "хъуыд"))).
Proof.
  assert (Hs : @dict_in pyobj (@str_lower Fragment.unicode (U "хъуыд"))
                 SPECIAL_CASE_MAPPING = false) by (vm_compute; reflexivity).
  split; [exact Hs |].
  exact (proj1 (proj2 (@longest_match_first Fragment.unicode _ Hs))).
Defined.

(** C2, as the code has it.  A token of one character that is mapped
    through the table is emitted as the table value when the character is
    not upper case, and as the table value upper-cased as a whole
    ([str.upper]) when it is. *)
Theorem single_character_case `{UnicodeData} (D : dict str) (text : str)
    (c : char) (out v : str) :
  ([c], out) ∈ tokens D text ->
  dict_lookup (str_lower [c]) D = Some v ->
  out = if is_uppercase c then str_upper v else v.
Proof.
  intros Hin Hv.
  destruct (greedy_elem D text _ _ (tokens_greedy D text) Hin) as [rest Hstep].
  simpl in Hstep. by eapply token_step_single.
Qed.

Lemma single_character_case_witness :
  ([81%N], U "ХЪ") ∈ @tokens Fragment.unicode LATIN_TO_CYRILLIC (U "Q") /\
  dict_lookup (@str_lower Fragment.unicode [81%N]) LATIN_TO_CYRILLIC
    = Some (U "хъ") /\
  U "ХЪ" = (if @is_uppercase Fragment.unicode 81%N
            then @str_upper Fragment.unicode (U "хъ") else U "хъ").
Proof.
  assert (Hin : ([81%N], U "ХЪ")
                  ∈ @tokens Fragment.unicode LATIN_TO_CYRILLIC (U "Q"))
    by (vm_compute; left).
  assert (Hv : dict_lookup (@str_lower Fragment.unicode [81%N])
                 LATIN_TO_CYRILLIC = Some (U "хъ"))
    by (vm_compute; reflexivity).
  split; [exact Hin | split; [exact Hv |]].
  exact (@single_character_case Fragment.unicode _ _ _ _ _ Hin Hv).
Defined.

(** C2, as stated, fails.  The Latin word "Q" is one token, mapped through
    the table entry q -> хъ; the function returns "ХЪ", whose second
    character is not the one of the table value.  Likewise the Cyrillic
    word "Я" (table entry я -> ja) gives "JA". *)
Lemma case_preservation_counterexample :
  @latin_to_cyrillic Fragment.unicode (U "Q") = PStr (U "ХЪ") /\
  @cyrillic_to_latin Fragment.unicode (U "Я") = U "JA" /\
  ~ @preserves_first_char_case Fragment.unicode LATIN_TO_CYRILLIC (U "Q") /\
  ~ @preserves_first_char_case Fragment.unicode CYRILLIC_TO_LATIN (U "Я").
Proof.
  split; [vm_compute; reflexivity |].
  split; [vm_compute; reflexivity |].
  split.
  - intros Hclaim.
    specialize (Hclaim (U "Q") (U "ХЪ") (U "хъ")).
    assert (Hin : (U "Q", U "ХЪ")
                    ∈ @tokens Fragment.unicode LATIN_TO_CYRILLIC (U "Q"))
      by (vm_compute; left).
    specialize (Hclaim Hin eq_refl).
    vm_compute in Hclaim. destruct Hclaim as (u & Heq & _). discriminate.
  - intros Hclaim.
    specialize (Hclaim (U "Я") (U "JA") (U "ja")).
    assert (Hin : (U "Я", U "JA")
                    ∈ @tokens Fragment.unicode CYRILLIC_TO_LATIN (U "Я"))
      by (vm_compute; left).
    specialize (Hclaim Hin eq_refl).
    vm_compute in Hclaim. destruct Hclaim as (u & Heq & _). discriminate.
Qed.

(** The special-case lexicon has one list value, under [LIST_KEY]. *)
Lemma special_lookup_cases (k : str) v :
  dict_lookup k SPECIAL_CASE_MAPPING = Some v ->
  (k = LIST_KEY /\ v = PList LIST_VALUE)
  \/ (k <> LIST_KEY /\ exists s, v = PStr s).
Proof.
  unfold SPECIAL_CASE_MAPPING. simpl.
  repeat case_bool_decide; intros Hv; simplify_eq;
    first [ left; split; reflexivity
          | right; split; [discriminate | eexists; reflexivity] ].
Qed.

Lemma special_lookup_list_key :
  dict_lookup LIST_KEY SPECIAL_CASE_MAPPING = Some (PList LIST_VALUE).
Proof. vm_compute. reflexivity. Qed.

(** The two kinds of value [latin_to_cyrillic] returns. *)
Lemma latin_to_cyrillic_cases `{UnicodeData} (text : str) :
  if bool_decide (str_lower text = LIST_KEY)
  then latin_to_cyrillic text = PList LIST_VALUE
  else exists s, latin_to_cyrillic text = PStr s.
Proof.
  unfold latin_to_cyrillic. case_bool_decide as Hkey.
  - rewrite Hkey. unfold dict_in.
    by rewrite special_lookup_list_key.
  - unfold dict_in.
    destruct (dict_lookup (str_lower text) SPECIAL_CASE_MAPPING) as [v |] eqn:Hv.
    + apply special_lookup_cases in Hv as [[Hk _] | [_ [s ->]]]; [done |].
      by exists s.
    + eexists. reflexivity.
Qed.

(** C10.  [latin_to_cyrillic] returns the list of the lexicon, not a
    string, exactly on the inputs whose lower-casing is the key "тæрхъус"
    (such inputs exist: the key itself is one); on every other input it
    returns a string. *)
Theorem latin_to_cyrillic_list_value :
  @latin_to_cyrillic Fragment.unicode LIST_KEY = PList LIST_VALUE /\
  forall (unicode : UnicodeData) (text : str),
    if bool_decide (str_lower text = LIST_KEY)
    then latin_to_cyrillic text = PList LIST_VALUE
    else exists s, latin_to_cyrillic text = PStr s.
Proof.
  split; [vm_compute; reflexivity |].
  intros unicode text. apply latin_to_cyrillic_cases.
Qed.

(** ** The variant expander: the properties *)

Section VariantFacts.
Context `{UnicodeData}.

Lemma cyrillic_to_latin_general text :
  dict_in (str_lower text) SPECIAL_CASE_MAPPING = false ->
  cyrillic_to_latin text = scan CYRILLIC_TO_LATIN text.
Proof. intros Hs. unfold cyrillic_to_latin. by rewrite Hs. Qed.

Lemma latin_to_cyrillic_general text :
  dict_in (str_lower text) SPECIAL_CASE_MAPPING = false ->
  latin_to_cyrillic text = PStr (scan LATIN_TO_CYRILLIC text).
Proof. intros Hs. unfold latin_to_cyrillic. by rewrite Hs. Qed.

Lemma has_cyrillic_true text c :
  c ∈ str_lower text -> dict_in [c] CYRILLIC_TO_LATIN = true ->
  has_cyrillic text = true.
Proof.
  intros Hin Hkey. unfold has_cyrillic. apply existsb_exists.
  exists c. split; [by apply list_elem_of_In | exact Hkey].
Qed.

End VariantFacts.

(** The dict literals have no key twice: looking a key up from the left
    finds the value Python's dict holds for it. *)
Lemma tables_distinct_keys :
  NoDup (map fst LATIN_TO_CYRILLIC) /\
  NoDup (map fst CYRILLIC_TO_LATIN) /\
  NoDup (map fst SPECIAL_CASE_MAPPING) /\
  NoDup (map fst COMMON_VARIANTS).
Proof.
  repeat apply conj; apply (bool_decide_unpack _); vm_compute; reflexivity.
Qed.

(** X3: variant generation never fails and keeps the word: the only input on
    which [latin_to_cyrillic] gives a list is classified as Cyrillic, so
    that the list never reaches [set.add]. *)
Lemma get_all_script_variants_total `{UnicodeData} (text : str) :
  exists variants,
    get_all_script_variants text = Ok variants /\ text ∈ variants.
Proof.
  unfold get_all_script_variants.
  assert (Hseed : exists seed : gset str,
            (if dict_in (str_lower text) SPECIAL_CASE_MAPPING then
               match dict_lookup (str_lower text) SPECIAL_CASE_MAPPING with
               | Some (PList special_variants) =>
                 Ok ({[ text ]} ∪ list_to_set special_variants)
               | Some (PStr special_variants) =>
                 Ok ({[ text ]} ∪ {[ special_variants ]})
               | None => Ok {[ text ]}
               end
             else Ok ({[ text ]} : gset str)) = Ok seed /\ text ∈ seed).
  { destruct (dict_in _ _); [| eexists; split; [done |];
                                 by apply elem_of_singleton].
    destruct (dict_lookup _ _) as [[s | l] |];
      eexists; (split; [reflexivity |]);
      rewrite ?elem_of_union, elem_of_singleton; auto. }
  destruct Hseed as (seed & -> & Hseed). simpl.
  destruct (has_cyrillic text) eqn:Hcyr.
  - eexists. split; [reflexivity |].
    rewrite !elem_of_union. auto.
  - pose proof (latin_to_cyrillic_cases text) as Hl2c.
    case_bool_decide as Hkey.
    + exfalso. unfold has_cyrillic in Hcyr. rewrite Hkey in Hcyr.
      vm_compute in Hcyr. discriminate.
    + destruct Hl2c as [s ->]. simpl. eexists. split; [reflexivity |].
      rewrite !elem_of_union. auto.
Qed.

(** C1, as the code has it.  A word that contains the letter ae and whose
    lower-casing is not a key of the special-case lexicon is classified as
    Cyrillic: the variants returned are exactly the word, its
    [cyrillic_to_latin] image (the general scan over the Cyrillic table)
    and the spelling variants of that image; [latin_to_cyrillic] has no
    part in them, so the Cyrillic transliteration of the word is among
    them only when it is one of these.  The first hypothesis is a fact of
    the Unicode database: ae is its own lower case. *)
Theorem ae_word_is_cyrillic `{UnicodeData} (text : str) :
  to_lower_full AE = [AE] ->
  AE ∈ text ->
  dict_in (str_lower text) SPECIAL_CASE_MAPPING = false ->
  has_cyrillic text = true /\
  cyrillic_to_latin text = scan CYRILLIC_TO_LATIN text /\
  get_all_script_variants text
    = Ok ({[ text ]} ∪ {[ cyrillic_to_latin text ]}
          ∪ generate_variants (cyrillic_to_latin text)).
Proof.
  intros Hlow Hin Hspecial.
  assert (Hcyr : has_cyrillic text = true).
  { apply (has_cyrillic_true text AE); [| vm_compute; reflexivity].
    apply lower_from_keeps; [exact Hin | exact Hlow | discriminate]. }
  split; [exact Hcyr |].
  split; [by apply cyrillic_to_latin_general |].
  unfold get_all_script_variants. rewrite Hspecial. simpl.
  by rewrite Hcyr.
Qed.

Lemma ae_word_is_cyrillic_witness :
  @to_lower_full Fragment.unicode AE = [AE] /\
  AE ∈ U "bæx" /\
  @dict_in pyobj (@str_lower Fragment.unicode (U "bæx"))
    SPECIAL_CASE_MAPPING = false /\
  @get_all_script_variants Fragment.unicode (U "bæx")
    = Ok ({[ U "bæx" ]} ∪ {[ @cyrillic_to_latin Fragment.unicode (U "bæx") ]}
          ∪ @generate_variants Fragment.unicode
              (@cyrillic_to_latin Fragment.unicode (U "bæx"))).
Proof.
  assert (H1 : @to_lower_full Fragment.unicode AE = [AE])
    by (vm_compute; reflexivity).
  assert (H2 : AE ∈ U "bæx") by (vm_compute; right; left).
  assert (H3 : @dict_in pyobj (@str_lower Fragment.unicode (U "bæx"))
                 SPECIAL_CASE_MAPPING = false) by (vm_compute; reflexivity).
  split; [exact H1 | split; [exact H2 | split; [exact H3 |]]].
  exact (proj2 (proj2 (@ae_word_is_cyrillic Fragment.unicode _ H1 H2 H3))).
Defined.

(** C1, as stated, fails.  The Latin word "æä" contains ae and is not in
    the special-case lexicon; its Cyrillic transliteration is "ææ", and
    "ææ" is among its variants: it is the spelling variant of its
    [cyrillic_to_latin] image "æä" that replaces the second letter. *)
Lemma ae_variant_is_transliteration :
  AE ∈ U "æä" /\
  @dict_in pyobj (@str_lower Fragment.unicode (U "æä"))
    SPECIAL_CASE_MAPPING = false /\
  @latin_to_cyrillic Fragment.unicode (U "æä") = PStr (U "ææ") /\
  @cyrillic_to_latin Fragment.unicode (U "æä") = U "æä" /\
  @get_all_script_variants Fragment.unicode (U "æä")
    = Ok {[ U "æä"; U "ää"; U "aä"; U "eä"; U "ææ"; U "æa"; U "æe" ]} /\
  U "ææ" ∈ ({[ U "æä"; U "ää"; U "aä"; U "eä"; U "ææ"; U "æa"; U "æe" ]}
            : gset str).
Proof.
  split; [vm_compute; left |].
  split; [vm_compute; reflexivity |].
  split; [vm_compute; reflexivity |].
  split; [vm_compute; reflexivity |].
  split; [vm_compute; reflexivity |].
  apply (bool_decide_unpack _). vm_compute. reflexivity.
Qed.

(** The keys of the four tables are not empty and are written with
    characters of the two mapping tables only. *)
Lemma keys_are_table_keys :
  Forall table_key (map fst LATIN_TO_CYRILLIC) /\
  Forall table_key (map fst CYRILLIC_TO_LATIN) /\
  Forall table_key (map fst SPECIAL_CASE_MAPPING) /\
  Forall table_key (map fst COMMON_VARIANTS).
Proof.
  unfold table_key.
  repeat apply conj; apply (bool_decide_unpack _); vm_compute; reflexivity.
Qed.

Lemma final_sigma_not_table_char : FINAL_SIGMA ∉ table_chars.
Proof. apply (bool_decide_unpack _). vm_compute. reflexivity. Qed.

Section UnmappedWords.
Context `{UnicodeData}.

Lemma unmapped_lower_no_key {V} (d : dict V) (w s : str) :
  Forall table_key (map fst d) ->
  unmapped w -> s ⊆ w ->
  dict_lookup (str_lower s) d = None.
Proof.
  intros Hkeys Hw Hsub.
  destruct (dict_lookup (str_lower s) d) as [v |] eqn:Hv; [| reflexivity].
  exfalso. apply dict_lookup_key in Hv.
  rewrite Forall_forall in Hkeys.
  destruct (Hkeys _ Hv) as [Hne Hchars].
  destruct (str_lower s) as [| c' k] eqn:Hk; [done |].
  apply Forall_cons in Hchars as [Hc' _].
  assert (Hin : c' ∈ str_lower s) by (rewrite Hk; left).
  apply str_lower_elem in Hin as (c & Hc & [Hlow | ->]).
  - exact (Hw c c' (Hsub _ Hc) Hlow Hc').
  - exact (final_sigma_not_table_char Hc').
Qed.

Lemma unmapped_not_special w :
  unmapped w -> dict_in (str_lower w) SPECIAL_CASE_MAPPING = false.
Proof.
  intros Hw. apply dict_in_false.
  apply (unmapped_lower_no_key _ w w); [apply keys_are_table_keys | done..].
Qed.

Lemma unmapped_not_cyrillic w : unmapped w -> has_cyrillic w = false.
Proof.
  intros Hw. unfold has_cyrillic.
  apply not_true_is_false. intros Hex.
  apply existsb_exists in Hex as (c' & Hin & Hkey).
  apply list_elem_of_In in Hin.
  apply dict_in_true in Hkey as [v Hv]. apply dict_lookup_key in Hv.
  destruct keys_are_table_keys as (_ & Hkeys & _).
  rewrite Forall_forall in Hkeys.
  destruct (Hkeys _ Hv) as [_ Hchars].
  apply Forall_cons in Hchars as [Hc' _].
  apply str_lower_elem in Hin as (c & Hc & [Hlow | ->]).
  - exact (Hw c c' Hc Hlow Hc').
  - exact (final_sigma_not_table_char Hc').
Qed.

(** On text that has no key, every step copies one character. *)
Lemma greedy_copies D w rest toks :
  Forall table_key (map fst D) ->
  unmapped w -> rest ⊆ w ->
  greedy D rest toks -> concat (map snd toks) = rest.
Proof.
  intros Hkeys Hw Hsub Hg.
  induction Hg as [| rest slice out toks Hstep Hg IH]; [reflexivity |].
  assert (Hnone : forall s, s ⊆ rest -> dict_lookup (str_lower s) D = None).
  { intros s Hs. apply (unmapped_lower_no_key D w s Hkeys Hw).
    by transitivity rest. }
  assert (Htake : forall k, take k rest ⊆ rest).
  { intros k. apply subseteq_take. }
  destruct Hstep as [v H3 Hv | v _ H2 Hv | c v _ _ Hhead Hv | c _ _ Hhead _].
  - rewrite Hnone in Hv by apply Htake. discriminate.
  - rewrite Hnone in Hv by apply Htake. discriminate.
  - destruct rest as [| c0 rest]; simplify_eq/=.
    rewrite Hnone in Hv; [discriminate |].
    intros x Hx. apply list_elem_of_singleton in Hx as ->. by left.
  - destruct rest as [| c0 rest]; simplify_eq/=.
    f_equal. apply IH. intros x Hx. apply Hsub. by right.
Qed.

Lemma unmapped_scan D w :
  Forall table_key (map fst D) -> unmapped w -> scan D w = w.
Proof.
  intros Hkeys Hw. rewrite scan_tokens.
  by apply (greedy_copies D w w (tokens D w) Hkeys Hw), tokens_greedy.
Qed.

Lemma concat_imap_nil {A B} (f : nat -> A -> list B) (l : list A) :
  (forall i x, x ∈ l -> f i x = []) -> concat (imap f l) = [].
Proof.
  revert f. induction l as [| x l IH]; intros f Hf; [reflexivity |].
  simpl. rewrite Hf by left. simpl.
  apply IH. intros i y Hy. apply Hf. by right.
Qed.

Lemma unmapped_variants w : unmapped w -> generate_variants w = {[ w ]}.
Proof.
  intros Hw. unfold generate_variants, variants_list.
  rewrite concat_imap_nil.
  - simpl. apply (right_id_L ∅ (∪)).
  - intros i c Hc. unfold variants_at.
    assert (Hnone : dict_lookup (str_lower [c]) COMMON_VARIANTS = None).
    { apply (unmapped_lower_no_key _ w [c]);
        [apply keys_are_table_keys | exact Hw |].
      intros x Hx. by apply list_elem_of_singleton in Hx as ->. }
    apply dict_in_false in Hnone. by rewrite Hnone.
Qed.

End UnmappedWords.

(** C7.  A word none of whose characters, lower-cased, occurs in either
    mapping table has itself as its only variant: the special-case lexicon
    does not apply, the word is classified as Latin, its transliteration is
    the word itself, and no spelling variant is added.  (The tables are
    keyed by lower-cased tokens and every lookup lower-cases first: a
    character is present in a table when its lower-casing occurs there.) *)
Theorem unmapped_word_singleton `{UnicodeData} (w : str) :
  (forall c c', c ∈ w -> c' ∈ char_lower c -> c' ∉ table_chars) ->
  dict_in (str_lower w) SPECIAL_CASE_MAPPING = false /\
  has_cyrillic w = false /\
  latin_to_cyrillic w = PStr w /\
  generate_variants w = {[ w ]} /\
  get_all_script_variants w = Ok {[ w ]}.
Proof.
  intros Hw.
  pose proof (unmapped_not_special w Hw) as Hspecial.
  pose proof (unmapped_not_cyrillic w Hw) as Hcyr.
  pose proof (unmapped_variants w Hw) as Hvar.
  assert (Hl2c : latin_to_cyrillic w = PStr w).
  { rewrite latin_to_cyrillic_general by exact Hspecial.
    f_equal. apply unmapped_scan; [apply keys_are_table_keys | exact Hw]. }
  repeat split; try assumption.
  unfold get_all_script_variants.
  rewrite Hspecial, Hcyr, Hl2c, Hvar. simpl. f_equal.
  by rewrite !(idemp_L (∪)).
Qed.

Lemma unmapped_word_singleton_witness :
  (forall c c', c ∈ U "1-2!" -> c' ∈ @char_lower Fragment.unicode c ->
                c' ∉ table_chars) /\
  @get_all_script_variants Fragment.unicode (U "1-2!") = Ok {[ U "1-2!" ]}.
Proof.
  assert (Hw : forall c c', c ∈ U "1-2!" ->
                 c' ∈ @char_lower Fragment.unicode c -> c' ∉ table_chars).
  { intros c c' Hc.
    assert (Hall : Forall (fun c => Forall (fun c' => c' ∉ table_chars)
                                      (@char_lower Fragment.unicode c))
                     (U "1-2!"))
      by (apply (bool_decide_unpack _); vm_compute; reflexivity).
    rewrite Forall_forall in Hall. specialize (Hall c Hc).
    rewrite Forall_forall in Hall. apply Hall. }
  split; [exact Hw |].
  exact (proj2 (proj2 (proj2 (proj2
           (@unmapped_word_singleton Fragment.unicode _ Hw))))).
Defined.

(** ** Context shaping: the properties *)

Lemma notes_differ : FULL_NOTE <> EXPANDED_NOTE.
Proof. discriminate. Qed.

Lemma generate_full_text (c : char) (d : str) :
  generate_expanded_context (VStr (c :: d)) "full"
    = Ok (VStr (c :: d ++ FULL_NOTE)).
Proof. reflexivity. Qed.

Lemma generate_expanded_text (c : char) (d : str) :
  generate_expanded_context (VStr (c :: d)) "expanded"
    = Ok (VStr (c :: d ++ EXPANDED_NOTE)).
Proof. reflexivity. Qed.

Lemma generate_empty (context_size : string) :
  generate_expanded_context (VStr []) context_size = Ok VNone /\
  generate_expanded_context VNone context_size = Ok VNone.
Proof. split; reflexivity. Qed.

Lemma process_hit_full (h : Hit) :
  (h !! "full_context"%string = None -> definition_is_text h) ->
  exists h', process_hit "full" h = Ok h' /\ full_shaped h h'.
Proof.
  intros Htext. unfold process_hit, full_shaped.
  repeat (case_bool_decide; [discriminate |]).
  destruct (h !! "full_context"%string) as [v |] eqn:Hfull.
  - eexists. split; [reflexivity |]. split; [| split].
    + apply lookup_delete_eq.
    + intros k Hk1 Hk2. by rewrite lookup_delete_ne, lookup_insert_ne.
    + rewrite lookup_delete_ne by discriminate. apply lookup_insert_eq.
  - specialize (Htext eq_refl). unfold definition_is_text in Htext.
    destruct (hit_get "definition" (VStr []) h) as [| [| c d] | q] eqn:Hdef;
      [| | | done]; simpl;
      (eexists; split; [reflexivity |]; split; [| split];
       [ by rewrite lookup_insert_ne
       | intros k Hk1 Hk2; by rewrite lookup_insert_ne
       | apply lookup_insert_eq ]).
Qed.

Lemma process_hits_full (hs : list Hit) :
  Forall (fun h => h !! "full_context"%string = None -> definition_is_text h)
    hs ->
  exists shaped,
    process_hits "full" hs = Ok shaped /\ Forall2 full_shaped hs shaped.
Proof.
  induction 1 as [| h hs Hh _ (shaped & Hshaped & Hall)].
  - exists []. split; [reflexivity | constructor].
  - destruct (process_hit_full h Hh) as (h' & Hh' & Hfull).
    exists (h' :: shaped). split; [| by constructor].
    simpl. rewrite Hh'. simpl. by rewrite Hshaped.
Qed.

(** C8.  With the context size [full], [process_search_results] rewrites
    every hit of the list: a hit that carries [full_context] has it renamed
    to [expanded_context]; a hit without one gets an [expanded_context]
    synthesised from its definition, the definition followed by a note that
    differs from the note of the size [expanded], which is never empty nor
    [None] when the definition is a non-empty string; for the empty
    definition the context is [None], and nothing is raised. *)
Theorem full_context_shaping (results : response) :
  Forall (fun h => h !! "full_context"%string = None -> definition_is_text h)
    (hits results) ->
  (exists shaped,
     process_search_results results "full" = Ok (set_hits results shaped) /\
     Forall2 full_shaped (hits results) shaped) /\
  FULL_NOTE <> EXPANDED_NOTE /\
  (forall c d,
     generate_expanded_context (VStr (c :: d)) "full"
       = Ok (VStr (c :: d ++ FULL_NOTE)) /\
     generate_expanded_context (VStr (c :: d)) "expanded"
       = Ok (VStr (c :: d ++ EXPANDED_NOTE)) /\
     c :: d ++ FULL_NOTE <> c :: d ++ EXPANDED_NOTE) /\
  generate_expanded_context (VStr []) "full" = Ok VNone.
Proof.
  intros Htext. split; [| split; [| split]].
  - destruct (process_hits_full _ Htext) as (shaped & Hshaped & Hall).
    exists shaped. split; [| exact Hall].
    unfold process_search_results. by rewrite Hshaped.
  - exact notes_differ.
  - intros c d. split; [reflexivity | split; [reflexivity |]].
    intros Heq. injection Heq as Heq. apply app_inv_head in Heq.
    by apply notes_differ.
  - reflexivity.
Qed.

(** ** The query merger: sorting *)

Lemma insert_by_score_perm (x : Hit) (l : list Hit) :
  insert_by_score x l ≡ₚ x :: l.
Proof.
  induction l as [| y l IH]; simpl; [done |].
  destruct (Qle_bool (ranking_score y) (ranking_score x)); [done |].
  rewrite IH. apply Permutation_swap.
Qed.

Lemma sorted_by_score_perm (l : list Hit) : sorted_by_score l ≡ₚ l.
Proof.
  induction l as [| x l IH]; simpl; [done |].
  rewrite insert_by_score_perm. by f_equiv.
Qed.

Lemma insert_by_score_descending (x : Hit) (l : list Hit) :
  descending l -> descending (insert_by_score x l).
Proof.
  unfold descending. induction 1 as [| y l Hl IH Hy]; simpl.
  - repeat constructor.
  - destruct (Qle_bool (ranking_score y) (ranking_score x)) eqn:Hle.
    + apply Qle_bool_iff in Hle.
      constructor; [by constructor |]. constructor; [exact Hle |].
      eapply Forall_impl; [exact Hy |].
      intros z Hz. unfold score_ge in *. by eapply Qle_trans.
    + constructor; [exact IH |].
      rewrite insert_by_score_perm. constructor; [| exact Hy].
      unfold score_ge. apply Qlt_le_weak, Qnot_le_lt.
      intros Hc. apply Qle_bool_iff in Hc. congruence.
Qed.

Lemma sorted_by_score_descending (l : list Hit) :
  descending (sorted_by_score l).
Proof.
  induction l as [| x l IH]; simpl; [constructor |].
  by apply insert_by_score_descending.
Qed.



(** ** The query merger: merging *)

Lemma add_unseen_keep_first (l : list Hit) (seen : gset pyval)
    (merged : list Hit) :
  add_unseen l seen merged
    = (list_to_set (hit_id <$> l) ∪ seen, merged ++ keep_first seen l).
Proof.
  revert seen merged. induction l as [| h l IH]; intros seen merged; simpl.
  - f_equal; [by rewrite (left_id_L ∅ (∪)) | by rewrite app_nil_r].
  - fold (hit_id h). destruct (decide (hit_id h ∈ seen)) as [Hin | Hnin].
    + rewrite bool_decide_eq_false_2 by tauto.
      rewrite (bool_decide_eq_true_2 _ Hin). rewrite IH. f_equal.
      apply set_eq. intros v. rewrite !elem_of_union, elem_of_singleton.
      split; [tauto |]. intros [[-> | Hv] | Hv]; tauto.
    + rewrite (bool_decide_eq_true_2 _ Hnin).
      rewrite (bool_decide_eq_false_2 _ Hnin). rewrite IH. f_equal.
      * apply set_eq. intros v. rewrite !elem_of_union, elem_of_singleton.
        tauto.
      * by rewrite <- app_assoc.
Qed.

Lemma keep_first_app (seen : gset pyval) (l1 l2 : list Hit) :
  keep_first seen (l1 ++ l2)
    = keep_first seen l1
      ++ keep_first (list_to_set (hit_id <$> l1) ∪ seen) l2.
Proof.
  revert seen. induction l1 as [| h l1 IH]; intros seen; simpl.
  - by rewrite (left_id_L ∅ (∪)).
  - case_bool_decide as Hin.
    + rewrite IH. do 2 f_equal.
      apply set_eq. intros v. rewrite !elem_of_union, elem_of_singleton.
      split; [tauto |]. intros [[-> | Hv] | Hv]; tauto.
    + simpl. rewrite IH. do 3 f_equal.
      apply set_eq. intros v. rewrite !elem_of_union, elem_of_singleton.
      tauto.
Qed.

Lemma keep_first_seen (seen : gset pyval) (l : list Hit) (h : Hit) :
  h ∈ keep_first seen l -> hit_id h ∉ seen.
Proof.
  revert seen. induction l as [| x l IH]; intros seen; simpl.
  - intros Hin. by apply elem_of_nil in Hin.
  - case_bool_decide as Hx; [apply IH |].
    intros [-> | Hin]%elem_of_cons; [exact Hx |].
    apply IH in Hin. intros Hseen. apply Hin.
    apply elem_of_union. by right.
Qed.

Lemma with_id_seen (seen : gset pyval) (l : list Hit) (v : pyval) :
  v ∈ seen -> with_id v (keep_first seen l) = [].
Proof.
  intros Hv. unfold with_id.
  destruct (filter _ (keep_first seen l)) as [| h t] eqn:Hf; [done |].
  assert (Hin : h ∈ filter (fun h => hit_id h = v) (keep_first seen l))
    by (rewrite Hf; left).
  apply list_elem_of_filter in Hin as [Hid Hin].
  apply keep_first_seen in Hin. congruence.
Qed.

(** First seen wins: the hits kept with the identity of [h] are [h] alone
    when no earlier hit has that identity. *)
Lemma with_id_first (seen : gset pyval) (pre post : list Hit) (h : Hit) :
  hit_id h ∉ seen ->
  (forall h0, h0 ∈ pre -> hit_id h0 <> hit_id h) ->
  with_id (hit_id h) (keep_first seen (pre ++ h :: post)) = [h].
Proof.
  revert seen. induction pre as [| x pre IH]; intros seen Hseen Hpre; simpl.
  - rewrite (bool_decide_eq_false_2 _ Hseen). unfold with_id.
    rewrite filter_cons_True by done. f_equal.
    apply with_id_seen, elem_of_union. left. by apply elem_of_singleton.
  - assert (Hx : hit_id x <> hit_id h) by (apply Hpre; left).
    assert (Hpre' : forall h0, h0 ∈ pre -> hit_id h0 <> hit_id h)
      by (intros h0 Hh0; apply Hpre; by right).
    case_bool_decide.
    + by apply IH.
    + unfold with_id. rewrite filter_cons_False by done.
      apply IH; [| done].
      intros [Hs | Hs]%elem_of_union; [| done].
      apply elem_of_singleton in Hs. congruence.
Qed.

Lemma keep_first_nodup (seen : gset pyval) (l : list Hit) :
  NoDup (hit_id <$> keep_first seen l).
Proof.
  revert seen. induction l as [| x l IH]; intros seen; simpl.
  - constructor.
  - case_bool_decide; [apply IH |].
    simpl. constructor; [| apply IH].
    intros Hin. apply list_elem_of_fmap in Hin as (h & Hid & Hin).
    apply keep_first_seen in Hin. apply Hin, elem_of_union.
    left. by apply elem_of_singleton.
Qed.

Lemma keep_first_sublist (seen : gset pyval) (l : list Hit) :
  keep_first seen l `sublist_of` l.
Proof.
  revert seen. induction l as [| x l IH]; intros seen; simpl; [done |].
  case_bool_decide; [by apply sublist_cons | by apply sublist_skip].
Qed.

(** The loop over the variants when every backend call answers. *)
Lemma variants_loop_ok (index_search : backend) (params : search_params)
    (variants : list str) (responses : list response)
    (merged : response) (seen : gset pyval) (log : call_log) :
  Forall2 (fun v r => index_search v params = Ok r) variants responses ->
  variants_loop index_search params variants merged seen log =
    (log ++ map (fun v => (v, params)) variants,
     Ok {| hits := hits merged
                     ++ keep_first seen (concat (map hits responses));
           query := query merged;
           processingTimeMs :=
             foldl (fun t r => (t + processingTimeMs r)%Z)
                   (processingTimeMs merged) responses;
           estimatedTotalHits :=
             foldl (fun t r => Z.max t (estimatedTotalHits r))
                   (estimatedTotalHits merged) responses |}).
Proof.
  intros Hall. revert merged seen log.
  induction Hall as [| v r vs rs Hv _ IH]; intros merged seen log; simpl.
  - rewrite !app_nil_r. by destruct merged.
  - rewrite Hv, add_unseen_keep_first. rewrite IH. simpl.
    rewrite keep_first_app, <- !app_assoc. reflexivity.
Qed.

(** C4.  With transliteration, the hits of the variants are merged in the
    order in which the variants are queried, and a hit is appended only if
    its identity was not seen before: when every backend call answers, the
    merged list is a subsequence of the concatenated answers, no identity
    occurs twice in it, and for each identity the one hit it has of that
    identity is the first one seen, before and after the sort by score; a
    later hit of the same identity that differs from it (in its score, for
    one) is not in the merged list. *)
Theorem first_seen_wins (index_search : backend) (params : search_params)
    (variants : list str) (responses : list response) (q : str) :
  Forall2 (fun v r => index_search v params = Ok r) variants responses ->
  exists log merged,
    variants_loop index_search params variants
      {| hits := []; query := q;
         processingTimeMs := 0; estimatedTotalHits := 0 |} ∅ []
      = (log, Ok merged) /\
    hits merged `sublist_of` concat (map hits responses) /\
    NoDup (hit_id <$> hits merged) /\
    forall pre h post,
      concat (map hits responses) = pre ++ h :: post ->
      (forall h0, h0 ∈ pre -> hit_id h0 <> hit_id h) ->
      with_id (hit_id h) (hits merged) = [h] /\
      with_id (hit_id h) (sorted_by_score (hits merged)) = [h] /\
      forall h2, h2 ∈ post -> hit_id h2 = hit_id h -> h2 <> h ->
                 h2 ∉ hits merged.
Proof.
  intros Hall. eexists _, _.
  split; [by apply variants_loop_ok |]. simpl.
  split; [apply keep_first_sublist |].
  split; [apply keep_first_nodup |].
  intros pre h post Hsplit Hpre.
  assert (Hone : with_id (hit_id h)
                   (keep_first ∅ (concat (map hits responses))) = [h]).
  { rewrite Hsplit. apply with_id_first; [| exact Hpre].
    apply not_elem_of_empty. }
  split; [exact Hone | split].
  - unfold with_id in *. apply Permutation_singleton_r.
    rewrite <- Hone. by rewrite sorted_by_score_perm.
  - intros h2 _ Hid Hne Hin.
    assert (Hin' : h2 ∈ with_id (hit_id h)
                          (keep_first ∅ (concat (map hits responses)))).
    { unfold with_id. by apply list_elem_of_filter. }
    rewrite Hone in Hin'. by apply list_elem_of_singleton in Hin'.
Qed.

Lemma doc_1_scripts_differ : doc_1_cyrillic <> doc_1_latin.
Proof.
  intros Heq.
  apply (f_equal (fun m : Hit => m !! "source"%string)) in Heq.
  vm_compute in Heq. discriminate.
Qed.

Lemma first_seen_wins_witness :
  Forall2 (fun v r => two_script_backend v sample_params = Ok r)
    two_script_variants two_script_responses /\
  exists log merged,
    variants_loop two_script_backend sample_params two_script_variants
      {| hits := []; query := U "tærqūs";
         processingTimeMs := 0; estimatedTotalHits := 0 |} ∅ []
      = (log, Ok merged) /\
    with_id (hit_id doc_1_latin) (sorted_by_score (hits merged))
      = [doc_1_latin] /\
    doc_1_cyrillic ∉ hits merged.
Proof.
  assert (Hall : Forall2
            (fun v r => two_script_backend v sample_params = Ok r)
            two_script_variants two_script_responses).
  { repeat constructor; vm_compute; reflexivity. }
  split; [exact Hall |].
  destruct (first_seen_wins two_script_backend sample_params
              two_script_variants two_script_responses (U "tærqūs") Hall)
    as (log & merged & Hrun & _ & _ & Hfirst).
  exists log, merged. split; [exact Hrun |].
  destruct (Hfirst [] doc_1_latin [doc_2; doc_1_cyrillic] eq_refl)
    as (_ & Hsorted & Hlater).
  { intros h0 Hh0. by apply elem_of_nil in Hh0. }
  split; [exact Hsorted |].
  apply Hlater.
  - right. left.
  - vm_compute. reflexivity.
  - exact doc_1_scripts_differ.
Defined.

(** ** The query merger: the per-source cap *)

Section CapFacts.
Variables limit limit_per_source : Z.

Lemma with_source_snoc (s : pyval) (f : list Hit) (x : Hit) :
  length (with_source s (f ++ [x]))
    = length (with_source s f) + (if decide (hit_source x = s) then 1 else 0).
Proof.
  unfold with_source. rewrite filter_app, length_app. f_equal.
  rewrite filter_cons. by destruct (decide (hit_source x = s)).
Qed.

(** One iteration of the loop, under the invariant. *)
Lemma cap_step (x : Hit) (rest : list Hit) (sc : gmap pyval Z)
    (f : list Hit) :
  cap_inv limit sc f ->
  let count := Z.of_nat (length (with_source (hit_source x) f)) in
  ((count < limit_per_source)%Z ->
     ((limit <= Z.of_nat (length f) + 1)%Z ->
        cap_loop limit limit_per_source (x :: rest) sc f = f ++ [x]) /\
     ((Z.of_nat (length f) + 1 < limit)%Z ->
        cap_inv limit (counted_source sc x) (f ++ [x]) /\
        cap_loop limit limit_per_source (x :: rest) sc f
          = cap_loop limit limit_per_source rest
              (counted_source sc x) (f ++ [x]))) /\
  ((limit_per_source <= count)%Z ->
     cap_inv limit (seen_source sc x) f /\
     cap_loop limit limit_per_source (x :: rest) sc f
       = cap_loop limit limit_per_source rest (seen_source sc x) f).
Proof.
  intros [Hlen Hcounts] count. simpl. fold (hit_source x).
  fold (seen_source sc x). fold (counted_source sc x).
  assert (Hsc0 : forall s, default 0%Z (seen_source sc x !! s)
                           = default 0%Z (sc !! s)).
  { intros s. unfold seen_source. case_bool_decide as Hnone; [| done].
    destruct (decide (hit_source x = s)) as [<- | Hne].
    - by rewrite lookup_insert_eq, Hnone.
    - by rewrite lookup_insert_ne. }
  assert (Hcount : default 0%Z (seen_source sc x !! hit_source x) = count).
  { rewrite Hsc0. apply Hcounts. }
  assert (Hsnoc : Z.of_nat (length (f ++ [x])) = (Z.of_nat (length f) + 1)%Z).
  { rewrite length_app. simpl. lia. }
  unfold counted_source at 1. rewrite Hcount, Hsnoc. split.
  - intros Hlt. apply Z.ltb_lt in Hlt as Hlt'. rewrite Hlt'. split.
    + intros Hfull. apply Z.leb_le in Hfull. by rewrite Hfull.
    + intros Hroom.
      assert (Hno : (limit <=? Z.of_nat (length f) + 1)%Z = false)
        by (apply Z.leb_gt; lia).
      rewrite Hno. unfold counted_source. rewrite Hcount.
      split; [| reflexivity].
      split; [lia |].
      intros s. rewrite with_source_snoc.
      destruct (decide (hit_source x = s)) as [<- | Hne].
      * rewrite lookup_insert_eq. simpl. unfold count. lia.
      * rewrite lookup_insert_ne by done. rewrite Hsc0, Hcounts. lia.
  - intros Hge.
    assert (Hno : (count <? limit_per_source)%Z = false)
      by (apply Z.ltb_ge; lia).
    rewrite Hno. split; [| reflexivity].
    split; [exact Hlen |]. intros s. by rewrite Hsc0.
Qed.

(** The included hits form a subsequence of the list read. *)
Lemma cap_loop_sublist (hs : list Hit) (sc : gmap pyval Z) (f : list Hit) :
  cap_inv limit sc f ->
  exists added,
    cap_loop limit limit_per_source hs sc f = f ++ added /\
    added `sublist_of` hs.
Proof.
  revert sc f. induction hs as [| x hs IH]; intros sc f Hinv.
  - exists []. split; [by rewrite app_nil_r | done].
  - destruct (cap_step x hs sc f Hinv) as [Hinc Hskip].
    destruct (Z_lt_le_dec
                (Z.of_nat (length (with_source (hit_source x) f)))
                limit_per_source) as [Hlt | Hge].
    + destruct (Hinc Hlt) as [Hfull Hroom].
      destruct (Z_lt_le_dec (Z.of_nat (length f) + 1) limit) as [Hr | Hf].
      * destruct (Hroom Hr) as (Hinv' & ->).
        destruct (IH _ _ Hinv') as (added & -> & Hsub).
        exists (x :: added). split; [by rewrite <- app_assoc |].
        by apply sublist_skip.
      * rewrite (Hfull Hf). exists [x]. split; [done |].
        apply sublist_skip, sublist_nil_l.
    + destruct (Hskip Hge) as (Hinv' & ->).
      destruct (IH _ _ Hinv') as (added & -> & Hsub).
      exists added. split; [done | by apply sublist_cons].
Qed.

(** At most [limit] hits in total. *)
Lemma cap_loop_length (hs : list Hit) (sc : gmap pyval Z) (f : list Hit) :
  cap_inv limit sc f ->
  (Z.of_nat (length (cap_loop limit limit_per_source hs sc f)) <= limit)%Z.
Proof.
  revert sc f. induction hs as [| x hs IH]; intros sc f Hinv.
  - simpl. destruct Hinv. lia.
  - destruct (cap_step x hs sc f Hinv) as [Hinc Hskip].
    destruct (Z_lt_le_dec
                (Z.of_nat (length (with_source (hit_source x) f)))
                limit_per_source) as [Hlt | Hge].
    + destruct (Hinc Hlt) as [Hfull Hroom].
      destruct (Z_lt_le_dec (Z.of_nat (length f) + 1) limit) as [Hr | Hf].
      * destruct (Hroom Hr) as (Hinv' & ->). by apply IH.
      * rewrite (Hfull Hf). rewrite length_app. simpl.
        destruct Hinv. lia.
    + destruct (Hskip Hge) as (Hinv' & ->). by apply IH.
Qed.

(** At most [limit_per_source] hits of each source. *)
Lemma cap_loop_per_source (hs : list Hit) (sc : gmap pyval Z)
    (f : list Hit) (s : pyval) :
  cap_inv limit sc f ->
  (Z.of_nat (length (with_source s f)) <= Z.max 0 limit_per_source)%Z ->
  (Z.of_nat (length (with_source s
       (cap_loop limit limit_per_source hs sc f)))
   <= Z.max 0 limit_per_source)%Z.
Proof.
  revert sc f. induction hs as [| x hs IH]; intros sc f Hinv Hs.
  - exact Hs.
  - destruct (cap_step x hs sc f Hinv) as [Hinc Hskip].
    assert (Hsnoc :
      (Z.of_nat (length (with_source (hit_source x) f)) < limit_per_source)%Z ->
      (Z.of_nat (length (with_source s (f ++ [x])))
       <= Z.max 0 limit_per_source)%Z).
    { intros Hlt. rewrite with_source_snoc.
      destruct (decide (hit_source x = s)) as [<- | Hne]; lia. }
    destruct (Z_lt_le_dec
                (Z.of_nat (length (with_source (hit_source x) f)))
                limit_per_source) as [Hlt | Hge].
    + destruct (Hinc Hlt) as [Hfull Hroom].
      destruct (Z_lt_le_dec (Z.of_nat (length f) + 1) limit) as [Hr | Hf].
      * destruct (Hroom Hr) as (Hinv' & ->). apply IH; auto.
      * rewrite (Hfull Hf). auto.
    + destruct (Hskip Hge) as (Hinv' & ->). by apply IH.
Qed.

(** The rule of inclusion: reading one more hit [h] after [pre] adds [h]
    exactly when the limit is not reached and the source of [h] is below
    its cap; otherwise the hits included are those of [pre]. *)
Lemma cap_loop_snoc (pre : list Hit) (h : Hit) (sc : gmap pyval Z)
    (f : list Hit) :
  cap_inv limit sc f ->
  cap_loop limit limit_per_source (pre ++ [h]) sc f =
    let inc := cap_loop limit limit_per_source pre sc f in
    if (Z.of_nat (length inc) <? limit)%Z
       && (Z.of_nat (length (with_source (hit_source h) inc))
           <? limit_per_source)%Z
    then inc ++ [h] else inc.
Proof.
  revert sc f. induction pre as [| x pre IH]; intros sc f Hinv.
  - simpl app. cbv zeta.
    destruct (cap_step h [] sc f Hinv) as [Hinc Hskip].
    assert (Hlen : (Z.of_nat (length f) <? limit)%Z = true)
      by (apply Z.ltb_lt; destruct Hinv; lia).
    change (cap_loop limit limit_per_source [] sc f) with f.
    rewrite Hlen. simpl andb.
    destruct (Z_lt_le_dec
                (Z.of_nat (length (with_source (hit_source h) f)))
                limit_per_source) as [Hlt | Hge].
    + destruct (Hinc Hlt) as [Hfull Hroom].
      apply Z.ltb_lt in Hlt as Hlt'. rewrite Hlt'.
      destruct (Z_lt_le_dec (Z.of_nat (length f) + 1) limit) as [Hr | Hf].
      * by destruct (Hroom Hr) as (_ & ->).
      * by apply Hfull.
    + destruct (Hskip Hge) as (_ & ->).
      apply Z.ltb_ge in Hge. by rewrite Hge.
  - cbv zeta. rewrite <- app_comm_cons.
    destruct (cap_step x (pre ++ [h]) sc f Hinv) as [Hinc Hskip].
    destruct (cap_step x pre sc f Hinv) as [Hinc0 Hskip0].
    destruct (Z_lt_le_dec
                (Z.of_nat (length (with_source (hit_source x) f)))
                limit_per_source) as [Hlt | Hge].
    + destruct (Hinc Hlt) as [Hfull Hroom].
      destruct (Hinc0 Hlt) as [Hfull0 Hroom0].
      destruct (Z_lt_le_dec (Z.of_nat (length f) + 1) limit) as [Hr | Hf].
      * destruct (Hroom Hr) as (Hinv' & ->).
        destruct (Hroom0 Hr) as (_ & ->).
        by rewrite (IH _ _ Hinv').
      * rewrite (Hfull Hf), (Hfull0 Hf).
        assert (Hno : (Z.of_nat (length (f ++ [x])) <? limit)%Z = false).
        { apply Z.ltb_ge. rewrite length_app. simpl. lia. }
        by rewrite Hno.
    + destruct (Hskip Hge) as (Hinv' & ->).
      destruct (Hskip0 Hge) as (_ & ->).
      by rewrite (IH _ _ Hinv').
Qed.

Lemma cap_inv_start : (1 <= limit)%Z -> cap_inv limit ∅ [].
Proof.
  intros Hlimit. split; [simpl; lia |].
  intros s. by rewrite lookup_empty.
Qed.

End CapFacts.

(** ** The query merger: context shaping keeps source, score and identity *)

Lemma process_hit_keeps (context_size : string) (h h' : Hit) (k : string) :
  process_hit context_size h = Ok h' ->
  k <> "expanded_context"%string -> k <> "full_context"%string ->
  h' !! k = h !! k.
Proof.
  intros Hp Hk1 Hk2. unfold process_hit in Hp.
  destruct (bool_decide (context_size = "default"%string)).
  { injection Hp as <-.
    repeat (case_bool_decide; rewrite ?lookup_delete_ne by done); done. }
  destruct (bool_decide (context_size = "expanded"%string)).
  { destruct (negb _); [| by injection Hp as <-].
    destruct (generate_expanded_context _ _) as [ctx |]; [| discriminate].
    injection Hp as <-. by rewrite lookup_insert_ne. }
  destruct (bool_decide (context_size = "full"%string));
    [| by injection Hp as <-].
  destruct (h !! "full_context"%string) as [v |].
  - injection Hp as <-. by rewrite lookup_delete_ne, lookup_insert_ne.
  - destruct (generate_expanded_context _ _) as [ctx |]; [| discriminate].
    injection Hp as <-. by rewrite lookup_insert_ne.
Qed.

Lemma process_hit_source_score (context_size : string) (h h' : Hit) :
  process_hit context_size h = Ok h' -> same_source_score h h'.
Proof.
  intros Hp. unfold same_source_score, hit_source, ranking_score, hit_get.
  by rewrite !(process_hit_keeps _ _ _ _ Hp).
Qed.

Lemma process_hits_source_score (context_size : string) (hs hs' : list Hit) :
  process_hits context_size hs = Ok hs' ->
  Forall2 same_source_score hs hs'.
Proof.
  revert hs'. induction hs as [| h hs IH]; intros hs' Hp; simpl in Hp.
  - simplify_eq. constructor.
  - destruct (process_hit context_size h) as [h' |] eqn:Hh; [| discriminate].
    simpl in Hp.
    destruct (process_hits context_size hs) as [rest |]; [| discriminate].
    simpl in Hp. simplify_eq.
    constructor; [by eapply process_hit_source_score | by apply IH].
Qed.

Lemma same_length (hs hs' : list Hit) :
  Forall2 same_source_score hs hs' -> length hs' = length hs.
Proof. intros Hsame. symmetry. by eapply Forall2_length. Qed.

Lemma same_with_source (s : pyval) (hs hs' : list Hit) :
  Forall2 same_source_score hs hs' ->
  length (with_source s hs') = length (with_source s hs).
Proof.
  unfold with_source. induction 1 as [| h h' l l' [Hs _] _ IH]; [done |].
  rewrite !filter_cons, Hs.
  destruct (decide (hit_source h = s)); simpl; lia.
Qed.

Lemma same_descending (hs hs' : list Hit) :
  Forall2 same_source_score hs hs' -> descending hs -> descending hs'.
Proof.
  unfold descending. induction 1 as [| h h' l l' [_ Hq] Hall IH].
  - constructor.
  - intros Hd. apply StronglySorted_inv in Hd as [Hl Hh].
    constructor; [by apply IH |].
    clear IH Hl. induction Hall as [| x x' m m' [_ Hx] _ IHm];
      [constructor |].
    apply Forall_cons in Hh as [Hhx Hh].
    constructor; [| by apply IHm].
    unfold score_ge in *. by rewrite Hx, Hq.
Qed.

Lemma sublist_descending (l1 l2 : list Hit) :
  l1 `sublist_of` l2 -> descending l2 -> descending l1.
Proof.
  unfold descending. induction 1 as [| x l1 l2 Hsub IH | x l1 l2 Hsub IH];
    intros Hd.
  - constructor.
  - apply StronglySorted_inv in Hd as [Hl Hx].
    constructor; [by apply IH |].
    eapply Forall_forall. intros y Hy.
    rewrite Forall_forall in Hx. apply Hx.
    by eapply sublist_subseteq.
  - apply StronglySorted_inv in Hd as [Hl _]. by apply IH.
Qed.

(** ** The query merger: properties of [search_dictionary] *)

Section SearchFacts.
Context `{UnicodeData}.
Variable py_list : gset str -> list str.

(** A search with transliteration that returns: the variants were
    generated, every backend call answered, and the hits returned are the
    merged hits, sorted, filtered and context-shaped. *)
Lemma search_transliterated (index_search : backend) (q : str)
    (limit limit_per_source : Z) (context_size : string)
    (source : option str) (log : call_log) (res : response) :
  search_dictionary py_list index_search q limit limit_per_source true
    context_size source = (log, Ok res) ->
  exists variants merged filtered,
    get_all_script_variants q = Ok variants /\
    variants_loop index_search
      (make_search_params limit context_size source) (py_list variants)
      {| hits := []; query := q;
         processingTimeMs := 0; estimatedTotalHits := 0 |} ∅ []
      = (log, Ok merged) /\
    apply_filters source limit limit_per_source
      (sorted_by_score (hits merged)) = Ok filtered /\
    process_hits context_size filtered = Ok (hits res).
Proof.
  unfold search_dictionary, search_body. simpl negb. cbv iota.
  destruct (get_all_script_variants q) as [variants | e]; [| discriminate].
  destruct (variants_loop _ _ _ _ _ _) as [log' looped] eqn:Hloop.
  destruct looped as [merged | e]; simpl; [| discriminate].
  destruct (apply_filters _ _ _ _) as [filtered | e] eqn:Hfilter;
    simpl; [| discriminate].
  unfold process_search_results. simpl.
  destruct (process_hits context_size filtered) as [shaped | e] eqn:Hshape;
    simpl; [| discriminate].
  intros Heq. injection Heq as <- <-.
  exists variants, merged, filtered. eauto.
Qed.

(** A backend call that raises ends the loop over the variants. *)
Lemma variants_loop_raise (index_search : backend) (params : search_params)
    (variants : list str) (merged : response) (seen : gset pyval)
    (log : call_log) (v : str) (e : exn) :
  v ∈ variants -> index_search v params = Raise e ->
  exists log' v' e',
    variants_loop index_search params variants merged seen log
      = (log' ++ [(v', params)], Raise e') /\
    index_search v' params = Raise e'.
Proof.
  intros Hin Hv. revert merged seen log.
  induction variants as [| x variants IH]; intros merged seen log.
  - by apply elem_of_nil in Hin.
  - simpl. destruct (index_search x params) as [r | e0] eqn:Hx.
    + destruct (add_unseen _ _ _) as [seen' merged_hits].
      apply IH. apply elem_of_cons in Hin as [-> | Hin]; [congruence | done].
    + exists log, x, e0. by split.
Qed.

End SearchFacts.

(** A loop over the variants that returns had an answer to every call. *)
Lemma variants_loop_answers (index_search : backend) (params : search_params)
    (variants : list str) (merged merged' : response) (seen : gset pyval)
    (log log' : call_log) :
  variants_loop index_search params variants merged seen log
    = (log', Ok merged') ->
  exists responses,
    Forall2 (fun v r => index_search v params = Ok r) variants responses.
Proof.
  revert merged seen log.
  induction variants as [| v variants IH]; intros merged seen log; simpl.
  - intros _. exists []. constructor.
  - destruct (index_search v params) as [r | e] eqn:Hv; [| discriminate].
    destruct (add_unseen _ _ _) as [seen' merged_hits].
    intros Hloop. apply IH in Hloop as [responses Hall].
    exists (r :: responses). by constructor.
Qed.

(** A hit that is kept is the first of the list with its identity. *)
Lemma keep_first_elem (seen : gset pyval) (l : list Hit) (h : Hit) :
  h ∈ keep_first seen l ->
  exists pre post,
    l = pre ++ h :: post /\ forall h0, h0 ∈ pre -> hit_id h0 <> hit_id h.
Proof.
  revert seen. induction l as [| x l IH]; intros seen; simpl.
  - intros Hin. by apply elem_of_nil in Hin.
  - case_bool_decide as Hx.
    + intros Hin. pose proof (keep_first_seen _ _ _ Hin) as Hnew.
      apply IH in Hin as (pre & post & -> & Hpre).
      exists (x :: pre), post. split; [done |].
      intros h0 [-> | Hh0]%elem_of_cons; [congruence | by apply Hpre].
    + intros [-> | Hin]%elem_of_cons.
      * exists [], l. split; [done |].
        intros h0 Hh0. by apply elem_of_nil in Hh0.
      * pose proof (keep_first_seen _ _ _ Hin) as Hnew.
        apply IH in Hin as (pre & post & -> & Hpre).
        exists (x :: pre), post. split; [done |].
        intros h0 [-> | Hh0]%elem_of_cons; [| by apply Hpre].
        intros Heq. apply Hnew, elem_of_union. left.
        by apply elem_of_singleton.
Qed.

Lemma process_hit_id (context_size : string) (h h' : Hit) :
  process_hit context_size h = Ok h' -> hit_id h' = hit_id h.
Proof.
  intros Hp. unfold hit_id, hit_get.
  by rewrite (process_hit_keeps _ _ _ _ Hp).
Qed.

Lemma process_hits_each (context_size : string) (hs hs' : list Hit) :
  process_hits context_size hs = Ok hs' ->
  Forall2 (fun h h' => process_hit context_size h = Ok h') hs hs'.
Proof.
  revert hs'. induction hs as [| h hs IH]; intros hs' Hp; simpl in Hp.
  - simplify_eq. constructor.
  - destruct (process_hit context_size h) as [h' |] eqn:Hh; [| discriminate].
    simpl in Hp.
    destruct (process_hits context_size hs) as [rest |]; [| discriminate].
    simpl in Hp. simplify_eq. constructor; [done | by apply IH].
Qed.

(** C5.  Without a source filter, a search with transliteration that
    returns has passed the score-sorted merged list through the per-source
    cap and then shaped the context of the hits kept.  The cap reads the
    list in order; reading one more hit [h] after [pre] includes [h] exactly
    when fewer than [limit] hits are included and fewer than
    [limit_per_source] of them have the source of [h], and otherwise leaves
    the included hits as they are (a capped source is skipped, the reading
    goes on; once [limit] is reached nothing is added).  So the hits
    returned are in descending order of score, at most [limit_per_source]
    per source and at most [limit] in total.  The limit is at least 1, as
    the API layer guarantees. *)
Theorem per_source_capping `{UnicodeData} (py_list : gset str -> list str)
    (index_search : backend) (q : str) (limit limit_per_source : Z)
    (context_size : string) (source : option str)
    (log : call_log) (res : response) :
  (1 <= limit)%Z ->
  source_given source = false ->
  search_dictionary py_list index_search q limit limit_per_source true
    context_size source = (log, Ok res) ->
  exists merged,
    descending merged /\
    per_source_cap limit limit_per_source merged `sublist_of` merged /\
    process_hits context_size (per_source_cap limit limit_per_source merged)
      = Ok (hits res) /\
    (forall pre h,
       per_source_cap limit limit_per_source (pre ++ [h]) =
         let inc := per_source_cap limit limit_per_source pre in
         if (Z.of_nat (length inc) <? limit)%Z
            && (Z.of_nat (length (with_source (hit_source h) inc))
                <? limit_per_source)%Z
         then inc ++ [h] else inc) /\
    (forall s, (Z.of_nat (length (with_source s (hits res)))
                <= Z.max 0 limit_per_source)%Z) /\
    (Z.of_nat (length (hits res)) <= limit)%Z /\
    descending (hits res).
Proof.
  intros Hlimit Hsource Hrun.
  apply search_transliterated in Hrun
    as (variants & merged & filtered & _ & _ & Hfilter & Hshape).
  unfold apply_filters in Hfilter. rewrite Hsource in Hfilter.
  injection Hfilter as <-.
  pose proof (cap_inv_start limit Hlimit) as Hinv.
  pose proof (process_hits_source_score _ _ _ Hshape) as Hsame.
  assert (Hsub : per_source_cap limit limit_per_source
                   (sorted_by_score (hits merged))
                 `sublist_of` sorted_by_score (hits merged)).
  { destruct (cap_loop_sublist limit limit_per_source
                (sorted_by_score (hits merged)) ∅ [] Hinv)
      as (added & Hadded & Hsub).
    unfold per_source_cap. by rewrite Hadded. }
  exists (sorted_by_score (hits merged)).
  split; [apply sorted_by_score_descending |].
  split; [exact Hsub |].
  split; [exact Hshape |].
  split; [intros pre h; by apply cap_loop_snoc |].
  split; [| split].
  - intros s. rewrite (same_with_source s _ _ Hsame).
    apply cap_loop_per_source; [exact Hinv | simpl; lia].
  - rewrite (same_length _ _ Hsame). by apply cap_loop_length.
  - apply (same_descending _ _ Hsame).
    eapply sublist_descending; [exact Hsub |].
    apply sorted_by_score_descending.
Qed.

(** C9, as the code has it.  When the backend call of any one variant
    raises, the whole search raises: the exception leaves the loop at the
    first failing call, which is the last call made, the hits merged so
    far are dropped, and the caller gets a [RuntimeError] in place of a
    result.  ([py_list] lists every element of the set.) *)
Theorem backend_failure_aborts `{UnicodeData}
    (py_list : gset str -> list str) (index_search : backend) (q : str)
    (limit limit_per_source : Z) (context_size : string)
    (source : option str) (variants : gset str) (v : str) (e : exn) :
  (forall (S : gset str) x, x ∈ S -> x ∈ py_list S) ->
  get_all_script_variants q = Ok variants ->
  v ∈ variants ->
  index_search v (make_search_params limit context_size source) = Raise e ->
  exists log v' e',
    search_dictionary py_list index_search q limit limit_per_source true
      context_size source
      = (log ++ [(v', make_search_params limit context_size source)],
         Raise (RuntimeError e')) /\
    index_search v' (make_search_params limit context_size source)
      = Raise e'.
Proof.
  intros Hlist Hvariants Hin Hfail.
  destruct (variants_loop_raise index_search _ (py_list variants)
              {| hits := []; query := q;
                 processingTimeMs := 0; estimatedTotalHits := 0 |}
              ∅ [] v e (Hlist _ _ Hin) Hfail)
    as (log & v' & e' & Hloop & Hv').
  exists log, v', e'. split; [| exact Hv'].
  unfold search_dictionary, search_body. simpl negb. cbv iota.
  rewrite Hvariants, Hloop. reflexivity.
Qed.

(** Whatever the limits, both filters keep a subsequence of the list. *)
Lemma cap_loop_sublist_any (limit limit_per_source : Z) (hs : list Hit)
    (sc : gmap pyval Z) (f : list Hit) :
  exists added,
    cap_loop limit limit_per_source hs sc f = f ++ added /\
    added `sublist_of` hs.
Proof.
  revert sc f. induction hs as [| x hs IH]; intros sc f; simpl.
  - exists []. split; [by rewrite app_nil_r | done].
  - destruct (_ <? limit_per_source)%Z.
    + destruct (limit <=? _)%Z.
      * exists [x]. split; [done |]. apply sublist_skip, sublist_nil_l.
      * match goal with
        | |- context [cap_loop _ _ hs ?sc' ?f'] =>
          destruct (IH sc' f') as (added & Hadded & Hsub)
        end.
        rewrite Hadded.
        exists (x :: added). split; [by rewrite <- app_assoc |].
        by apply sublist_skip.
    + match goal with
      | |- context [cap_loop _ _ hs ?sc' ?f'] =>
        destruct (IH sc' f') as (added & Hadded & Hsub)
      end.
      rewrite Hadded.
      exists added. split; [done | by apply sublist_cons].
Qed.

Lemma source_filter_loop_sublist `{UnicodeData} (wanted : str)
    (hs : list Hit) (f out : list Hit) :
  source_filter_loop wanted hs f = Ok out ->
  exists added, out = f ++ added /\ added `sublist_of` hs.
Proof.
  revert f. induction hs as [| x hs IH]; intros f; simpl.
  - intros Heq. injection Heq as <-.
    exists []. split; [by rewrite app_nil_r | done].
  - destruct (normalized _) as [hit_source |]; simpl; [| discriminate].
    destruct (is_substring wanted hit_source); intros Hout.
    + apply IH in Hout as (added & -> & Hsub).
      exists (x :: added). split; [by rewrite <- app_assoc |].
      by apply sublist_skip.
    + apply IH in Hout as (added & -> & Hsub).
      exists added. split; [done | by apply sublist_cons].
Qed.

Lemma py_prefix_sublist {A} (l : list A) (limit : Z) :
  py_prefix l limit `sublist_of` l.
Proof. unfold py_prefix. destruct (0 <=? limit)%Z; apply sublist_take. Qed.

Lemma apply_filters_sublist `{UnicodeData} (source : option str)
    (limit limit_per_source : Z) (hs out : list Hit) :
  apply_filters source limit limit_per_source hs = Ok out ->
  out `sublist_of` hs.
Proof.
  unfold apply_filters. destruct (source_given source).
  - destruct (source_filter_loop _ hs []) as [filtered |] eqn:Hloop;
      simpl; [| discriminate].
    intros Heq. injection Heq as <-.
    apply source_filter_loop_sublist in Hloop as (added & -> & Hsub).
    simpl. etransitivity; [apply py_prefix_sublist | exact Hsub].
  - intros Heq. injection Heq as <-.
    destruct (cap_loop_sublist_any limit limit_per_source hs ∅ [])
      as (added & Hadded & Hsub).
    unfold per_source_cap. by rewrite Hadded.
Qed.

(** X5: end to end: the hits a search with transliteration returns have
    pairwise distinct identities, and each of them is the context-shaped
    form of the first hit seen with its identity, in the order in which the
    variants were queried. *)
Lemma search_returns_first_seen `{UnicodeData}
    (py_list : gset str -> list str) (index_search : backend) (q : str)
    (limit limit_per_source : Z) (context_size : string)
    (source : option str) (log : call_log) (res : response) :
  search_dictionary py_list index_search q limit limit_per_source true
    context_size source = (log, Ok res) ->
  exists variants responses,
    get_all_script_variants q = Ok variants /\
    Forall2 (fun v r =>
               index_search v (make_search_params limit context_size source)
               = Ok r) (py_list variants) responses /\
    NoDup (hit_id <$> hits res) /\
    forall h', h' ∈ hits res ->
      exists pre h post,
        concat (map hits responses) = pre ++ h :: post /\
        (forall h0, h0 ∈ pre -> hit_id h0 <> hit_id h) /\
        process_hit context_size h = Ok h'.
Proof.
  intros Hrun.
  apply search_transliterated in Hrun
    as (variants & merged & filtered & Hvariants & Hloop & Hfilter & Hshape).
  destruct (variants_loop_answers _ _ _ _ _ _ _ _ Hloop) as [responses Hall].
  rewrite (variants_loop_ok _ _ _ _ _ _ _ Hall) in Hloop.
  injection Hloop as _ <-. simpl in Hfilter.
  exists variants, responses. split; [exact Hvariants |].
  split; [exact Hall |].
  apply apply_filters_sublist in Hfilter.
  apply process_hits_each in Hshape.
  assert (Hids : hit_id <$> hits res = hit_id <$> filtered).
  { clear Hfilter. induction Hshape as [| h h' l l' Hh _ IH]; [done |].
    rewrite !fmap_cons. f_equal; [by eapply process_hit_id | exact IH]. }
  split.
  - rewrite Hids.
    apply (sublist_NoDup _
             (hit_id <$> sorted_by_score
                (keep_first ∅ (concat (map hits responses))))).
    + rewrite sorted_by_score_perm. apply keep_first_nodup.
    + by apply fmap_sublist.
  - intros h' Hh'.
    assert (Hsrc : exists h, h ∈ filtered
                             /\ process_hit context_size h = Ok h').
    { clear Hfilter Hids.
      induction Hshape as [| h h'' l l' Hh _ IH];
        [by apply elem_of_nil in Hh' |].
      apply elem_of_cons in Hh' as [-> | Hh'].
      - exists h. split; [left | done].
      - destruct (IH Hh') as (h0 & Hin & Hp). exists h0. split; [by right | done]. }
    destruct Hsrc as (h & Hin & Hp).
    assert (Hkept : h ∈ keep_first ∅ (concat (map hits responses))).
    { rewrite <- sorted_by_score_perm. by eapply sublist_subseteq. }
    apply keep_first_elem in Hkept as (pre & post & Hsplit & Hpre).
    by exists pre, h, post.
Qed.

(** C6, as the code has it.  Without transliteration the backend is
    called once, with the query as given; when the search returns, the
    hits returned are those of the backend's answer, context-shaped and
    then passed through the source filter or the per-source cap, in the
    order in which the backend gave them: a subsequence of the shaped
    answer, in descending order of score whenever the answer was.  Nothing
    is merged and nothing is sorted. *)
Theorem plain_search_keeps_backend_order `{UnicodeData}
    (py_list : gset str -> list str) (index_search : backend) (q : str)
    (limit limit_per_source : Z) (context_size : string)
    (source : option str) (log : call_log) (res : response) :
  search_dictionary py_list index_search q limit limit_per_source false
    context_size source = (log, Ok res) ->
  log = [(q, make_search_params limit context_size source)] /\
  exists answer shaped,
    index_search q (make_search_params limit context_size source)
      = Ok answer /\
    process_hits context_size (hits answer) = Ok shaped /\
    apply_filters source limit limit_per_source shaped = Ok (hits res) /\
    hits res `sublist_of` shaped /\
    (source_given source = false ->
     hits res = per_source_cap limit limit_per_source shaped) /\
    (descending (hits answer) -> descending (hits res)).
Proof.
  unfold search_dictionary, search_body. simpl negb. cbv iota.
  destruct (index_search q _) as [answer | e] eqn:Hanswer;
    simpl; [| discriminate].
  unfold process_search_results.
  destruct (process_hits context_size (hits answer)) as [shaped | e]
    eqn:Hshape; simpl; [| discriminate].
  destruct (apply_filters source limit limit_per_source shaped)
    as [filtered | e] eqn:Hfilter; simpl; [| discriminate].
  intros Heq. injection Heq as <- <-. split; [reflexivity |].
  exists answer, shaped. simpl.
  split; [reflexivity | split; [exact Hshape | split; [exact Hfilter |]]].
  split; [by eapply apply_filters_sublist |].
  split.
  - intros Hsource. unfold apply_filters in Hfilter.
    rewrite Hsource in Hfilter. by injection Hfilter as <-.
  - intros Hdesc. eapply sublist_descending.
    + by eapply apply_filters_sublist.
    + eapply same_descending; [| exact Hdesc].
      by eapply process_hits_source_score.
Qed.

(** ** Properties on concrete searches *)

Lemma full_context_shaping_witness :
  Forall (fun h : Hit =>
            h !! "full_context"%string = None -> definition_is_text h)
    (hits shaping_sample) /\
  exists shaped,
    process_search_results shaping_sample "full"
      = Ok (set_hits shaping_sample shaped) /\
    Forall2 full_shaped (hits shaping_sample) shaped.
Proof.
  assert (Htext : Forall (fun h : Hit =>
                    h !! "full_context"%string = None -> definition_is_text h)
                    (hits shaping_sample)).
  { repeat constructor; intros _; vm_compute; exact I. }
  split; [exact Htext |].
  exact (proj1 (full_context_shaping shaping_sample Htext)).
Defined.

Lemma per_source_capping_witness :
  (1 <= 50)%Z /\
  source_given None = false /\
  exists log res,
    @search_dictionary Fragment.unicode elements two_script_backend
      (U "tærqūs") 50 1 true "default" None = (log, Ok res) /\
    (forall s, (Z.of_nat (length (with_source s (hits res)))
                <= Z.max 0 1)%Z) /\
    (Z.of_nat (length (hits res)) <= 50)%Z /\
    descending (hits res).
Proof.
  assert (Hlimit : (1 <= 50)%Z) by lia.
  assert (Hsource : source_given None = false) by reflexivity.
  split; [exact Hlimit | split; [exact Hsource |]].
  destruct (@search_dictionary Fragment.unicode elements two_script_backend
              (U "tærqūs") 50 1 true "default" None)
    as [log [res | e]] eqn:Hrun.
  - exists log, res. split; [reflexivity |].
    destruct (@per_source_capping Fragment.unicode elements
                two_script_backend (U "tærqūs") 50 1 "default" None
                log res Hlimit Hsource Hrun)
      as (merged & _ & _ & _ & _ & Hper & Hlen & Hdesc).
    split; [exact Hper | split; [exact Hlen | exact Hdesc]].
  - vm_compute in Hrun. discriminate.
Defined.

(** C6, as stated, fails.  Without transliteration the hits of the
    backend are returned in the order of the backend's answer: an answer
    that is not in descending order of score stays as it is. *)
Lemma plain_search_not_sorted :
  @search_dictionary Fragment.unicode elements unsorted_backend
    (U "hare") 50 5 false "default" None
    = ([(U "hare", sample_params)],
       Ok (sample_response (U "hare") [doc_2; doc_3])) /\
  ranking_score doc_2 = (1 # 10)%Q /\
  ranking_score doc_3 = (9 # 10)%Q /\
  ~ descending [doc_2; doc_3].
Proof.
  split; [vm_compute; reflexivity |].
  split; [reflexivity | split; [reflexivity |]].
  intros Hd. apply StronglySorted_inv in Hd as [_ Hd].
  apply Forall_cons in Hd as [Hd _].
  unfold score_ge in Hd. vm_compute in Hd. by apply Hd.
Qed.

Lemma plain_search_keeps_backend_order_witness :
  @search_dictionary Fragment.unicode elements unsorted_backend
    (U "hare") 50 5 false "default" None
    = ([(U "hare", sample_params)],
       Ok (sample_response (U "hare") [doc_2; doc_3])) /\
  [(U "hare", sample_params)]
    = [(U "hare", make_search_params 50 "default" None)].
Proof.
  assert (Hrun : @search_dictionary Fragment.unicode elements
                   unsorted_backend (U "hare") 50 5 false "default" None
                 = ([(U "hare", sample_params)],
                    Ok (sample_response (U "hare") [doc_2; doc_3])))
    by (vm_compute; reflexivity).
  split; [exact Hrun |].
  exact (proj1 (@plain_search_keeps_backend_order Fragment.unicode elements
                  unsorted_backend (U "hare") 50 5 "default" None _ _ Hrun)).
Defined.

(** C9, as stated, fails.  The query "a" has two variants, itself and its
    Cyrillic transliteration; the backend answers the first with a hit and
    fails on the second.  In whichever order the variants are queried, the
    search raises and the hit is lost: the failure is not kept to the
    variant it came from. *)
Lemma variant_failure_not_isolated :
  @get_all_script_variants Fragment.unicode (U "a")
    = Ok {[ U "a"; U "а" ]} /\
  failing_backend (U "a") sample_params
    = Ok (sample_response (U "a") [doc_2]) /\
  failing_backend (U "а") sample_params = Raise BackendError /\
  snd (@search_dictionary Fragment.unicode elements failing_backend
         (U "a") 50 5 true "default" None)
    = Raise (RuntimeError BackendError) /\
  snd (@search_dictionary Fragment.unicode
         (fun S => reverse (elements S)) failing_backend
         (U "a") 50 5 true "default" None)
    = Raise (RuntimeError BackendError).
Proof. repeat split; vm_compute; reflexivity. Qed.

Lemma backend_failure_aborts_witness :
  (forall (S : gset str) x, x ∈ S -> x ∈ elements S) /\
  @get_all_script_variants Fragment.unicode (U "a")
    = Ok {[ U "a"; U "а" ]} /\
  U "а" ∈ ({[ U "a"; U "а" ]} : gset str) /\
  failing_backend (U "а") (make_search_params 50 "default" None)
    = Raise BackendError /\
  exists log v' e',
    @search_dictionary Fragment.unicode elements failing_backend
      (U "a") 50 5 true "default" None
      = (log ++ [(v', make_search_params 50 "default" None)],
         Raise (RuntimeError e')) /\
    failing_backend v' (make_search_params 50 "default" None) = Raise e'.
Proof.
  assert (H1 : forall (S : gset str) x, x ∈ S -> x ∈ elements S)
    by (intros S x; apply elem_of_elements).
  assert (H2 : @get_all_script_variants Fragment.unicode (U "a")
               = Ok {[ U "a"; U "а" ]}) by (vm_compute; reflexivity).
  assert (H3 : U "а" ∈ ({[ U "a"; U "а" ]} : gset str))
    by (apply (bool_decide_unpack _); vm_compute; reflexivity).
  assert (H4 : failing_backend (U "а") (make_search_params 50 "default" None)
               = Raise BackendError) by (vm_compute; reflexivity).
  split; [exact H1 | split; [exact H2 | split; [exact H3 |
    split; [exact H4 |]]]].
  exact (@backend_failure_aborts Fragment.unicode elements failing_backend
           (U "a") 50 5 "default" None _ _ _ H1 H2 H3 H4).
Defined.

(** ** The program on concrete inputs *)

Module Examples.
Import Fragment.

(** The cases of test_transliteration.py. *)
Example l2c_aevsarm : latin_to_cyrillic (U "ævsarm") = PStr (U "æвсарм").
Proof. vm_compute. reflexivity. Qed.

Example l2c_kwym : latin_to_cyrillic (U "k'ẜym") = PStr (U "къуым").
Proof. vm_compute. reflexivity. Qed.

Example l2c_qwyd : latin_to_cyrillic (U "kẜyd") = PStr (U "хъуыд").
Proof. vm_compute. reflexivity. Qed.

Example l2c_gwyr : latin_to_cyrillic (U "gẜyr") = PStr (U "гъуыр").
Proof. vm_compute. reflexivity. Qed.

Example l2c_schwa : latin_to_cyrillic (U "ә") = PStr (U "у").
Proof. vm_compute. reflexivity. Qed.

Example l2c_special : latin_to_cyrillic (U "tærqos") = PStr (U "тæрхъус").
Proof. vm_compute. reflexivity. Qed.

Example c2l_aevsarm : cyrillic_to_latin (U "æвсарм") = U "ævsarm".
Proof. vm_compute. reflexivity. Qed.

Example c2l_kwym : cyrillic_to_latin (U "къуым") = U "k'ẜym".
Proof. vm_compute. reflexivity. Qed.

Example c2l_special : cyrillic_to_latin (U "тæрхъус") = U "tærqūs".
Proof. vm_compute. reflexivity. Qed.

Example variants_chermen :
  generate_variants (U "čermen") = {[ U "čermen"; U "chermen" ]}.
Proof. vm_compute. reflexivity. Qed.

(** The trigraph хъу is one token: the output is kẜyd, not quyd (хъ, then
    у) nor huyd (х, ъ, у). *)
Example trigraph_one_token :
  tokens CYRILLIC_TO_LATIN (U "хъуыд")
    = [(U "хъу", U "kẜ"); (U "ы", U "y"); (U "д", U "d")] /\
  cyrillic_to_latin (U "хъуыд") = U "kẜyd" /\
  cyrillic_to_latin (U "Хъуыд") = U "kẜyd".
Proof. repeat split; vm_compute; reflexivity. Qed.

(** A match of two or three characters is emitted as the table has it,
    whatever the case of the input. *)
Example digraph_case : latin_to_cyrillic (U "Dz") = PStr (U "дз").
Proof. vm_compute. reflexivity. Qed.

(** The Latin word bæx is classified as Cyrillic because of its ae: its
    Cyrillic transliteration бæх is not among its variants. *)
Example bax_variants :
  get_all_script_variants (U "bæx")
    = Ok {[ U "bæx"; U "bäx"; U "bax"; U "bex" ]} /\
  cyrillic_to_latin (U "bæx") = U "bæx" /\
  latin_to_cyrillic (U "bæx") = PStr (U "бæх") /\
  U "бæх" ∉ ({[ U "bæx"; U "bäx"; U "bax"; U "bex" ]} : gset str).
Proof.
  repeat split; try (vm_compute; reflexivity).
  apply (bool_decide_unpack _). vm_compute. reflexivity.
Qed.

(** The end-to-end scenario of the specification: the Cyrillic spelling
    is among the variants of the Latin query, and the document found under
    both spellings is returned once. *)
Example hare_search :
  U "тæрхъус" ∈ match get_all_script_variants (U "tærqūs") with
                | Ok variants => variants
                | Raise _ => ∅
                end /\
  match snd (search_dictionary elements two_script_backend
               (U "tærqūs") 50 5 true "default" None) with
  | Ok res => hits res = [doc_1_latin; doc_2]
  | Raise _ => False
  end /\
  match snd (search_dictionary elements two_script_backend
               (U "tærqūs") 50 1 true "default" None) with
  | Ok res => hits res = [doc_1_latin]
  | Raise _ => False
  end.
Proof.
  split; [apply (bool_decide_unpack _); vm_compute; reflexivity |].
  split; vm_compute; reflexivity.
Qed.

(** The long s with stroke occurs in the tables inside the keys of the
    labialised consonants only; as a word it has the spelling variant w. *)
Example long_s_variants :
  get_all_script_variants (U "ẜ") = Ok {[ U "ẜ"; U "w" ]}.
Proof. vm_compute. reflexivity. Qed.

(** The global limit is tested after a hit is included: below 1 it does
    not bound the result. *)
Example cap_limit_zero : per_source_cap 0 5 [doc_2; doc_3] = [doc_2].
Proof. vm_compute. reflexivity. Qed.

End Examples.

(** ** Further properties of the variant expander *)

Section MoreVariantFacts.
Context `{UnicodeData}.

(** X2: the spelling variants of a text are the text itself and every text
    obtained by replacing the character at one position, whose lower case
    is a key of [COMMON_VARIANTS], by one of the substitutes of that key. *)
Lemma generate_variants_elem (text v : str) :
  v ∈ generate_variants text <->
  v = text \/
  exists i c subs sub,
    text !! i = Some c /\
    dict_lookup (str_lower [c]) COMMON_VARIANTS = Some subs /\
    sub ∈ subs /\
    v = take i text ++ sub ++ drop (S i) text.
Proof.
  unfold generate_variants, variants_list.
  rewrite elem_of_list_to_set, elem_of_cons.
  apply or_iff_compat_l. rewrite list_elem_of_In, in_concat.
  split.
  - intros (l & Hl & Hv). apply list_elem_of_In in Hl.
    apply elem_of_lookup_imap in Hl as (i & c & -> & Hi).
    unfold variants_at in Hv.
    destruct (dict_lookup (str_lower [c]) COMMON_VARIANTS) as [subs |] eqn:Hs.
    + rewrite (proj2 (dict_in_true _ _) (ex_intro _ subs Hs)) in Hv.
      apply in_map_iff in Hv as (sub & <- & Hsub).
      exists i, c, subs, sub. rewrite Nat.add_1_r.
      repeat split; try done. by apply list_elem_of_In.
    + rewrite (proj2 (dict_in_false _ _) Hs) in Hv. destruct Hv.
  - intros (i & c & subs & sub & Hi & Hs & Hsub & ->).
    exists (variants_at text i c). split.
    + apply list_elem_of_In, elem_of_lookup_imap. eauto.
    + unfold variants_at.
      rewrite (proj2 (dict_in_true _ _) (ex_intro _ subs Hs)), Hs.
      apply in_map_iff. exists sub. rewrite Nat.add_1_r.
      split; [done | by apply list_elem_of_In].
Qed.

End MoreVariantFacts.

(** ** Further properties of the transliterator *)

Lemma small_sigma_not_table_char : SMALL_SIGMA ∉ table_chars.
Proof. apply (bool_decide_unpack _). vm_compute. reflexivity. Qed.

Section SeparatorFacts.
Context `{UnicodeData}.
Implicit Types (D : dict str) (a b rest tail : str).

Lemma lower_from_incl before s c c' :
  c ∈ s -> c <> CAPITAL_SIGMA -> c' ∈ to_lower_full c ->
  c' ∈ lower_from before s.
Proof.
  intros Hin Hne Hc'. revert before.
  induction s as [| d s IH]; intros before; [by apply elem_of_nil in Hin |].
  simpl. apply elem_of_app.
  apply elem_of_cons in Hin as [-> | Hin].
  - left. apply N.eqb_neq in Hne. by rewrite Hne.
  - right. by apply IH.
Qed.

Lemma lower_from_sigma before s :
  CAPITAL_SIGMA ∈ s ->
  FINAL_SIGMA ∈ lower_from before s \/ SMALL_SIGMA ∈ lower_from before s.
Proof.
  intros Hin. revert before.
  induction s as [| d s IH]; intros before; [by apply elem_of_nil in Hin |].
  simpl. destruct (d =? CAPITAL_SIGMA)%N eqn:Hd.
  - destruct (final_sigma before s); [left | right];
      apply elem_of_app; left; by left.
  - apply elem_of_cons in Hin as [Heq | Hin];
      [by rewrite <- Heq, N.eqb_refl in Hd |].
    destruct (IH Hin (d :: before)); [left | right];
      apply elem_of_app; by right.
Qed.

(** The lower-casing of a text that holds a separator is no key. *)
Lemma separator_no_key {V} (d : dict V) (s : str) (c : char) :
  Forall table_key (map fst d) -> c ∈ s -> separator c ->
  dict_lookup (str_lower s) d = None.
Proof.
  intros Hkeys Hin [Hne Hout].
  destruct (dict_lookup (str_lower s) d) as [v |] eqn:Hv; [| reflexivity].
  exfalso. apply dict_lookup_key in Hv.
  rewrite Forall_forall in Hkeys. destruct (Hkeys _ Hv) as [_ Hchars].
  rewrite Forall_forall in Hchars.
  destruct (decide (c = CAPITAL_SIGMA)) as [-> | Hsigma].
  - destruct (lower_from_sigma [] s Hin) as [Hs | Hs].
    + exact (final_sigma_not_table_char (Hchars _ Hs)).
    + exact (small_sigma_not_table_char (Hchars _ Hs)).
  - rewrite char_lower_unfold in Hne, Hout.
    apply N.eqb_neq in Hsigma as Hsigma'. rewrite Hsigma' in Hne, Hout.
    destruct (to_lower_full c) as [| c' l] eqn:Hlow; [done |].
    assert (Hc' : c' ∈ str_lower s).
    { apply lower_from_incl with c; [done | done |]. rewrite Hlow. by left. }
    apply (Hout c'); [by left | by apply Hchars].
Qed.

Lemma take_extended k rest sep tail :
  (k <= length rest /\ take k (rest ++ sep :: tail) = take k rest)
  \/ (length rest < k /\ sep ∈ take k (rest ++ sep :: tail)).
Proof.
  destruct (decide (k <= length rest)) as [Hle | Hgt].
  - left. split; [done |]. by rewrite take_app_le.
  - right. split; [lia |].
    rewrite take_app_ge by lia. apply elem_of_app. right.
    destruct (k - length rest) as [| n] eqn:Hk; [lia |]. by left.
Qed.

Lemma token_step_extend D rest slice out sep tail :
  Forall table_key (map fst D) -> separator sep ->
  token_step D rest slice out ->
  token_step D (rest ++ sep :: tail) slice out.
Proof.
  intros Hkeys Hsep Hstep.
  assert (Hnone : forall k,
            (k <= length rest ->
             dict_lookup (str_lower (take k rest)) D = None) ->
            k <= length (rest ++ sep :: tail) ->
            dict_lookup (str_lower (take k (rest ++ sep :: tail))) D = None).
  { intros k Hk _.
    destruct (take_extended k rest sep tail) as [[Hle ->] | [_ Hin]];
      [by apply Hk | by eapply separator_no_key]. }
  destruct Hstep as [v H3 Hv | v N3 H2 Hv | c v N3 N2 Hhead Hv
                     | c N3 N2 Hhead Hv].
  - rewrite <- (take_app_le rest (sep :: tail) 3) by done.
    apply step_three; [rewrite length_app; lia |].
    by rewrite take_app_le.
  - rewrite <- (take_app_le rest (sep :: tail) 2) by done.
    apply step_two; [by apply Hnone | rewrite length_app; lia |].
    by rewrite take_app_le.
  - apply step_one; [by apply Hnone | by apply Hnone | | done].
    destruct rest; simplify_eq/=. done.
  - apply step_copy; [by apply Hnone | by apply Hnone | | done].
    destruct rest; simplify_eq/=. done.
Qed.

Lemma token_step_consumes D rest slice out :
  token_step D rest slice out ->
  length slice <= length rest /\ slice = take (length slice) rest.
Proof.
  intros [v H3 _ | v _ H2 _ | c v _ _ Hhead _ | c _ _ Hhead _].
  - rewrite length_take, Nat.min_l by done. done.
  - rewrite length_take, Nat.min_l by done. done.
  - destruct rest; simplify_eq/=. split; [lia | done].
  - destruct rest; simplify_eq/=. split; [lia | done].
Qed.

Lemma greedy_extend D a sep b ta tb :
  Forall table_key (map fst D) -> separator sep ->
  greedy D a ta -> greedy D (sep :: b) tb ->
  greedy D (a ++ sep :: b) (ta ++ tb).
Proof.
  intros Hkeys Hsep Ha Hb.
  induction Ha as [| rest slice out toks Hstep _ IH]; [exact Hb |].
  simpl. constructor; [by apply token_step_extend |].
  destruct (token_step_consumes _ _ _ _ Hstep) as [Hlen _].
  by rewrite drop_app_le.
Qed.

Lemma greedy_separator D sep b tb :
  Forall table_key (map fst D) -> separator sep ->
  greedy D b tb -> greedy D (sep :: b) (([sep], [sep]) :: tb).
Proof.
  intros Hkeys Hsep Hb. constructor; [| exact Hb].
  apply step_copy.
  - intros _. apply separator_no_key with sep; [done | by left | done].
  - intros _. apply separator_no_key with sep; [done | by left | done].
  - done.
  - apply separator_no_key with sep; [done | by left | done].
Qed.

Lemma scan_separator D a sep b :
  Forall table_key (map fst D) -> separator sep ->
  scan D (a ++ sep :: b) = scan D a ++ sep :: scan D b.
Proof.
  intros Hkeys Hsep.
  assert (Htoks : tokens D (a ++ sep :: b)
                  = tokens D a ++ ([sep], [sep]) :: tokens D b).
  { apply (greedy_functional D (a ++ sep :: b)); [apply tokens_greedy |].
    apply greedy_extend; [done | done | apply tokens_greedy |].
    apply greedy_separator; [done | done | apply tokens_greedy]. }
  rewrite !scan_tokens, Htoks, map_app, concat_app. reflexivity.
Qed.

End SeparatorFacts.

(** X1: a separator splits the text.  A character whose lower-casing is
    not empty and has no character of the mapping tables (a space, a digit,
    a hyphen) is copied by both transliteration functions, and the text
    before it and the text after it are transliterated independently of
    each other, by the general scan: the special-case lexicon, which is
    looked up with the whole text, does not apply to a text that holds a
    separator. *)
Theorem separator_splits `{UnicodeData} (a b : str) (sep : char) :
  separator sep ->
  latin_to_cyrillic (a ++ sep :: b)
    = PStr (scan LATIN_TO_CYRILLIC a ++ sep :: scan LATIN_TO_CYRILLIC b) /\
  cyrillic_to_latin (a ++ sep :: b)
    = scan CYRILLIC_TO_LATIN a ++ sep :: scan CYRILLIC_TO_LATIN b.
Proof.
  intros Hsep.
  assert (Hspecial : dict_in (str_lower (a ++ sep :: b)) SPECIAL_CASE_MAPPING
                     = false).
  { apply dict_in_false. apply separator_no_key with sep;
      [apply keys_are_table_keys | | done].
    apply elem_of_app. right. by left. }
  split.
  - rewrite latin_to_cyrillic_general by done. f_equal.
    apply scan_separator; [apply keys_are_table_keys | done].
  - rewrite cyrillic_to_latin_general by done.
    apply scan_separator; [apply keys_are_table_keys | done].
Qed.

Lemma space_is_separator : @separator Fragment.unicode 32%N.
Proof.
  split; [discriminate |].
  intros c' Hc'. vm_compute in Hc'.
  apply list_elem_of_singleton in Hc' as ->.
  apply (bool_decide_unpack _). vm_compute. reflexivity.
Defined.

Lemma separator_splits_witness :
  @separator Fragment.unicode 32%N /\
  @latin_to_cyrillic Fragment.unicode (U "tærqūs" ++ 32%N :: U "bæx")
    = PStr (@scan Fragment.unicode LATIN_TO_CYRILLIC (U "tærqūs")
            ++ 32%N :: @scan Fragment.unicode LATIN_TO_CYRILLIC (U "bæx")).
Proof.
  split; [exact space_is_separator |].
  exact (proj1 (@separator_splits Fragment.unicode (U "tærqūs") (U "bæx")
                  32%N space_is_separator)).
Defined.
(** ** Further properties of the query merger *)

Lemma foldl_time (responses : list response) (t : Z) :
  foldl (fun t r => (t + processingTimeMs r)%Z) t responses
    = (t + foldr Z.add 0%Z (map processingTimeMs responses))%Z.
Proof.
  revert t. induction responses as [| r rs IH]; intros t; simpl; [lia |].
  rewrite IH. lia.
Qed.

Lemma max_total_nonneg (responses : list response) :
  (0 <= foldr Z.max 0%Z (map estimatedTotalHits responses))%Z.
Proof. induction responses as [| r rs IH]; simpl; lia. Qed.

Lemma foldl_total (responses : list response) (t : Z) :
  (0 <= t)%Z ->
  foldl (fun t r => Z.max t (estimatedTotalHits r)) t responses
    = Z.max t (foldr Z.max 0%Z (map estimatedTotalHits responses)).
Proof.
  revert t. induction responses as [| r rs IH]; intros t Ht; simpl; [lia |].
  rewrite IH by lia. lia.
Qed.

(** [a in b]: [a] occurs in [b]. *)
Lemma is_substring_spec (a b : str) :
  is_substring a b = true <-> exists pre post, b = pre ++ a ++ post.
Proof.
  induction b as [| c b IH]; simpl.
  - rewrite orb_false_r, bool_decide_eq_true. split.
    + intros [post ->]. by exists [], post.
    + intros (pre & post & Heq). symmetry in Heq.
      apply app_eq_nil in Heq as [-> Heq].
      apply app_eq_nil in Heq as [-> ->]. by exists [].
  - rewrite orb_true_iff, bool_decide_eq_true, IH. split.
    + intros [[post ->] | (pre & post & ->)].
      * by exists [], post.
      * by exists (c :: pre), post.
    + intros (pre & post & Heq). destruct pre as [| c' pre].
      * left. exists post. exact Heq.
      * right. injection Heq as _ ->. by exists pre, post.
Qed.

Section FilterFacts.
Context `{UnicodeData}.
Variable py_list : gset str -> list str.

Lemma normalized_text (h : Hit) :
  source_is_text h ->
  exists s, hit_source h = VStr s /\
            normalized (hit_source h) = Ok (normalize_nfkc (str_lower s)).
Proof.
  unfold source_is_text. destruct (hit_source h) as [| s | q]; try done.
  intros _. by exists s.
Qed.

(** On hits whose source is a string the filter loop is a filter. *)
Lemma source_filter_loop_text (wanted : str) (hs f : list Hit) :
  Forall source_is_text hs ->
  source_filter_loop (normalize_nfkc (str_lower wanted)) hs f
    = Ok (f ++ filter (fun h => source_matches wanted h = true) hs).
Proof.
  intros Htext. revert f.
  induction Htext as [| x hs Hx _ IH]; intros f; simpl.
  - by rewrite app_nil_r.
  - destruct (normalized_text x Hx) as (s & Hs & Hn).
    fold (hit_source x). rewrite Hn. simpl.
    assert (Hm : source_matches wanted x
                 = is_substring (normalize_nfkc (str_lower wanted))
                                (normalize_nfkc (str_lower s))).
    { unfold source_matches. by rewrite Hs. }
    rewrite filter_cons. destruct (is_substring _ _).
    + rewrite decide_True by done. rewrite IH, <- app_assoc. done.
    + rewrite decide_False by (by rewrite Hm). apply IH.
Qed.

(** A hit whose source is not a string makes the filter loop raise. *)
Lemma source_filter_loop_raises (wanted : str) (hs f : list Hit) :
  ~ Forall source_is_text hs ->
  source_filter_loop wanted hs f = Raise AttributeError.
Proof.
  revert f. induction hs as [| x hs IH]; intros f Hbad; simpl.
  - exfalso. apply Hbad. constructor.
  - fold (hit_source x).
    destruct (hit_source x) as [| s | q] eqn:Hs; simpl; try reflexivity.
    assert (Hrest : ~ Forall source_is_text hs).
    { intros Hall. apply Hbad. constructor; [| done].
      unfold source_is_text. by rewrite Hs. }
    destruct (is_substring _ _); by apply IH.
Qed.

Lemma source_filter_loop_returns (wanted : str) (hs f out : list Hit) :
  source_filter_loop wanted hs f = Ok out -> Forall source_is_text hs.
Proof.
  revert f. induction hs as [| x hs IH]; intros f; simpl; [constructor |].
  fold (hit_source x).
  destruct (hit_source x) as [| s | q] eqn:Hs; simpl; try discriminate.
  intros Hout. constructor; [unfold source_is_text; by rewrite Hs |].
  destruct (is_substring _ _); by eapply IH.
Qed.

Lemma py_prefix_length {A} (l : list A) (limit : Z) :
  (0 <= limit)%Z -> (Z.of_nat (length (py_prefix l limit)) <= limit)%Z.
Proof.
  intros Hlimit. unfold py_prefix.
  destruct (0 <=? limit)%Z eqn:Hle; [| lia].
  rewrite length_take. lia.
Qed.

(** What the source filter returns, when it returns. *)
Lemma apply_filters_source (src : str) (limit limit_per_source : Z)
    (hs out : list Hit) :
  src <> [] ->
  apply_filters (Some src) limit limit_per_source hs = Ok out ->
  out = py_prefix (filter (fun h => source_matches src h = true) hs) limit.
Proof.
  intros Hsrc. unfold apply_filters.
  destruct src as [| c src]; [done |]. simpl source_given. cbv iota.
  simpl default.
  destruct (source_filter_loop _ hs []) as [filtered |] eqn:Hloop;
    simpl; [| discriminate].
  intros Heq. injection Heq as <-.
  pose proof (source_filter_loop_returns _ _ _ _ Hloop) as Htext.
  rewrite (source_filter_loop_text (c :: src) hs [] Htext) in Hloop.
  by injection Hloop as <-.
Qed.

(** A search without transliteration that returns. *)
Lemma search_plain (index_search : backend) (q : str)
    (limit limit_per_source : Z) (context_size : string)
    (source : option str) (log : call_log) (res : response) :
  search_dictionary py_list index_search q limit limit_per_source false
    context_size source = (log, Ok res) ->
  log = [(q, make_search_params limit context_size source)] /\
  exists answer shaped,
    index_search q (make_search_params limit context_size source)
      = Ok answer /\
    process_hits context_size (hits answer) = Ok shaped /\
    apply_filters source limit limit_per_source shaped = Ok (hits res) /\
    res = set_hits answer (hits res).
Proof.
  unfold search_dictionary, search_body. simpl negb. cbv iota.
  destruct (index_search q _) as [answer | e] eqn:Hanswer;
    simpl; [| discriminate].
  unfold process_search_results.
  destruct (process_hits context_size (hits answer)) as [shaped | e]
    eqn:Hshape; simpl; [| discriminate].
  destruct (apply_filters source limit limit_per_source shaped)
    as [filtered | e] eqn:Hfilter; simpl; [| discriminate].
  intros Heq. injection Heq as <- <-. split; [reflexivity |].
  exists answer, shaped. simpl. done.
Qed.

(** A search with transliteration that returns, with the fields of the
    response. *)
Lemma search_merged (index_search : backend) (q : str)
    (limit limit_per_source : Z) (context_size : string)
    (source : option str) (log : call_log) (res : response) :
  search_dictionary py_list index_search q limit limit_per_source true
    context_size source = (log, Ok res) ->
  exists variants responses filtered,
    get_all_script_variants q = Ok variants /\
    Forall2 (fun v r =>
               index_search v (make_search_params limit context_size source)
               = Ok r) (py_list variants) responses /\
    log = map (fun v => (v, make_search_params limit context_size source))
              (py_list variants) /\
    apply_filters source limit limit_per_source
      (sorted_by_score (keep_first ∅ (concat (map hits responses))))
      = Ok filtered /\
    process_hits context_size filtered = Ok (hits res) /\
    query res = q /\
    processingTimeMs res = foldr Z.add 0%Z (map processingTimeMs responses) /\
    estimatedTotalHits res
      = foldr Z.max 0%Z (map estimatedTotalHits responses).
Proof.
  unfold search_dictionary, search_body. simpl negb. cbv iota.
  destruct (get_all_script_variants q) as [variants | e]; [| discriminate].
  destruct (variants_loop _ _ _ _ _ _) as [log' looped] eqn:Hloop.
  destruct looped as [merged | e]; simpl; [| discriminate].
  destruct (apply_filters _ _ _ _) as [filtered | e] eqn:Hfilter;
    simpl; [| discriminate].
  unfold process_search_results. simpl.
  destruct (process_hits context_size filtered) as [shaped | e] eqn:Hshape;
    simpl; [| discriminate].
  intros Heq. injection Heq as <- <-.
  destruct (variants_loop_answers _ _ _ _ _ _ _ _ Hloop) as [responses Hall].
  rewrite (variants_loop_ok _ _ _ _ _ _ _ Hall) in Hloop.
  injection Hloop as <- <-. simpl in Hfilter.
  exists variants, responses, filtered. simpl.
  repeat apply conj; try done.
  - rewrite foldl_time. lia.
  - rewrite foldl_total by lia. pose proof (max_total_nonneg responses). lia.
Qed.

Lemma process_hits_matches (wanted : str) (context_size : string)
    (hs hs' : list Hit) :
  process_hits context_size hs = Ok hs' ->
  Forall (fun h => source_matches wanted h = true) hs ->
  Forall (fun h => source_matches wanted h = true) hs'.
Proof.
  intros Hshape. apply process_hits_source_score in Hshape.
  induction Hshape as [| h h' l l' [Hsrc _] _ IH]; [done |].
  intros Hall. apply Forall_cons in Hall as [Hh Hl].
  constructor; [| by apply IH].
  unfold source_matches in *. by rewrite Hsrc.
Qed.

End FilterFacts.



(** X4: the bookkeeping of a search with transliteration.  When the search
    returns, the backend was called once for every variant of the query, in
    the order in which the set of variants was listed, each time with the
    same parameters, and every call answered; the response carries the
    query as given, the sum of the processing times of the answers and the
    largest of their estimated totals (0 when there is no answer). *)
Theorem transliterated_search_accounting `{UnicodeData}
    (py_list : gset str -> list str) (index_search : backend) (q : str)
    (limit limit_per_source : Z) (context_size : string)
    (source : option str) (log : call_log) (res : response) :
  search_dictionary py_list index_search q limit limit_per_source true
    context_size source = (log, Ok res) ->
  exists variants responses,
    get_all_script_variants q = Ok variants /\
    Forall2 (fun v r =>
               index_search v (make_search_params limit context_size source)
               = Ok r) (py_list variants) responses /\
    log = map (fun v => (v, make_search_params limit context_size source))
              (py_list variants) /\
    query res = q /\
    processingTimeMs res
      = foldr Z.add 0%Z (map processingTimeMs responses) /\
    estimatedTotalHits res
      = foldr Z.max 0%Z (map estimatedTotalHits responses).
Proof.
  intros Hrun. apply search_merged in Hrun
    as (variants & responses & filtered & Hv & Hall & Hlog & _ & _
        & Hq & Ht & He).
  exists variants, responses. done.
Qed.

Lemma transliterated_search_accounting_witness :
  exists log res,
    @search_dictionary Fragment.unicode elements two_script_backend
      (U "tærqūs") 50 5 true "default" None = (log, Ok res) /\
    query res = U "tærqūs" /\
    exists responses,
      length responses = length log /\
      processingTimeMs res
        = foldr Z.add 0%Z (map processingTimeMs responses) /\
      estimatedTotalHits res
        = foldr Z.max 0%Z (map estimatedTotalHits responses).
Proof.
  destruct (@search_dictionary Fragment.unicode elements two_script_backend
              (U "tærqūs") 50 5 true "default" None)
    as [log [res | e]] eqn:Hrun.
  - exists log, res. split; [reflexivity |].
    destruct (@transliterated_search_accounting Fragment.unicode elements
                two_script_backend (U "tærqūs") 50 5 "default" None
                log res Hrun)
      as (variants & responses & _ & Hall & Hlog & Hq & Ht & He).
    split; [exact Hq |]. exists responses.
    split; [| split; [exact Ht | exact He]].
    rewrite Hlog, length_map. symmetry. exact (Forall2_length _ _ _ Hall).
  - vm_compute in Hrun. discriminate.
Defined.

Lemma search_returns_first_seen_witness :
  exists log res,
    @search_dictionary Fragment.unicode elements two_script_backend
      (U "tærqūs") 50 5 true "default" None = (log, Ok res) /\
    NoDup (hit_id <$> hits res).
Proof.
  destruct (@search_dictionary Fragment.unicode elements two_script_backend
              (U "tærqūs") 50 5 true "default" None)
    as [log [res | e]] eqn:Hrun.
  - exists log, res. split; [reflexivity |].
    destruct (@search_returns_first_seen Fragment.unicode elements
                two_script_backend (U "tærqūs") 50 5 "default" None
                log res Hrun)
      as (variants & responses & _ & _ & Hnodup & _).
    exact Hnodup.
  - vm_compute in Hrun. discriminate.
Defined.



(** X7: the source filter.  With a non-empty source filter, and hits whose
    source is a string or missing, the hits kept are exactly those whose
    lower-cased, NFKC-normalised source contains the lower-cased,
    NFKC-normalised filter, in their order, cut to the first [limit] of
    them; the per-source cap is not applied.  A hit whose source is not a
    string ([null], a number) makes the filter raise. *)
Theorem source_filter_selects `{UnicodeData} (src : str)
    (limit limit_per_source : Z) (hs : list Hit) :
  src <> [] ->
  (Forall source_is_text hs ->
   apply_filters (Some src) limit limit_per_source hs
     = Ok (py_prefix (filter (fun h => source_matches src h = true) hs)
             limit)) /\
  (~ Forall source_is_text hs ->
   apply_filters (Some src) limit limit_per_source hs
     = Raise AttributeError) /\
  (forall h,
     source_matches src h = true <->
     exists s pre post,
       hit_source h = VStr s /\
       normalize_nfkc (str_lower s)
         = pre ++ normalize_nfkc (str_lower src) ++ post).
Proof.
  intros Hsrc. destruct src as [| c src]; [done |].
  unfold apply_filters. simpl source_given. cbv iota. simpl default.
  split; [| split].
  - intros Htext.
    by rewrite (source_filter_loop_text (c :: src) hs [] Htext).
  - intros Hbad. by rewrite (source_filter_loop_raises _ hs [] Hbad).
  - intros h. unfold source_matches.
    destruct (hit_source h) as [| s | q0].
    + split; [discriminate | intros (s & ? & ? & ? & _); discriminate].
    + rewrite is_substring_spec. split.
      * intros (pre & post & Heq). by exists s, pre, post.
      * intros (s' & pre & post & Hs' & Heq). injection Hs' as <-.
        by exists pre, post.
    + split; [discriminate | intros (s & ? & ? & ? & _); discriminate].
Qed.

Lemma source_filter_selects_witness :
  U "b.html" <> [] /\
  Forall source_is_text [doc_1_latin; doc_3; doc_2] /\
  @apply_filters Fragment.unicode (Some (U "b.html")) 50 5
    [doc_1_latin; doc_3; doc_2] = Ok [doc_3].
Proof.
  assert (Hsrc : U "b.html" <> []) by discriminate.
  assert (Htext : Forall source_is_text [doc_1_latin; doc_3; doc_2])
    by (repeat constructor).
  split; [exact Hsrc | split; [exact Htext |]].
  rewrite (proj1 (@source_filter_selects Fragment.unicode (U "b.html") 50 5
                    [doc_1_latin; doc_3; doc_2] Hsrc) Htext).
  vm_compute. reflexivity.
Defined.

(** X8: a search with a source filter.  With or without transliteration,
    a search with a non-empty source filter that returns has asked the
    backend for 100 hits in every call, and every hit it returns has a
    source that contains the filter (both lower-cased and normalised);
    with a limit that is not negative it returns at most [limit] hits. *)
Theorem source_filter_search `{UnicodeData}
    (py_list : gset str -> list str) (index_search : backend) (q src : str)
    (limit limit_per_source : Z) (use_transliteration : bool)
    (context_size : string) (log : call_log) (res : response) :
  src <> [] ->
  search_dictionary py_list index_search q limit limit_per_source
    use_transliteration context_size (Some src) = (log, Ok res) ->
  Forall (fun call => sp_limit (snd call) = 100%Z) log /\
  Forall (fun h => source_matches src h = true) (hits res) /\
  ((0 <= limit)%Z -> (Z.of_nat (length (hits res)) <= limit)%Z).
Proof.
  intros Hsrc Hrun.
  assert (Hparams : sp_limit (make_search_params limit context_size (Some src))
                    = 100%Z).
  { destruct src; [done | reflexivity]. }
  assert (Hkept : forall hs,
            Forall (fun h => source_matches src h = true)
              (py_prefix (filter (fun h => source_matches src h = true) hs)
                 limit)).
  { intros hs. apply Forall_forall. intros h Hh.
    apply (sublist_subseteq _ _ (py_prefix_sublist _ limit)) in Hh.
    by apply list_elem_of_filter in Hh as [Hh _]. }
  destruct use_transliteration.
  - apply search_merged in Hrun
      as (variants & responses & filtered & _ & _ & -> & Hfilter & Hshape
          & _).
    apply apply_filters_source in Hfilter; [| exact Hsrc]. subst filtered.
    split; [| split].
    + apply Forall_forall. intros call Hcall.
      apply list_elem_of_fmap in Hcall as (v & -> & _). exact Hparams.
    + eapply process_hits_matches; [exact Hshape | apply Hkept].
    + intros Hlimit.
      apply process_hits_source_score, same_length in Hshape.
      rewrite Hshape. by apply py_prefix_length.
  - apply search_plain in Hrun
      as (-> & answer & shaped & _ & _ & Hfilter & _).
    apply apply_filters_source in Hfilter; [| exact Hsrc].
    rewrite Hfilter. split; [| split].
    + by repeat constructor.
    + apply Hkept.
    + intros Hlimit. by apply py_prefix_length.
Qed.

Lemma source_filter_search_witness :
  U "a.html" <> [] /\
  exists log res,
    @search_dictionary Fragment.unicode elements two_script_backend
      (U "tærqūs") 50 5 true "default" (Some (U "a.html"))
      = (log, Ok res) /\
    Forall (fun h => @source_matches Fragment.unicode (U "a.html") h = true)
      (hits res).
Proof.
  assert (Hsrc : U "a.html" <> []) by discriminate.
  split; [exact Hsrc |].
  destruct (@search_dictionary Fragment.unicode elements two_script_backend
              (U "tærqūs") 50 5 true "default" (Some (U "a.html")))
    as [log [res | e]] eqn:Hrun.
  - exists log, res. split; [reflexivity |].
    exact (proj1 (proj2
             (@source_filter_search Fragment.unicode elements
                two_script_backend (U "tærqūs") (U "a.html") 50 5 true
                "default" log res Hsrc Hrun))).
  - vm_compute in Hrun. discriminate.
Defined.

(** X9: the per-source cap without transliteration.  With a limit of at
    least 1 and no source filter, a search without transliteration returns
    at most [limit] hits and at most [limit_per_source] hits of any one
    source. *)
Theorem plain_search_capped `{UnicodeData}
    (py_list : gset str -> list str) (index_search : backend) (q : str)
    (limit limit_per_source : Z) (context_size : string)
    (source : option str) (log : call_log) (res : response) :
  (1 <= limit)%Z ->
  source_given source = false ->
  search_dictionary py_list index_search q limit limit_per_source false
    context_size source = (log, Ok res) ->
  (Z.of_nat (length (hits res)) <= limit)%Z /\
  forall s, (Z.of_nat (length (with_source s (hits res)))
             <= Z.max 0 limit_per_source)%Z.
Proof.
  intros Hlimit Hsource Hrun.
  apply search_plain in Hrun as (_ & answer & shaped & _ & _ & Hfilter & _).
  unfold apply_filters in Hfilter. rewrite Hsource in Hfilter.
  injection Hfilter as <-. unfold per_source_cap. split.
  - apply cap_loop_length. by apply cap_inv_start.
  - intros s. apply cap_loop_per_source; [by apply cap_inv_start |].
    simpl. lia.
Qed.

Lemma plain_search_capped_witness :
  (1 <= 1)%Z /\
  source_given None = false /\
  exists log res,
    @search_dictionary Fragment.unicode elements unsorted_backend
      (U "hare") 1 5 false "default" None = (log, Ok res) /\
    (Z.of_nat (length (hits res)) <= 1)%Z.
Proof.
  assert (Hlimit : (1 <= 1)%Z) by lia.
  assert (Hsource : source_given None = false) by reflexivity.
  split; [exact Hlimit | split; [exact Hsource |]].
  destruct (@search_dictionary Fragment.unicode elements unsorted_backend
              (U "hare") 1 5 false "default" None)
    as [log [res | e]] eqn:Hrun.
  - exists log, res. split; [reflexivity |].
    exact (proj1 (@plain_search_capped Fragment.unicode elements
                    unsorted_backend (U "hare") 1 5 "default" None
                    log res Hlimit Hsource Hrun)).
  - vm_compute in Hrun. discriminate.
Defined.

(** ** Further properties of the context shaping *)

Lemma process_hit_context_keys (context_size : string) (h h' : Hit) :
  process_hit context_size h = Ok h' -> context_keys_shaped context_size h'.
Proof.
  unfold process_hit, context_keys_shaped.
  case_bool_decide as Hdefault.
  { intros Heq. injection Heq as <-. subst context_size.
    split; [intros _ | split; discriminate].
    set (h1 := if bool_decide (is_Some (h !! "expanded_context"%string))
               then delete "expanded_context"%string h else h).
    assert (H1 : h1 !! "expanded_context"%string = None).
    { unfold h1. case_bool_decide as Hk;
        [apply lookup_delete_eq | by apply eq_None_not_Some]. }
    case_bool_decide as Hk2.
    - split; [by rewrite lookup_delete_ne | apply lookup_delete_eq].
    - split; [done | by apply eq_None_not_Some]. }
  case_bool_decide as Hexpanded.
  { subst context_size. intros Hrun.
    split; [discriminate | split; [intros _ | discriminate]].
    case_bool_decide as Hk; simpl in Hrun.
    - injection Hrun as <-. exact Hk.
    - destruct (generate_expanded_context _ _) as [ctx |];
        simpl in Hrun; [| discriminate].
      injection Hrun as <-. rewrite lookup_insert_eq. eauto. }
  case_bool_decide as Hfull.
  { subst context_size. intros Hrun.
    split; [discriminate | split; [discriminate | intros _]].
    destruct (h !! "full_context"%string) as [v |] eqn:Hk.
    - injection Hrun as <-.
      rewrite lookup_delete_eq, lookup_delete_ne, lookup_insert_eq by done.
      eauto.
    - destruct (generate_expanded_context _ _) as [ctx |];
        simpl in Hrun; [| discriminate].
      injection Hrun as <-.
      rewrite lookup_insert_eq, lookup_insert_ne by done. eauto. }
  intros _. done.
Qed.

Lemma process_hit_expanded (h : Hit) :
  (h !! "expanded_context"%string = None -> definition_is_text h) ->
  exists h', process_hit "expanded" h = Ok h' /\ expanded_shaped h h'.
Proof.
  intros Htext. unfold process_hit, expanded_shaped.
  rewrite bool_decide_eq_false_2 by discriminate.
  rewrite bool_decide_eq_true_2 by reflexivity.
  destruct (h !! "expanded_context"%string) as [v |] eqn:Hk.
  - rewrite bool_decide_eq_true_2 by eauto. simpl.
    exists h. rewrite Hk. done.
  - rewrite bool_decide_eq_false_2 by (intros [? ?]; discriminate). simpl.
    specialize (Htext eq_refl). unfold definition_is_text in Htext.
    destruct (hit_get "definition" (VStr []) h) as [| [| c d] | q] eqn:Hdef;
      [| | | done].
    + eexists. split; [reflexivity |].
      split; [intros k Hne; by rewrite lookup_insert_ne |
              by rewrite lookup_insert_eq].
    + eexists. split; [reflexivity |].
      split; [intros k Hne; by rewrite lookup_insert_ne |
              by rewrite lookup_insert_eq].
    + eexists. split; [reflexivity |].
      split; [intros k Hne; by rewrite lookup_insert_ne |
              by rewrite lookup_insert_eq].
Qed.

Lemma process_hits_expanded (hs : list Hit) :
  Forall (fun h => h !! "expanded_context"%string = None
                   -> definition_is_text h) hs ->
  exists shaped,
    process_hits "expanded" hs = Ok shaped /\
    Forall2 expanded_shaped hs shaped.
Proof.
  induction 1 as [| h hs Hh _ (shaped & Hshaped & Hall)].
  - exists []. split; [reflexivity | constructor].
  - destruct (process_hit_expanded h Hh) as (h' & Hh' & Hs).
    exists (h' :: shaped). simpl. rewrite Hh', Hshaped. simpl.
    split; [reflexivity | by constructor].
Qed.

Lemma process_hits_elem (context_size : string) (hs hs' : list Hit)
    (h' : Hit) :
  process_hits context_size hs = Ok hs' -> h' ∈ hs' ->
  exists h, h ∈ hs /\ process_hit context_size h = Ok h'.
Proof.
  intros Hshape Hin. apply process_hits_each in Hshape.
  induction Hshape as [| h h'' l l' Hh _ IH]; [by apply elem_of_nil in Hin |].
  apply elem_of_cons in Hin as [-> | Hin].
  - exists h. split; [by left | done].
  - destruct (IH Hin) as (h0 & Hin0 & Hp). exists h0. split; [by right | done].
Qed.

(** X11: context shaping touches the context keys only.  When
    [process_search_results] returns, whatever the context size, the
    response has the same query, processing time and estimated total, the
    same number of hits in the same order, and every hit agrees with the
    hit it was made from on every key but [expanded_context] and
    [full_context]. *)
Theorem shaping_keeps_other_fields (results shaped : response)
    (context_size : string) :
  process_search_results results context_size = Ok shaped ->
  query shaped = query results /\
  processingTimeMs shaped = processingTimeMs results /\
  estimatedTotalHits shaped = estimatedTotalHits results /\
  Forall2 same_but_context (hits results) (hits shaped).
Proof.
  unfold process_search_results.
  destruct (process_hits context_size (hits results)) as [hs |] eqn:Hshape;
    simpl; [| discriminate].
  intros Heq. injection Heq as <-. simpl.
  repeat apply conj; try reflexivity.
  apply process_hits_each in Hshape.
  induction Hshape as [| h h' l l' Hh _ IH]; constructor; [| exact IH].
  intros k Hk1 Hk2. by eapply process_hit_keeps.
Qed.

Lemma shaping_keeps_other_fields_witness :
  exists shaped,
    process_search_results shaping_sample "full" = Ok shaped /\
    query shaped = query shaping_sample /\
    Forall2 same_but_context (hits shaping_sample) (hits shaped).
Proof.
  destruct (process_search_results shaping_sample "full")
    as [shaped | e] eqn:Hrun.
  - exists shaped. split; [reflexivity |].
    destruct (shaping_keeps_other_fields shaping_sample shaped "full" Hrun)
      as (Hq & _ & _ & Hall).
    split; [exact Hq | exact Hall].
  - vm_compute in Hrun. discriminate.
Defined.

(** X12: the context keys of the hits a search returns.  With or without
    transliteration and whatever the filter: with the context size
    [default] no hit returned has an [expanded_context] or a
    [full_context]; with [expanded] every hit returned has an
    [expanded_context]; with [full] every hit returned has an
    [expanded_context] and none has a [full_context]. *)
Theorem search_context_keys `{UnicodeData}
    (py_list : gset str -> list str) (index_search : backend) (q : str)
    (limit limit_per_source : Z) (use_transliteration : bool)
    (context_size : string) (source : option str)
    (log : call_log) (res : response) :
  search_dictionary py_list index_search q limit limit_per_source
    use_transliteration context_size source = (log, Ok res) ->
  Forall (context_keys_shaped context_size) (hits res).
Proof.
  intros Hrun. apply Forall_forall. intros h' Hh'.
  destruct use_transliteration.
  - apply search_merged in Hrun
      as (variants & responses & filtered & _ & _ & _ & _ & Hshape & _).
    destruct (process_hits_elem _ _ _ _ Hshape Hh') as (h & _ & Hp).
    by eapply process_hit_context_keys.
  - apply search_plain in Hrun
      as (_ & answer & shaped & _ & Hshape & Hfilter & _).
    apply apply_filters_sublist in Hfilter.
    apply (sublist_subseteq _ _ Hfilter) in Hh'.
    destruct (process_hits_elem _ _ _ _ Hshape Hh') as (h & _ & Hp).
    by eapply process_hit_context_keys.
Qed.

Lemma search_context_keys_witness :
  exists log res,
    @search_dictionary Fragment.unicode elements two_script_backend
      (U "tærqūs") 50 5 true "full" None = (log, Ok res) /\
    Forall (context_keys_shaped "full") (hits res).
Proof.
  destruct (@search_dictionary Fragment.unicode elements two_script_backend
              (U "tærqūs") 50 5 true "full" None)
    as [log [res | e]] eqn:Hrun.
  - exists log, res. split; [reflexivity |].
    exact (@search_context_keys Fragment.unicode elements
             two_script_backend (U "tærqūs") 50 5 true "full" None
             log res Hrun).
  - vm_compute in Hrun. discriminate.
Defined.

(** X13: context shaping for the size [expanded].  When every hit without
    an [expanded_context] has a definition that is text, shaping returns,
    and it leaves a hit that has an [expanded_context] as it is, whatever
    the value under that key; a hit without one gets the definition
    followed by the expanded-view note, or [None] when the definition is
    empty or missing.  No [full_context] is removed. *)
Theorem expanded_context_shaping (results : response) :
  Forall (fun h => h !! "expanded_context"%string = None
                   -> definition_is_text h) (hits results) ->
  exists shaped,
    process_search_results results "expanded"
      = Ok (set_hits results shaped) /\
    Forall2 expanded_shaped (hits results) shaped.
Proof.
  intros Htext. destruct (process_hits_expanded _ Htext) as (shaped & Hs & Hall).
  exists shaped. unfold process_search_results. rewrite Hs. done.
Qed.

Lemma expanded_context_shaping_witness :
  Forall (fun h : Hit => h !! "expanded_context"%string = None
                         -> definition_is_text h) (hits shaping_sample) /\
  exists shaped,
    process_search_results shaping_sample "expanded"
      = Ok (set_hits shaping_sample shaped) /\
    Forall2 expanded_shaped (hits shaping_sample) shaped.
Proof.
  assert (Htext : Forall (fun h : Hit =>
                            h !! "expanded_context"%string = None
                            -> definition_is_text h) (hits shaping_sample)).
  { repeat constructor. }
  split; [exact Htext |].
  exact (expanded_context_shaping shaping_sample Htext).
Defined.

(** ** Further properties of the per-source cap *)

(** X10: the cap drops nothing that fits.  A hit list that is within the
    limit and has at most [limit_per_source] hits of every source passes
    the per-source cap unchanged. *)
Theorem cap_keeps_what_fits (limit limit_per_source : Z) (hs : list Hit) :
  (Z.of_nat (length hs) <= limit)%Z ->
  (forall s, (Z.of_nat (length (with_source s hs)) <= limit_per_source)%Z) ->
  per_source_cap limit limit_per_source hs = hs.
Proof.
  induction hs as [| h pre IH] using rev_ind; [reflexivity |].
  intros Hlen Hper. rewrite length_app in Hlen. simpl in Hlen.
  assert (Hpre : per_source_cap limit limit_per_source pre = pre).
  { apply IH; [lia |]. intros s. specialize (Hper s).
    rewrite with_source_snoc in Hper. lia. }
  unfold per_source_cap in *.
  rewrite cap_loop_snoc by (apply cap_inv_start; lia).
  cbv zeta. rewrite Hpre.
  specialize (Hper (hit_source h)). rewrite with_source_snoc in Hper.
  rewrite decide_True in Hper by done.
  replace (Z.of_nat (length pre) <? limit)%Z with true
    by (symmetry; apply Z.ltb_lt; lia).
  replace (Z.of_nat (length (with_source (hit_source h) pre))
           <? limit_per_source)%Z with true
    by (symmetry; apply Z.ltb_lt; lia).
  reflexivity.
Qed.

Lemma cap_keeps_what_fits_witness :
  (Z.of_nat (length [doc_1_latin; doc_3; doc_2]) <= 5)%Z /\
  (forall s, (Z.of_nat (length (with_source s [doc_1_latin; doc_3; doc_2]))
              <= 2)%Z) /\
  per_source_cap 5 2 [doc_1_latin; doc_3; doc_2]
    = [doc_1_latin; doc_3; doc_2].
Proof.
  assert (Hlen : (Z.of_nat (length [doc_1_latin; doc_3; doc_2]) <= 5)%Z)
    by (simpl; lia).
  assert (Hper : forall s,
            (Z.of_nat (length (with_source s [doc_1_latin; doc_3; doc_2]))
             <= 2)%Z).
  { intros s. unfold with_source. rewrite !filter_cons, filter_nil.
    change (hit_source doc_1_latin) with (VStr (U "A.html")).
    change (hit_source doc_2) with (VStr (U "A.html")).
    change (hit_source doc_3) with (VStr (U "B.html")).
    destruct (decide (VStr (U "A.html") = s)) as [<- |];
      destruct (decide (VStr (U "B.html") = _)) as [Heq |];
      try discriminate Heq; simpl; lia. }
  split; [exact Hlen | split; [exact Hper |]].
  exact (cap_keeps_what_fits 5 2 [doc_1_latin; doc_3; doc_2] Hlen Hper).
Defined.

(** ** Properties of the text cleaning *)

Lemma str_join_cons (sep x : str) (l : list str) :
  l <> [] -> str_join sep (x :: l) = x ++ sep ++ str_join sep l.
Proof. destruct l; [done | reflexivity]. Qed.

Section CleaningFacts.
Context `{Whitespace}.
Implicit Types (s t w : str) (c : char).

Lemma lstrip_length s : length (lstrip s) <= length s.
Proof.
  induction s as [| c s IH]; simpl; [lia |].
  destruct (is_space c); simpl; lia.
Qed.

Lemma rstrip_length s : length (rstrip s) <= length s.
Proof.
  induction s as [| c s IH]; simpl; [lia |].
  destruct (rstrip s); [destruct (is_space c) |]; simpl in *; lia.
Qed.

Lemma sub_spaces_length in_run s : length (sub_spaces in_run s) <= length s.
Proof.
  revert in_run. induction s as [| c s IH]; intros in_run; simpl; [lia |].
  destruct (is_space c); [destruct in_run |]; simpl;
    match goal with
    | |- context [sub_spaces ?b s] => specialize (IH b)
    end; lia.
Qed.

Lemma clean_text_length t :
  length (clean_text t) <= length (strip t) /\ length (strip t) <= length t.
Proof.
  unfold clean_text, strip. split; [apply sub_spaces_length |].
  etransitivity; [apply rstrip_length | apply lstrip_length].
Qed.

Lemma rstrip_word_char c s :
  is_space c = false -> rstrip (c :: s) = c :: rstrip s.
Proof. intros Hc. simpl. rewrite Hc. by destruct (rstrip s). Qed.

(** Stripping on the left can wait: the substitution skips a leading run
    when it is told that one was replaced. *)
Lemma sub_spaces_lstrip t :
  sub_spaces false (rstrip (lstrip t)) = sub_spaces true (rstrip t).
Proof.
  induction t as [| c t IH]; [reflexivity |].
  destruct (is_space c) eqn:Hc.
  - simpl lstrip. rewrite Hc, IH. simpl rstrip.
    destruct (rstrip t) as [| d r]; [by rewrite Hc |].
    simpl. by rewrite Hc.
  - simpl lstrip. rewrite Hc, rstrip_word_char by done.
    simpl. by rewrite Hc.
Qed.

Lemma split_from_not_nil w s : w <> [] -> split_from w s <> [].
Proof.
  revert w. induction s as [| c s IH]; intros w Hw; simpl.
  - by destruct w.
  - destruct (is_space c); [by destruct w |].
    apply IH. by destruct w.
Qed.

(** The words joined by single spaces are what the substitution makes of
    the stripped text. *)
Lemma join_split_from s :
  (forall w, w <> [] ->
     str_join [SPACE] (split_from w s)
       = w ++ sub_spaces false (rstrip s)) /\
  str_join [SPACE] (split_from [] s) = sub_spaces true (rstrip s) /\
  (split_from [] s = [] <-> rstrip s = []).
Proof.
  induction s as [| c s (IHw & IHnil & IHempty)].
  - split; [| split; [reflexivity | done]].
    intros w Hw. simpl. destruct w; [done |]. simpl. by rewrite app_nil_r.
  - destruct (is_space c) eqn:Hc.
    + split; [| split].
      * intros w Hw. simpl. rewrite Hc.
        destruct w as [| c0 w0]; [done |].
        destruct (rstrip s) as [| d r] eqn:Hr.
        -- rewrite (proj2 IHempty eq_refl). simpl. by rewrite app_nil_r.
        -- rewrite str_join_cons
             by (intros Hnil; apply IHempty in Hnil; discriminate).
           rewrite IHnil. simpl sub_spaces. rewrite Hc. reflexivity.
      * simpl. rewrite Hc.
        destruct (rstrip s) as [| d r] eqn:Hr.
        -- by rewrite (proj2 IHempty eq_refl).
        -- rewrite IHnil. simpl. by rewrite Hc.
      * simpl. rewrite Hc. rewrite IHempty.
        destruct (rstrip s); [done |]. split; discriminate.
    + split; [| split].
      * intros w Hw. simpl split_from. rewrite Hc.
        rewrite IHw by (by destruct w).
        rewrite rstrip_word_char by done. simpl. rewrite Hc.
        by rewrite <- app_assoc.
      * simpl split_from. rewrite Hc. rewrite IHw by done.
        rewrite rstrip_word_char by done. simpl. by rewrite Hc.
      * simpl split_from. rewrite Hc, rstrip_word_char by done.
        split; [| discriminate].
        intros Hnil. by apply split_from_not_nil in Hnil.
Qed.

Lemma clean_text_join_split t :
  clean_text t = str_join [SPACE] (str_split t).
Proof.
  unfold clean_text, strip, str_split.
  rewrite sub_spaces_lstrip. symmetry. apply join_split_from.
Qed.

Lemma split_from_words w s :
  Forall (fun c => is_space c = false) w ->
  Forall word (split_from w s).
Proof.
  revert w. induction s as [| c s IH]; intros w Hw; simpl.
  - destruct w; [constructor |]. constructor; [by split | constructor].
  - destruct (is_space c) eqn:Hc.
    + destruct w; [by apply IH |].
      constructor; [by split | by apply IH].
    + apply IH. apply Forall_app. split; [done | by repeat constructor].
Qed.

Lemma split_from_concat w s :
  concat (split_from w s)
    = w ++ filter (fun c => is_space c = false) s.
Proof.
  revert w. induction s as [| c s IH]; intros w; simpl.
  - destruct w; simpl; by rewrite ?app_nil_r.
  - rewrite filter_cons. destruct (is_space c) eqn:Hc.
    + rewrite decide_False by discriminate.
      destruct w; simpl; by rewrite IH.
    + rewrite decide_True by done.
      by rewrite IH, <- app_assoc.
Qed.

Lemma split_from_word_prefix w x s :
  Forall (fun c => is_space c = false) x ->
  split_from w (x ++ s) = split_from (w ++ x) s.
Proof.
  revert w. induction x as [| c x IH]; intros w Hx; simpl.
  - by rewrite app_nil_r.
  - apply Forall_cons in Hx as [Hc Hx]. rewrite Hc.
    rewrite IH by done. by rewrite <- app_assoc.
Qed.

Lemma split_from_space w s :
  is_space SPACE = true -> w <> [] ->
  split_from ([] ++ w) (SPACE :: s) = w :: split_from [] s.
Proof. intros Hspace Hw. simpl. rewrite Hspace. by destruct w. Qed.

Lemma split_join_space ws :
  is_space SPACE = true -> Forall word ws ->
  str_split (str_join [SPACE] ws) = ws.
Proof.
  intros Hspace. unfold str_split.
  induction 1 as [| x ws [Hne Hx] _ IH]; [reflexivity |].
  destruct ws as [| y ws].
  - simpl str_join. rewrite <- (app_nil_r x) at 1.
    rewrite split_from_word_prefix by done. simpl. by destruct x.
  - rewrite str_join_cons by done.
    rewrite split_from_word_prefix by done.
    change ([SPACE] ++ str_join [SPACE] (y :: ws))
      with (SPACE :: str_join [SPACE] (y :: ws)).
    rewrite split_from_space by done. by rewrite IH.
Qed.

Lemma join_no_space ws :
  is_space SPACE = false -> Forall word ws ->
  Forall (fun c => is_space c = false) (str_join [SPACE] ws).
Proof.
  intros Hspace. induction 1 as [| x ws [_ Hx] _ IH]; [constructor |].
  destruct ws as [| y ws]; [done |].
  rewrite str_join_cons by done.
  apply Forall_app. split; [done |]. by constructor.
Qed.

Lemma strip_nil_clean t : strip t = [] -> clean_text t = [].
Proof. unfold clean_text. by intros ->. Qed.

End CleaningFacts.

(** X14: what [clean_text] returns.  The result is the words of the text,
    its maximal runs of characters that are not whitespace, joined by
    single spaces ([" ".join(text.split())]): every word is non-empty
    and free of whitespace, and the words together are the characters of
    the text that are not whitespace, in order.  The result is never longer
    than the text. *)
Theorem clean_text_words `{Whitespace} (text : str) :
  clean_text text = str_join [SPACE] (str_split text) /\
  Forall word (str_split text) /\
  concat (str_split text) = filter (fun c => is_space c = false) text /\
  length (clean_text text) <= length text.
Proof.
  split; [apply clean_text_join_split |].
  split; [apply split_from_words; constructor |].
  split; [apply (split_from_concat [] text) |].
  destruct (clean_text_length text). lia.
Qed.

(** X15: cleaning is idempotent.  Cleaning a cleaned text changes nothing,
    whatever the characters that count as whitespace are. *)
Theorem clean_text_idempotent `{Whitespace} (text : str) :
  clean_text (clean_text text) = clean_text text.
Proof.
  rewrite !clean_text_join_split.
  assert (Hwords : Forall word (str_split text))
    by (apply split_from_words; constructor).
  destruct (is_space SPACE) eqn:Hspace.
  - (* the spaces put between the words separate them again *)
    by rewrite split_join_space.
  - (* the space is no whitespace: the cleaned text is one word *)
    pose proof (join_no_space _ Hspace Hwords) as Hno.
    unfold str_split at 1.
    rewrite <- (app_nil_r (str_join [SPACE] (str_split text))) at 1.
    rewrite split_from_word_prefix by done. simpl.
    by destruct (str_join [SPACE] (str_split text)).
Qed.

(** ** Properties of the entry extraction *)

Lemma str_join_app (sep : str) (a b : list str) :
  a <> [] -> b <> [] ->
  str_join sep (a ++ b) = str_join sep a ++ sep ++ str_join sep b.
Proof.
  intros Ha Hb. induction a as [| x a IH]; [done |].
  destruct a as [| y a].
  - simpl app. by rewrite str_join_cons.
  - rewrite <- app_comm_cons, !str_join_cons by done.
    rewrite IH by done. by rewrite <- !app_assoc.
Qed.

(** The join of a segment of a list is a segment of the join. *)
Lemma str_join_infix (sep : str) (a m b : list str) :
  exists pre post,
    str_join sep (a ++ m ++ b) = pre ++ str_join sep m ++ post.
Proof.
  destruct m as [| x m].
  - exists (str_join sep (a ++ b)), []. simpl. by rewrite app_nil_r.
  - destruct a as [| y a]; destruct b as [| z b].
    + exists [], []. by rewrite app_nil_l, !app_nil_r.
    + exists [], (sep ++ str_join sep (z :: b)).
      rewrite (app_nil_l ((x :: m) ++ z :: b)).
      by rewrite str_join_app.
    + exists (str_join sep (y :: a) ++ sep), [].
      rewrite !app_nil_r, str_join_app by done. by rewrite <- app_assoc.
    + exists (str_join sep (y :: a) ++ sep),
             (sep ++ str_join sep (z :: b)).
      rewrite str_join_app by done.
      rewrite (str_join_app sep (x :: m)) by done.
      by rewrite <- !app_assoc.
Qed.

Lemma str_join_take_prefix (sep : str) (l : list str) (n : nat) :
  str_join sep (take n l) `prefix_of` str_join sep l.
Proof.
  destruct (decide (n = 0)) as [-> | Hn]; [apply prefix_nil |].
  destruct (decide (length l <= n)) as [Hge | Hlt];
    [by rewrite take_ge |].
  rewrite <- (take_drop n l) at 2.
  rewrite str_join_app.
  - apply prefix_app_r. done.
  - intros Hnil. apply (f_equal length) in Hnil.
    rewrite length_take in Hnil. simpl in Hnil. lia.
  - intros Hnil. apply (f_equal length) in Hnil.
    rewrite length_drop in Hnil. simpl in Hnil. lia.
Qed.

Lemma py_slice_split {A} (a b c : nat) (l : list A) :
  a <= b -> b <= c ->
  py_slice a c l = py_slice a b l ++ py_slice b c l.
Proof.
  intros Hab Hbc. unfold py_slice.
  replace (c - a) with ((b - a) + (c - b)) by lia.
  rewrite <- take_take_drop, drop_drop.
  by replace (a + (b - a)) with b by lia.
Qed.

Lemma py_slice_one {A} (i : nat) (l : list A) (x : A) :
  l !! i = Some x -> py_slice i (S i) l = [x].
Proof.
  intros Hi. unfold py_slice. replace (S i - i) with 1 by lia.
  by rewrite (drop_S _ _ _ Hi).
Qed.

(** A window [l[a:b]] around the index [i] contains [l[i]], and a wider
    window contains the narrower one as a segment. *)
Lemma py_slice_window {A} (a' a i b b' : nat) (l : list A) (x : A) :
  l !! i = Some x -> a' <= a -> a <= i -> i < b -> b <= b' ->
  (exists pre post, py_slice a b l = pre ++ [x] ++ post) /\
  (exists pre post, py_slice a' b' l = pre ++ py_slice a b l ++ post).
Proof.
  intros Hi Ha' Ha Hb Hb'. split.
  - exists (py_slice a i l), (py_slice (S i) b l).
    rewrite (py_slice_split a i b) by lia.
    rewrite (py_slice_split i (S i) b) by lia.
    by rewrite (py_slice_one _ _ _ Hi).
  - exists (py_slice a' a l), (py_slice b b' l).
    rewrite (py_slice_split a' a b') by lia.
    by rewrite (py_slice_split a b b') by lia.
Qed.

Lemma list_index_first (x : str) (l : list str) :
  x ∈ l ->
  exists i, list_index x l = Some i /\ l !! i = Some x /\
            forall j, j < i -> l !! j <> Some x.
Proof.
  induction l as [| y l IH]; [by intros ?%elem_of_nil |].
  intros Hin. simpl. destruct (decide (y = x)) as [-> | Hne].
  - exists 0. split; [done | split; [done | lia]].
  - apply elem_of_cons in Hin as [-> | Hin]; [done |].
    destruct (IH Hin) as (i & -> & Hi & Hfirst).
    exists (S i). split; [done | split; [done |]].
    intros [| j] Hj; simpl; [congruence | apply Hfirst; lia].
Qed.

Lemma decimal_inj (m n : nat) : decimal m = decimal n -> m = n.
Proof.
  unfold decimal. intros Heq.
  apply (pretty_nat_inj m n).
  rewrite <- (string_of_list_ascii_of_string (pretty m)),
          <- (string_of_list_ascii_of_string (pretty n)).
  f_equal.
  revert Heq. generalize (list_ascii_of_string (pretty m)).
  generalize (list_ascii_of_string (pretty n)).
  intros l2 l1. revert l2.
  induction l1 as [| a l1 IH]; intros [| b l2] Heq; try discriminate;
    [reflexivity |].
  simpl in Heq. injection Heq as Hab Hl.
  f_equal; [| by apply IH].
  rewrite <- (ascii_N_embedding a), <- (ascii_N_embedding b). by rewrite Hab.
Qed.

Lemma document_id_inj (source_hash : str) (m n : nat) :
  document_id source_hash m = document_id source_hash n -> m = n.
Proof.
  unfold document_id. intros Heq.
  apply app_inv_head in Heq. apply app_inv_head in Heq.
  by apply decimal_inj.
Qed.

Section ExtractionFacts.
Context `{Whitespace}.
Implicit Types (p : paragraph) (ps : list paragraph).

Lemma entries_loop_entries (source_file source_hash : str)
    (all : list str) ps (entry_id : nat) (entries : list entry) :
  entries_loop source_file source_hash all ps entry_id entries
    = entries
      ++ imap (fun k p => entry_of source_file source_hash all
                            (entry_id + k) p)
           (entry_paragraphs ps).
Proof.
  revert entry_id entries.
  induction ps as [| p ps IH]; intros entry_id entries; simpl.
  - by rewrite app_nil_r.
  - unfold entry_paragraphs. rewrite filter_cons.
    fold (entry_paragraphs ps).
    case_bool_decide as Hblank.
    + rewrite decide_False
        by (rewrite (strip_nil_clean _ Hblank); simpl; lia).
      apply IH.
    + destruct (length (clean_text (p_text p)) <? 10) eqn:Hshort.
      * apply Nat.ltb_lt in Hshort.
        rewrite decide_False by lia. apply IH.
      * apply Nat.ltb_ge in Hshort.
        rewrite decide_True by done.
        destruct (find_contexts all (clean_text (p_text p)))
          as [expanded_context full_context] eqn:Hctx.
        rewrite IH, imap_cons, <- app_assoc. simpl app.
        f_equal. f_equal.
        -- unfold entry_of. rewrite Hctx, Nat.add_0_r. reflexivity.
        -- apply imap_ext. intros k x _. simpl. f_equal. lia.
Qed.

Lemma extract_entries (md5_hexdigest : str -> str) ps
    (source_file : str) :
  extract_entries_from_html md5_hexdigest ps source_file
    = imap (fun k p => entry_of source_file
                         (take 8 (md5_hexdigest source_file))
                         (all_paragraph_texts ps) (1 + k) p)
        (entry_paragraphs ps).
Proof.
  unfold extract_entries_from_html. by rewrite entries_loop_entries.
Qed.

(** The text of a paragraph that becomes an entry is one of the texts the
    contexts are cut from: [index] finds it. *)
Lemma entry_text_listed p ps :
  p ∈ entry_paragraphs ps ->
  clean_text (p_text p) ∈ all_paragraph_texts ps.
Proof.
  intros Hp. apply list_elem_of_filter in Hp as [Hlen Hp].
  unfold all_paragraph_texts.
  apply list_elem_of_fmap. exists p. split; [done |].
  apply list_elem_of_filter. split; [| done].
  destruct (clean_text_length (p_text p)) as [Hclean _].
  split; [| lia].
  intros Hnil. rewrite Hnil in Hclean. simpl in Hclean. lia.
Qed.

Lemma find_contexts_found (all : list str) (text : str) (e : entry) :
  text ∈ all ->
  e_definition e = text ->
  e_expanded_context e = fst (find_contexts all text) ->
  e_full_context e = snd (find_contexts all text) ->
  context_found all e.
Proof.
  intros Hin Hdef Hexp Hfull.
  destruct (list_index_first _ _ Hin) as (i & Hindex & Hi & Hfirst).
  unfold find_contexts in *. rewrite Hindex in Hexp, Hfull.
  simpl in Hexp, Hfull.
  replace (Z.to_nat (Z.max 0 (Z.of_nat i - 2))) with (i - 2)
    in Hexp by lia.
  replace (Z.to_nat (Z.max 0 (Z.of_nat i - 5))) with (i - 5)
    in Hfull by lia.
  assert (Hlen : i < length all) by (by eapply lookup_lt_Some).
  destruct (py_slice_window (i - 5) (i - 2) i
              (min (length all) (i + 3)) (min (length all) (i + 6))
              all text Hi) as [(pre & post & Hone) (pre' & post' & Hwide)];
    [lia | lia | lia | lia |].
  exists i. rewrite Hdef.
  split; [done | split; [done | split; [done | split; [done |]]]].
  split.
  - rewrite Hexp, Hone.
    destruct (str_join_infix PARAGRAPH_BREAK pre [text] post)
      as (a & b & Hjoin).
    exists a, b. exact Hjoin.
  - rewrite Hfull, Hexp, Hwide. apply str_join_infix.
Qed.

Lemma rstrip_prefix (s : str) : rstrip s `prefix_of` s.
Proof.
  induction s as [| c s IH]; [done |]. simpl.
  destruct (rstrip s) as [| d r].
  - destruct (is_space c); [apply prefix_nil |].
    apply prefix_cons, prefix_nil.
  - by apply prefix_cons.
Qed.

Lemma before_first_prefix (c : char) (s : str) :
  before_first c s `prefix_of` s /\ c ∉ before_first c s.
Proof.
  induction s as [| d s [IH1 IH2]]; simpl.
  - split; [done | apply not_elem_of_nil].
  - destruct (d =? c)%N eqn:Hd.
    + split; [apply prefix_nil | apply not_elem_of_nil].
    + split; [by apply prefix_cons |].
      apply N.eqb_neq in Hd. apply not_elem_of_cons. by split.
Qed.

Lemma prefix_not_elem_of (c : char) (s t : str) :
  s `prefix_of` t -> c ∉ t -> c ∉ s.
Proof.
  intros [k ->] Hc Hin. apply Hc. apply elem_of_app. by left.
Qed.

Lemma is_substring_single (c : char) (s : str) :
  is_substring [c] s = false -> c ∉ s.
Proof.
  intros Hsub Hin. apply list_elem_of_split in Hin as (l1 & l2 & ->).
  assert (Htrue : is_substring [c] (l1 ++ c :: l2) = true).
  { apply is_substring_spec. by exists l1, l2. }
  congruence.
Qed.

(** The first words of a cleaned text, joined, start with a character
    that is not whitespace. *)
Lemma str_join_words_head (ws : list str) (n : nat) :
  Forall word ws ->
  match str_join [SPACE] (take n ws) with
  | [] => True
  | c :: _ => is_space c = false
  end.
Proof.
  intros Hws. destruct n as [| n]; [done |].
  destruct Hws as [| w ws [Hne Hw] _]; [done |].
  simpl take. destruct w as [| c w]; [done |].
  apply Forall_cons in Hw as [Hc _].
  simpl. by destruct (take n ws).
Qed.

Lemma find_term_found p (e : entry) :
  is_space SPACE = true ->
  e_definition e = clean_text (p_text p) ->
  e_term e = term_or_unknown (find_term p (e_definition e)) ->
  term_found p e.
Proof.
  intros Hspace Hdef Hterm.
  assert (Hunknown : UNKNOWN_TERM <> []) by discriminate.
  assert (Hfallback : forall bold_term,
            (bold_term = None \/ bold_term = Some []) ->
            e_term e
              = term_or_unknown
                  (let words := str_split (e_definition e) in
                   match words with
                   | [] => bold_term
                   | _ =>
                     let term :=
                       str_join [SPACE]
                         (take (min 3 (length words)) words) in
                     if is_substring [FULL_STOP] term
                     then Some (strip (before_first FULL_STOP term))
                     else Some term
                   end) ->
            e_term e <> [] /\ fallback_term e).
  { intros bold_term Hbold Heq. cbv zeta in Heq. unfold fallback_term.
    assert (Hwords : Forall word (str_split (e_definition e)))
      by (apply split_from_words; constructor).
    assert (Htext : e_definition e
                    = str_join [SPACE] (str_split (e_definition e))).
    { rewrite Hdef at 1. rewrite clean_text_join_split.
      rewrite Hdef, clean_text_join_split.
      rewrite split_join_space; [done | done |].
      apply split_from_words; constructor. }
    destruct (str_split (e_definition e)) as [| w ws] eqn:Hsplit.
    { rewrite Heq. destruct Hbold as [-> | ->]; simpl;
        (split; [done | by left]). }
    rewrite <- Hsplit in *.
    set (term := str_join [SPACE]
                   (take (min 3 (length (str_split (e_definition e))))
                      (str_split (e_definition e)))) in *.
    assert (Hprefix : term `prefix_of` e_definition e).
    { rewrite Htext. apply str_join_take_prefix. }
    pose proof (str_join_words_head _
                  (min 3 (length (str_split (e_definition e)))) Hwords)
      as Hhead.
    fold term in Hhead.
    destruct (is_substring [FULL_STOP] term) eqn:Hdot.
    - destruct (before_first_prefix FULL_STOP term) as [Hcut Hnodot].
      assert (Hstrip : strip (before_first FULL_STOP term)
                       `prefix_of` before_first FULL_STOP term).
      { unfold strip.
        destruct term as [| c term']; [done |].
        simpl before_first in *.
        destruct (c =? FULL_STOP)%N; [done |].
        simpl lstrip. rewrite Hhead. apply rstrip_prefix. }
      destruct (strip (before_first FULL_STOP term)) as [| c t] eqn:Hs.
      + rewrite Heq. simpl. split; [done | by left].
      + rewrite Heq. simpl. split; [done |]. right. split.
        * etransitivity; [exact Hstrip |].
          etransitivity; [exact Hcut | exact Hprefix].
        * eapply prefix_not_elem_of; [exact Hstrip | exact Hnodot].
    - apply is_substring_single in Hdot.
      destruct term as [| c t] eqn:Hs.
      + rewrite Heq. simpl. split; [done | by left].
      + rewrite Heq. simpl. split; [done |]. right. by split. }
  unfold term_found, find_term in *.
  destruct (p_bold p) as [bold_text |].
  - destruct (decide (clean_text bold_text = [])) as [Hnil | Hsome].
    + rewrite Hnil in Hterm. simpl in Hterm.
      apply (Hfallback (Some [])); [by right | exact Hterm].
    + destruct (clean_text bold_text) as [| c t] eqn:Hb; [done |].
      simpl in Hterm. by rewrite Hterm.
  - simpl in Hterm. apply (Hfallback None); [by left | exact Hterm].
Qed.

End ExtractionFacts.

Lemma Forall2_imap_r {A B} (P : A -> B -> Prop) (f : nat -> A -> B)
    (l : list A) :
  (forall k x, x ∈ l -> P x (f k x)) -> Forall2 P l (imap f l).
Proof.
  revert f. induction l as [| x l IH]; intros f Hf; [constructor |].
  rewrite imap_cons. constructor; [apply Hf; by left |].
  apply IH. intros k y Hy. apply Hf. by right.
Qed.

Lemma Forall_imap_r {A B} (P : B -> Prop) (f : nat -> A -> B)
    (l : list A) :
  (forall k x, x ∈ l -> P (f k x)) -> Forall P (imap f l).
Proof.
  revert f. induction l as [| x l IH]; intros f Hf; [constructor |].
  rewrite imap_cons. constructor; [apply Hf; by left |].
  apply IH. intros k y Hy. apply Hf. by right.
Qed.

Lemma filter_clean_length `{Whitespace} (ps : list paragraph) :
  map (fun p => clean_text (p_text p)) (entry_paragraphs ps)
    = filter (fun t => 10 <= length t)
        (map (fun p => clean_text (p_text p)) ps).
Proof.
  unfold entry_paragraphs. induction ps as [| p ps IH]; [reflexivity |].
  simpl map. rewrite !filter_cons.
  destruct (decide (10 <= length (clean_text (p_text p)))); simpl;
    by rewrite IH.
Qed.

(** X16: the entries of a document.  The entries extracted are the
    paragraphs whose cleaned text has at least 10 characters, in document
    order, with that text as definition (a paragraph of whitespace alone
    needs no test of its own); every entry carries the file name as
    source; the identifiers are the hash prefix followed by an underscore
    and the numbers 1, 2, 3, ... in decimal, without a gap for a paragraph
    that was skipped, and they are pairwise distinct. *)
Theorem extracted_entries `{Whitespace} (md5_hexdigest : str -> str)
    (paragraphs : list paragraph) (source_file : str) :
  let entries :=
    extract_entries_from_html md5_hexdigest paragraphs source_file in
  map e_definition entries
    = filter (fun t => 10 <= length t)
        (map (fun p => clean_text (p_text p)) paragraphs) /\
  map e_id entries
    = map (document_id (take 8 (md5_hexdigest source_file)))
        (seq 1 (length entries)) /\
  NoDup (map e_id entries) /\
  Forall (fun e => e_source e = source_file) entries.
Proof.
  cbv zeta. rewrite extract_entries.
  assert (Hids : map e_id
                   (imap (fun k p =>
                            entry_of source_file
                              (take 8 (md5_hexdigest source_file))
                              (all_paragraph_texts paragraphs) (1 + k) p)
                      (entry_paragraphs paragraphs))
                 = map (document_id (take 8 (md5_hexdigest source_file)))
                     (seq 1 (length (entry_paragraphs paragraphs)))).
  { change (map e_id ?l) with (e_id <$> l). rewrite fmap_imap.
    apply (imap_seq (entry_paragraphs paragraphs)
             (document_id (take 8 (md5_hexdigest source_file))) 1). }
  split; [| split; [| split]].
  - change (map e_definition ?l) with (e_definition <$> l).
    rewrite fmap_imap, <- filter_clean_length.
    apply (imap_const (fun p => clean_text (p_text p))).
  - by rewrite Hids, length_imap.
  - rewrite Hids.
    apply (NoDup_fmap_2_strong
             (document_id (take 8 (md5_hexdigest source_file)))).
    + intros m n _ _. apply document_id_inj.
    + apply NoDup_seq.
  - apply Forall_imap_r. done.
Qed.

(** X17: the contexts of an entry.  The lookup of the text of an entry in
    the list of paragraph texts never fails, so that the fallback of the
    [except ValueError] branch is never used: the contexts of every entry
    are the paragraphs around the first paragraph with the text of the
    entry, two on each side for the expanded context and five on each side
    for the full context, joined by blank lines.  The definition occurs in
    the expanded context, and the expanded context occurs in the full
    context. *)
Theorem entry_contexts `{Whitespace} (md5_hexdigest : str -> str)
    (paragraphs : list paragraph) (source_file : str) :
  Forall (context_found (all_paragraph_texts paragraphs))
    (extract_entries_from_html md5_hexdigest paragraphs source_file).
Proof.
  rewrite extract_entries. apply Forall_imap_r. intros k p Hp.
  apply (find_contexts_found _ (clean_text (p_text p)));
    [by apply entry_text_listed | done | done | done].
Qed.

(** X18: the headword of an entry.  (The space is whitespace.)  The
    headword of an entry is never empty.  It is the cleaned text of the
    first bold element of the paragraph when that is not empty; otherwise
    it is the beginning of the definition, without a full stop, or the
    placeholder [Unknown Term]. *)
Theorem entry_terms `{Whitespace} (md5_hexdigest : str -> str)
    (paragraphs : list paragraph) (source_file : str) :
  is_space SPACE = true ->
  Forall2 term_found (entry_paragraphs paragraphs)
    (extract_entries_from_html md5_hexdigest paragraphs source_file).
Proof.
  intros Hspace. rewrite extract_entries. apply Forall2_imap_r.
  intros k p _. by apply find_term_found.
Qed.

Lemma entry_terms_witness :
  @is_space PySpace.whitespace SPACE = true /\
  Forall2 (@term_found PySpace.whitespace)
    (@entry_paragraphs PySpace.whitespace sample_paragraphs)
    (@extract_entries_from_html PySpace.whitespace sample_digest
       sample_paragraphs (U "dict.html")).
Proof.
  assert (Hspace : @is_space PySpace.whitespace SPACE = true)
    by reflexivity.
  split; [exact Hspace |].
  exact (@entry_terms PySpace.whitespace sample_digest sample_paragraphs
           (U "dict.html") Hspace).
Defined.

(** ** Properties of the batching *)

Section BatchFacts.
Context {A : Type}.
Implicit Types (l : list A) (step : nat).

Lemma py_slice_step i step l :
  py_slice i (i + step) l = take step (drop i l).
Proof. unfold py_slice. f_equal. lia. Qed.

Lemma range_count n step :
  0 < step ->
  let m := (n + step - 1) / step in
  n <= m * step /\ (0 < n -> m * step < n + step).
Proof.
  intros Hstep m.
  pose proof (Nat.div_mod (n + step - 1) step) as Hdiv.
  pose proof (Nat.mod_upper_bound (n + step - 1) step) as Hmod.
  fold m in Hdiv. split; [nia |]. intros Hn. nia.
Qed.

Lemma batches_take step l (m : nat) :
  concat (map (fun i => py_slice i (i + step) l)
            (map (fun k => k * step) (seq 0 m)))
    = take (m * step) l.
Proof.
  induction m as [| m IH]; [reflexivity |].
  rewrite seq_S, !map_app, concat_app, IH. simpl.
  rewrite app_nil_r, py_slice_step, take_take_drop.
  f_equal. lia.
Qed.

Lemma batches_lookup step l (m k : nat) (b : list A) :
  map (fun i => py_slice i (i + step) l)
    (map (fun k => k * step) (seq 0 m)) !! k = Some b ->
  k < m /\ b = take step (drop (k * step) l).
Proof.
  intros Hk. change (map ?f ?x) with (f <$> x) in Hk.
  rewrite !list_lookup_fmap in Hk.
  destruct (seq 0 m !! k) as [j |] eqn:Hj; [| discriminate].
  apply lookup_seq in Hj as [-> Hlt]. simpl in Hk.
  injection Hk as <-. by rewrite py_slice_step.
Qed.

End BatchFacts.

(** X19: the batches of one file.  The entries of a file are sent to the
    index in order, each entry in exactly one batch: the batches, put
    together, are the entries.  No batch is empty, no batch holds more than
    1000 entries, every batch but the last holds exactly 1000, and no
    batch is sent for a file without entries. *)
Theorem index_batches_cover {A} (entries : list A) :
  concat (index_batches entries) = entries /\
  Forall (fun batch => 1 <= length batch <= BATCH_SIZE)
    (index_batches entries) /\
  (forall k batch,
     index_batches entries !! k = Some batch ->
     S k < length (index_batches entries) ->
     length batch = BATCH_SIZE) /\
  (entries = [] -> index_batches entries = []).
Proof.
  assert (Hstep : 0 < BATCH_SIZE) by (unfold BATCH_SIZE; lia).
  destruct (range_count (length entries) BATCH_SIZE Hstep) as [Hcover Hlast].
  destruct entries as [| x entries]; [by repeat split |].
  set (l := x :: entries) in *.
  assert (Hn : 0 < length l) by (simpl; lia).
  specialize (Hlast Hn).
  unfold index_batches. fold l.
  change (match l with [] => [] | _ => ?b end) with b.
  unfold py_range_step.
  generalize dependent BATCH_SIZE. intros step Hstep Hcover Hlast.
  split; [| split; [| split]].
  - rewrite batches_take. by apply take_ge.
  - apply Forall_lookup. intros k b Hk.
    apply batches_lookup in Hk as [Hlt ->].
    rewrite length_take, length_drop. nia.
  - intros k b Hk Hnext.
    rewrite !length_map, length_seq in Hnext.
    apply batches_lookup in Hk as [Hlt ->].
    rewrite length_take, length_drop. nia.
  - discriminate.
Qed.

(** ** The indexer on concrete inputs *)

Module IndexerExamples.
Import PySpace.

Example clean_spaces :
  clean_text (U "  test   string  ") = U "test string".
Proof. vm_compute. reflexivity. Qed.

Example clean_newline :
  clean_text (U "test" ++ [10%N] ++ U "string") = U "test string".
Proof. vm_compute. reflexivity. Qed.

Example clean_no_break_space :
  clean_text ([160%N] ++ U "bæx" ++ [9%N; 160%N; 10%N] ++ U "horse")
    = U "bæx horse".
Proof. vm_compute. reflexivity. Qed.

(** Two entries with a bold headword, as in the test of the repository. *)
Example extract_two_entries :
  map (fun e => (e_id e, e_term e, e_definition e))
    (extract_entries_from_html sample_digest
       [ {| p_text := U "Term1 - Definition1"; p_bold := Some (U "Term1") |};
         {| p_text := U "Term2 - Definition2"; p_bold := Some (U "Term2") |} ]
       (U "test_source.html"))
  = [ (U "d41d8cd9_1", U "Term1", U "Term1 - Definition1");
      (U "d41d8cd9_2", U "Term2", U "Term2 - Definition2") ].
Proof. vm_compute. reflexivity. Qed.

(** A paragraph that is too short is skipped and takes no number; a
    headword without a bold element is cut at the first full stop. *)
Example extract_sample :
  map (fun e => (e_id e, e_term e, e_definition e))
    (extract_entries_from_html sample_digest sample_paragraphs
       (U "dict.html"))
  = [ (U "d41d8cd9_1", U "tærqūs", U "tærqūs n. hare (animal)");
      (U "d41d8cd9_2", U "see also", U "see also. the entry bæx") ].
Proof. vm_compute. reflexivity. Qed.

(** A headword that starts with a full stop is replaced by the
    placeholder. *)
Example extract_unknown_term :
  map e_term
    (extract_entries_from_html sample_digest
       [ {| p_text := U ".hidden file names"; p_bold := None |} ]
       (U "dict.html"))
  = [U "Unknown Term"].
Proof. vm_compute. reflexivity. Qed.

(** A paragraph whose text repeats an earlier one gets the contexts of
    the earlier one. *)
Example repeated_text_context :
  map e_expanded_context
    (extract_entries_from_html sample_digest
       [ {| p_text := U "see the next entry"; p_bold := None |};
         {| p_text := U "first paragraph"; p_bold := None |};
         {| p_text := U "second paragraph"; p_bold := None |};
         {| p_text := U "third paragraph"; p_bold := None |};
         {| p_text := U "see the next entry"; p_bold := None |} ]
       (U "dict.html"))
  = [ U "see the next entry" ++ [10; 10]%N ++ U "first paragraph"
        ++ [10; 10]%N ++ U "second paragraph";
      U "see the next entry" ++ [10; 10]%N ++ U "first paragraph"
        ++ [10; 10]%N ++ U "second paragraph"
        ++ [10; 10]%N ++ U "third paragraph";
      U "see the next entry" ++ [10; 10]%N ++ U "first paragraph"
        ++ [10; 10]%N ++ U "second paragraph"
        ++ [10; 10]%N ++ U "third paragraph" ++ [10; 10]%N
        ++ U "see the next entry";
      U "first paragraph" ++ [10; 10]%N ++ U "second paragraph"
        ++ [10; 10]%N ++ U "third paragraph" ++ [10; 10]%N
        ++ U "see the next entry";
      U "see the next entry" ++ [10; 10]%N ++ U "first paragraph"
        ++ [10; 10]%N ++ U "second paragraph" ].
Proof. vm_compute. reflexivity. Qed.

Example batches_of_2500 :
  map length (index_batches (seq 0 2500)) = [1000; 1000; 500].
Proof. vm_compute. reflexivity. Qed.

End IndexerExamples.
